(** * Run grouping and aggregation for the experiment page

    A shallow embedding of
    [experiment-tracking/components/experiment-page/utils/experimentPage.group-row-utils.ts]
    and the properties of its grouping-key codec, value aggregator, grouping
    engine, render-metadata builder and time-series aggregator.

    The file has four parts:
    - [JS]: the part of the ECMAScript run time the module leans on (UTF-16
      strings, IEEE-754 numbers, exceptions, plain objects used as
      dictionaries, and the few lodash helpers it imports);
    - the functions of the module under their source names, a caller after
      its callees;
    - the vocabulary of the properties and the data of the worked examples;
    - the properties. *)

From Stdlib Require Import Ascii String.
From Stdlib Require Import List Bool Arith ZArith NArith Lia.
From Stdlib Require Import Permutation Sorted.
From Stdlib Require Import Floats Uint63.
Import ListNotations.

Set Implicit Arguments.

(* ================================================================= *)
(** ** The ECMAScript run time *)

Module JS.

(** *** Strings

    An ECMAScript string is a sequence of UTF-16 code units.  Literals of the
    source are written with [str]. *)

Definition jsstring := list N.

Definition str (s : string) : jsstring :=
  map N_of_ascii (list_ascii_of_string s).

Fixpoint string_eqb (a b : jsstring) : bool :=
  match a, b with
  | [], [] => true
  | x :: a', y :: b' => N.eqb x y && string_eqb a' b'
  | _, _ => false
  end.

(** [Array.prototype.includes] on an array of strings. *)
Definition includes (l : list jsstring) (x : jsstring) : bool :=
  existsb (string_eqb x) l.

(** The full stop, the separator of every key this module builds. *)
Definition full_stop : N := 46.

(** [parts.join('.')] for an array of strings. *)
Fixpoint join_dot (parts : list jsstring) : jsstring :=
  match parts with
  | [] => []
  | [p] => p
  | p :: rest => p ++ full_stop :: join_dot rest
  end.

(** Truthiness of a string: every string but the empty one. *)
Definition string_truthy (s : jsstring) : bool :=
  match s with [] => false | _ => true end.

(** *** Regular expressions

    The pattern pieces the module's one regular expression is made of.  A
    matcher takes the rest of the input and a continuation; a greedy [+] first
    tries to take one more character and falls back to stopping where it is,
    which is the backtracking order of the ECMAScript pattern semantics. *)

(** [[a-z]] *)
Definition is_lower (c : N) : bool := (97 <=? c)%N && (c <=? 122)%N.

(** LineTerminator: LF, CR, U+2028, U+2029. *)
Definition is_line_terminator (c : N) : bool :=
  (c =? 10)%N || (c =? 13)%N || (c =? 8232)%N || (c =? 8233)%N.

(** [.] without the [s] flag: any code unit but a line terminator. *)
Definition is_dot (c : N) : bool := negb (is_line_terminator c).

(** [\.] *)
Definition is_full_stop (c : N) : bool := (c =? full_stop)%N.

(** One character of class [p]. *)
Definition re_char {R} (p : N -> bool) (s : jsstring)
    (k : jsstring -> option R) : option R :=
  match s with
  | c :: s' => if p c then k s' else None
  | [] => None
  end.

(** A capturing group around [p+]: the continuation receives the captured
    text and the rest of the input. *)
Fixpoint re_plus {R} (p : N -> bool) (s : jsstring)
    (k : jsstring -> jsstring -> option R) : option R :=
  match s with
  | [] => None
  | c :: s' =>
      if p c then
        match re_plus p s' (fun cap rest => k (c :: cap) rest) with
        | Some r => Some r
        | None => k [c] s'
        end
      else None
  end.

(** *** Numbers

    An ECMAScript number is an IEEE-754 binary64 value: Rocq's primitive
    [float], with its single NaN, two infinities and two zeros. *)

Abbreviation number := float.

(** [values.length] and other counts, as numbers. *)
Definition of_count (n : nat) : number :=
  PrimFloat.of_uint63 (Uint63.of_Z (Z.of_nat n)).

(** The global [isNaN], on a number. *)
Definition isNaN (x : number) : bool := PrimFloat.is_nan x.

(** Truthiness of a number: every number but [+0], [-0] and [NaN]. *)
Definition number_truthy (x : number) : bool :=
  negb (PrimFloat.is_nan x || PrimFloat.is_zero x).

Definition is_pos_zero (x : number) : bool :=
  PrimFloat.is_zero x && negb (PrimFloat.get_sign x).

Definition is_neg_zero (x : number) : bool :=
  PrimFloat.is_zero x && PrimFloat.get_sign x.

(** [Math.max(...args)]: starts from [-Infinity]; a NaN argument makes the
    result NaN; [+0] counts as larger than [-0]. *)
Definition max_step (highest x : number) : number :=
  if is_pos_zero x && is_neg_zero highest then x
  else if PrimFloat.ltb highest x then x
  else highest.

Fixpoint max_loop (highest : number) (args : list number) : number :=
  match args with
  | [] => highest
  | x :: rest =>
      if PrimFloat.is_nan x then PrimFloat.nan
      else max_loop (max_step highest x) rest
  end.

Definition Math_max (args : list number) : number :=
  max_loop PrimFloat.neg_infinity args.

(** [Math.min(...args)]: starts from [+Infinity]; a NaN argument makes the
    result NaN; [-0] counts as smaller than [+0]. *)
Definition min_step (lowest x : number) : number :=
  if is_neg_zero x && is_pos_zero lowest then x
  else if PrimFloat.ltb x lowest then x
  else lowest.

Fixpoint min_loop (lowest : number) (args : list number) : number :=
  match args with
  | [] => lowest
  | x :: rest =>
      if PrimFloat.is_nan x then PrimFloat.nan
      else min_loop (min_step lowest x) rest
  end.

Definition Math_min (args : list number) : number :=
  min_loop PrimFloat.infinity args.

(** [Math.round]: the integer nearest to [x], ties towards [+Infinity];
    NaN, the infinities and the zeros are returned as they are, and a result
    of zero keeps the sign of [x].  A finite [x] is [(-1)^s * m * 2^e]; for
    [e < 0] the value [floor(x + 1/2)] is computed exactly on integers. *)
Definition Math_round (x : number) : number :=
  match Prim2SF x with
  | S754_finite s m e =>
      if (0 <=? e)%Z then x
      else
        let d := (- e)%Z in
        let half := Z.shiftl 1 (d - 1) in
        let n := if s then Z.shiftr (half - Z.pos m) d
                 else Z.shiftr (half + Z.pos m) d in
        if (n =? 0)%Z then (if s then PrimFloat.neg_zero else PrimFloat.zero)
        else if (n <? 0)%Z
             then PrimFloat.opp (PrimFloat.of_uint63 (Uint63.of_Z (- n)))
             else PrimFloat.of_uint63 (Uint63.of_Z n)
  | _ => x
  end.

(** A number used as a property key is converted to a string.  The
    conversion sends [+0] and [-0] to the same string and is otherwise
    one-to-one, so a number stands for its own key once the sign of zero is
    dropped. *)
Definition number_key (x : number) : number :=
  if PrimFloat.is_zero x then PrimFloat.zero else x.

Definition same_number_key (x y : number) : bool :=
  PrimFloat.Leibniz.eqb (number_key x) (number_key y).

(** lodash [compact] on an array of numbers ([undefined] for the array gives
    the empty array): the falsy elements are dropped. *)
Definition compact (l : option (list number)) : list number :=
  match l with
  | None => []
  | Some l => filter number_truthy l
  end.

(** *** Exceptions *)

Inductive exn :=
| TypeError
| Error (message : jsstring).

Inductive outcome (A : Type) :=
| Returns (a : A)
| Throws (e : exn).

Arguments Returns {A} a.
Arguments Throws {A} e.

Definition bind {A B} (c : outcome A) (k : A -> outcome B) : outcome B :=
  match c with
  | Returns a => k a
  | Throws e => Throws e
  end.

(** A loop whose body may throw. *)
Fixpoint for_each {S A} (body : S -> A -> outcome S) (l : list A) (s : S)
  : outcome S :=
  match l with
  | [] => Returns s
  | x :: rest => bind (body s x) (for_each body rest)
  end.

(** *** Plain objects used as dictionaries

    The own properties of an object, in the order they were created. *)

Definition props (V : Type) := list (jsstring * V).

Fixpoint get_own {V} (k : jsstring) (o : props V) : option V :=
  match o with
  | [] => None
  | (k', v) :: rest => if string_eqb k k' then Some v else get_own k rest
  end.

(** Assignment to an own property: an existing property keeps its place, a
    new one comes last. *)
Fixpoint set_own {V} (k : jsstring) (v : V) (o : props V) : props V :=
  match o with
  | [] => [(k, v)]
  | (k', v') :: rest =>
      if string_eqb k k' then (k', v) :: rest
      else (k', v') :: set_own k v rest
  end.

(** An object literal [{}] inherits from [Object.prototype]; reading one of
    these names from it finds the inherited member, a function (or, for
    [__proto__], the prototype itself) and so a truthy value. *)
Definition proto_key : jsstring := str "__proto__".

Definition Object_prototype_names : list jsstring :=
  map str [ "constructor"; "hasOwnProperty"; "isPrototypeOf";
            "propertyIsEnumerable"; "toLocaleString"; "toString"; "valueOf";
            "__defineGetter__"; "__defineSetter__"; "__lookupGetter__";
            "__lookupSetter__"; "__proto__" ]%string.

Definition inherited (k : jsstring) : bool :=
  includes Object_prototype_names k.

(** An array index: the canonical decimal form of an integer below
    [2^32 - 1]. *)
Definition digit (c : N) : option N :=
  if (48 <=? c)%N && (c <=? 57)%N then Some (c - 48)%N else None.

Fixpoint decimal (acc : N) (s : jsstring) : option N :=
  match s with
  | [] => Some acc
  | c :: s' =>
      match digit c with
      | Some d => decimal (10 * acc + d)%N s'
      | None => None
      end
  end.

Definition array_index (s : jsstring) : option N :=
  match s with
  | [] => None
  | c :: rest =>
      if (c =? 48)%N && string_truthy rest then None
      else match decimal 0 s with
           | Some n => if (n <? 4294967295)%N then Some n else None
           | None => None
           end
  end.

Definition is_array_index (s : jsstring) : bool :=
  match array_index s with Some _ => true | None => false end.

Definition index_of (s : jsstring) : N :=
  match array_index s with Some n => n | None => 0%N end.

(** The order in which the own properties of an object are enumerated (by
    [Object.keys], and so by lodash [keys], [values] and [entries]): the array
    indices in ascending numeric order, then the other names in creation
    order. *)
Fixpoint insert_by_index {V} (e : jsstring * V) (l : props V) : props V :=
  match l with
  | [] => [e]
  | e' :: rest =>
      if (index_of (fst e) <=? index_of (fst e'))%N then e :: l
      else e' :: insert_by_index e rest
  end.

Fixpoint sort_by_index {V} (l : props V) : props V :=
  match l with
  | [] => []
  | e :: rest => insert_by_index e (sort_by_index rest)
  end.

Definition own_entries {V} (o : props V) : props V :=
  sort_by_index (filter (fun e => is_array_index (fst e)) o)
  ++ filter (fun e => negb (is_array_index (fst e))) o.

(** lodash [keys], on a plain object. *)
Definition keys {V} (o : props V) : list jsstring := map fst (own_entries o).

(** [dict[k].push(x)] after [if (!dict[k]) dict[k] = []], on a dictionary of
    arrays that started as [{}].  An own property is an array, which is
    truthy; an inherited member is truthy too, so it is not replaced, and it
    has no [push]: the call throws. *)
Definition push_to {A} (o : props (list A)) (k : jsstring) (x : A)
  : outcome (props (list A)) :=
  match get_own k o with
  | Some l => Returns (set_own k (l ++ [x]) o)
  | None =>
      if inherited k then Throws TypeError
      else Returns (set_own k [x] o)
  end.

End JS.
Import JS.

Notation "x <- c ;; k" := (bind c (fun x => k))
  (at level 61, c at next level, right associativity).

(* ================================================================= *)
(** ** experimentPage.row-types *)

(** Modelled from the spec: the enums [RunGroupingMode] and
    [RunGroupingAggregateFunction] are declared in
    [experimentPage.row-types], which is not part of the sources at hand.
    They are string enums; the persisted key format names their members as the
    lower-case tokens below.  (The example in the comment of
    [createRunsGroupByKey] writes a key in a field order the function does not
    produce; it is not followed.)  The properties use of the tokens only that
    they are distinct non-empty words of lower-case letters. *)
Inductive RunGroupingMode := Tag | Param | Dataset.

Inductive RunGroupingAggregateFunction := Min | Max | Average.

Definition mode_token (m : RunGroupingMode) : jsstring :=
  match m with
  | Tag => str "tag"
  | Param => str "param"
  | Dataset => str "dataset"
  end.

Definition aggregate_token (f : RunGroupingAggregateFunction) : jsstring :=
  match f with
  | Min => str "min"
  | Max => str "max"
  | Average => str "average"
  end.

(** [values(RunGroupingMode)] and [values(RunGroupingAggregateFunction)]. *)
Definition RunGroupingMode_values : list jsstring :=
  map mode_token [Dataset; Tag; Param].

Definition RunGroupingAggregateFunction_values : list jsstring :=
  map aggregate_token [Min; Max; Average].

(* ================================================================= *)
(** ** The grouping-key codec *)

(** At run time an enum member is its string, and a configuration read back
    from a persisted key or handed over by an untyped caller can hold any
    string; so the fields of [GroupByConfig] are strings here. *)
Record GroupByConfig := {
  mode : jsstring;
  aggregateFunction : jsstring;
  groupByData : jsstring;
}.

(** [createRunsGroupByKey]: [mode ? [mode, aggregateFunction, groupByData].join('.') : ''].
    [None] is [undefined]. *)
Definition createRunsGroupByKey (mode : option jsstring) (groupByData : jsstring)
    (aggregateFunction : jsstring) : jsstring :=
  match mode with
  | Some m =>
      if string_truthy m then join_dot [m; aggregateFunction; groupByData]
      else []
  | None => []
  end.

(** [createGroupId]: the value is dropped when it is absent or empty. *)
Definition createGroupId (mode groupByName : jsstring)
    (groupByValue : option jsstring) : jsstring :=
  match groupByValue with
  | Some v =>
      if string_truthy v then join_dot [mode; groupByName; v]
      else join_dot [mode; groupByName]
  | None => join_dot [mode; groupByName]
  end.

(** One attempt of [/([a-z]+)\.([a-z]+)\.(.+)/] at the start of [s]: the three
    captures. *)
Definition groupByKey_pattern_here (s : jsstring)
  : option (jsstring * jsstring * jsstring) :=
  re_plus is_lower s (fun g1 s1 =>
  re_char is_full_stop s1 (fun s2 =>
  re_plus is_lower s2 (fun g2 s3 =>
  re_char is_full_stop s3 (fun s4 =>
  re_plus is_dot s4 (fun g3 _ => Some (g1, g2, g3)))))).

(** [groupByKey.match(/([a-z]+)\.([a-z]+)\.(.+)/)]: the pattern is not
    anchored, so the first start position that matches wins. *)
Fixpoint groupByKey_match (s : jsstring)
  : option (jsstring * jsstring * jsstring) :=
  match groupByKey_pattern_here s with
  | Some r => Some r
  | None =>
      match s with
      | [] => None
      | _ :: s' => groupByKey_match s'
      end
  end.

(** [parseRunsGroupByKey].  The argument is [None] for [undefined]; the result
    is [None] for [null].  When the pattern does not match, the destructured
    [mode] is [undefined] and [includes] rejects it. *)
Definition parseRunsGroupByKey (groupByKey : option jsstring)
  : option GroupByConfig :=
  match groupByKey with
  | None => None
  | Some key =>
      if negb (string_truthy key) then None
      else
        match groupByKey_match key with
        | None => None
        | Some (mode, aggregateFunction, groupByData) =>
            if negb (includes RunGroupingMode_values mode)
               || negb (includes RunGroupingAggregateFunction_values aggregateFunction)
            then None
            else Some {| mode := mode;
                         aggregateFunction := aggregateFunction;
                         groupByData := groupByData |}
        end
  end.

(* ================================================================= *)
(** ** Entities *)

(** Modelled from the spec: [MetricEntity] of [types], a logged metric value
    with its key, numeric value, step and timestamp. *)
Record MetricEntity := {
  metric_key : jsstring;
  metric_value : number;
  step : number;
  timestamp : number;
}.

(** Modelled from the spec: [KeyValueEntity] of [types], a parameter or a
    tag, with its key and string value. *)
Record KeyValueEntity := {
  kv_key : jsstring;
  kv_value : jsstring;
}.

(** [AggregableEntity = { key: string; value: string | number }]. *)
Inductive string_or_number :=
| SString (s : jsstring)
| SNumber (x : number).

Record AggregableEntity := {
  key : jsstring;
  value : string_or_number;
}.

(** Metrics and parameters are passed to the aggregator as they are; it reads
    their [key] and [value] only. *)
Definition metric_entity (m : MetricEntity) : AggregableEntity :=
  {| key := metric_key m; value := SNumber (metric_value m) |}.

Definition param_entity (p : KeyValueEntity) : AggregableEntity :=
  {| key := kv_key p; value := SString (kv_value p) |}.

(** Modelled from the spec: [RunInfoEntity], of which the functions read the
    run identifier only. *)
Record RunInfoEntity := {
  run_uuid : jsstring;
}.

(** Modelled from the spec: a dataset identity, a name and a content
    digest, and a dataset reference of a run. *)
Record DatasetEntity := {
  name : jsstring;
  digest : jsstring;
}.

Record RunDatasetWithTags := {
  dataset : DatasetEntity;
}.

(** Modelled from the spec: [SingleRunData] of [experimentPage.row-utils],
    with the fields the functions read, all of them present.  [object_id] is
    the identity of the run object, which [Array.prototype.includes]
    compares. *)
Record SingleRunData := {
  object_id : nat;
  runInfo : RunInfoEntity;
  params : list KeyValueEntity;
  metrics : list MetricEntity;
  tags : props KeyValueEntity;
  datasets : list RunDatasetWithTags;
}.

(** Modelled from the spec: [RunGroupByValueType] of
    [experimentPage.row-types], a tag or parameter value, a dataset, or the
    symbol [RUN_GROUP_REMAINING_RUNS_SYMBOL] of this module. *)
Inductive RunGroupByValueType :=
| GroupValue (v : jsstring)
| GroupDataset (d : DatasetEntity)
| RUN_GROUP_REMAINING_RUNS_SYMBOL.

(** An aggregated [{ key, value }] with a numeric value, as the aggregator
    builds it. *)
Definition AggregatedEntity : Type := jsstring * number.

(** Modelled from the spec: [RowGroupRenderMetadata] and [RowRenderMetadata]
    of [experimentPage.row-types], with the fields [createGroupRenderMetadata]
    writes. *)
Record RowGroupRenderMetadata := {
  groupId : jsstring;
  expanderOpen : bool;
  runUuids : list jsstring;
  aggregatedMetricEntities : list AggregatedEntity;
  aggregatedParamEntities : list AggregatedEntity;
  group_value : RunGroupByValueType;
}.

Record RowRenderMetadata := {
  index : nat;
  level : nat;
  row_runInfo : RunInfoEntity;
  belongsToGroup : bool;
  isPinnable : bool;
  row_metrics : list MetricEntity;
  row_params : list KeyValueEntity;
  row_tags : props KeyValueEntity;
  row_datasets : list RunDatasetWithTags;
  rowUuid : jsstring;
}.

(** An element of the rendered list; [isGroup] is [true] on a [GroupRow]. *)
Inductive RenderMetadata :=
| GroupRow (g : RowGroupRenderMetadata)
| RunRow (r : RowRenderMetadata).

Definition isGroup (r : RenderMetadata) : bool :=
  match r with GroupRow _ => true | RunRow _ => false end.

(** Modelled from the spec: [EXPERIMENT_PARENT_ID_TAG] of
    [experimentPage.common-utils], the name of the parent-run tag.  The spec
    does not spell the name; no property depends on it. *)
Definition EXPERIMENT_PARENT_ID_TAG : jsstring := str "mlflow.parentRunId".

(** [tags[name]?.value].  A name that is not an own property reads as
    [undefined] or as a member of [Object.prototype], and neither has a
    [value]. *)
Definition tag_value (tags : props KeyValueEntity) (name : jsstring)
  : option jsstring :=
  option_map kv_value (get_own name tags).

(** Truthiness of [string | undefined]. *)
Definition truthy (v : option jsstring) : bool :=
  match v with Some s => string_truthy s | None => false end.

Section GroupRowUtils.

(** The conversion of a string to a number that [Number(value)] applies
    (StringToNumber of the language): a built-in, kept abstract. *)
Variable StringToNumber : jsstring -> number.

Definition Number (v : string_or_number) : number :=
  match v with
  | SNumber x => x
  | SString s => StringToNumber s
  end.

(* ================================================================= *)
(** ** The value aggregator *)

(** What reading [acc[key]] can find in the accumulator of the Min/Max
    branch. *)
Inductive member :=
| Entity (v : number)            (* an object [{ key, value }] *)
| InheritedString (s : jsstring) (* the [key] of a replaced prototype *)
| InheritedNumber (x : number)   (* the [value] of a replaced prototype *)
| InheritedBuiltin               (* a member of [Object.prototype] *)
| Undefined.

Definition member_truthy (m : member) : bool :=
  match m with
  | Entity _ => true
  | InheritedString s => string_truthy s
  | InheritedNumber x => number_truthy x
  | InheritedBuiltin => true
  | Undefined => false
  end.

(** [Number(acc[key].value)]: only an entity has a [value]; anything else
    gives [Number(undefined)], which is NaN. *)
Definition member_value (m : member) : number :=
  match m with
  | Entity v => v
  | _ => PrimFloat.nan
  end.

(** The accumulator of the Min/Max branch.  An own property [k] holds the
    object [{ key: k, value }], kept here as its [value].  Assigning to
    [acc['__proto__']] does not create a property: it replaces the prototype
    of [acc] by the assigned object, whose [key] and [value] are then
    inherited. *)
Record extremum_map := {
  own_extrema : props number;
  replaced_prototype : option number;
}.

Definition extremum_get (acc : extremum_map) (k : jsstring) : member :=
  if string_eqb k proto_key then
    match replaced_prototype acc with
    | Some pv => Entity pv
    | None => InheritedBuiltin
    end
  else
    match get_own k (own_extrema acc) with
    | Some v => Entity v
    | None =>
        match replaced_prototype acc with
        | Some pv =>
            if string_eqb k (str "key") then InheritedString proto_key
            else if string_eqb k (str "value") then InheritedNumber pv
            else if inherited k then InheritedBuiltin
            else Undefined
        | None => if inherited k then InheritedBuiltin else Undefined
        end
    end.

Definition extremum_set (acc : extremum_map) (k : jsstring) (v : number)
  : extremum_map :=
  if string_eqb k proto_key
  then {| own_extrema := own_extrema acc; replaced_prototype := Some v |}
  else {| own_extrema := set_own k v (own_extrema acc);
          replaced_prototype := replaced_prototype acc |}.

(** The body of [metricList.forEach] in the Min/Max branch. *)
Definition extremum_step (aggregateMathFunction : list number -> number)
    (acc : extremum_map) (metric : AggregableEntity) : extremum_map :=
  let found := extremum_get acc (key metric) in
  if negb (member_truthy found)
  then extremum_set acc (key metric) (Number (value metric))
  else extremum_set acc (key metric)
         (aggregateMathFunction [member_value found; Number (value metric)]).

Definition unsupported (aggregateFunction : jsstring) : exn :=
  Error (str "Unsupported aggregate function: " ++ aggregateFunction).

(** [aggregateValues].  In the Average branch the arrays hold numbers, on
    which the [Number(value)] of the summation changes nothing. *)
Definition aggregateValues (valuesByRun : list (list AggregableEntity))
    (aggregateFunction : jsstring) : outcome (list AggregatedEntity) :=
  if string_eqb aggregateFunction (aggregate_token Min)
     || string_eqb aggregateFunction (aggregate_token Max)
  then
    let aggregateMathFunction :=
      if string_eqb aggregateFunction (aggregate_token Min)
      then Math_min else Math_max in
    let valuesMap :=
      fold_left
        (fun acc metricList =>
           fold_left (extremum_step aggregateMathFunction) metricList acc)
        valuesByRun
        {| own_extrema := []; replaced_prototype := None |} in
    Returns (filter (fun e => negb (isNaN (snd e)))
                    (own_entries (own_extrema valuesMap)))
  else if string_eqb aggregateFunction (aggregate_token Average)
  then
    valuesMap <-
      for_each
        (fun acc metricList =>
           for_each
             (fun acc metric => push_to acc (key metric) (Number (value metric)))
             metricList acc)
        valuesByRun [] ;;
    Returns (filter (fun e => negb (isNaN (snd e)))
               (map (fun e =>
                       let values := snd e in
                       let sum :=
                         fold_left (fun acc value => PrimFloat.add acc value)
                                   values PrimFloat.zero in
                       (fst e, PrimFloat.div sum (of_count (length values))))
                    (own_entries valuesMap)))
  else Throws (unsupported aggregateFunction).

(* ================================================================= *)
(** ** The render-metadata builder *)

(** [createGroupRenderMetadata] *)
Definition createGroupRenderMetadata (groupId : jsstring) (expanded : bool)
    (runsInGroup : list SingleRunData) (aggregateFunction : jsstring)
    (groupValue : RunGroupByValueType) (isRemainingRowsGroup : bool)
  : outcome (list RenderMetadata) :=
  let metricsByRun := map (fun run => map metric_entity (metrics run)) runsInGroup in
  let paramsByRun := map (fun run => map param_entity (params run)) runsInGroup in
  aggregatedMetrics <- aggregateValues metricsByRun aggregateFunction ;;
  aggregatedParams <- aggregateValues paramsByRun aggregateFunction ;;
  let groupHeaderMetadata :=
    {| groupId := groupId;
       expanderOpen := expanded;
       runUuids := map (fun run => run_uuid (runInfo run)) runsInGroup;
       aggregatedMetricEntities := aggregatedMetrics;
       aggregatedParamEntities := aggregatedParams;
       group_value := groupValue |} in
  let result := [GroupRow groupHeaderMetadata] in
  Returns
    (if expanded then
       result ++
       map (fun run =>
              RunRow
                {| index := 0;
                   level := 0;
                   row_runInfo := runInfo run;
                   belongsToGroup := negb isRemainingRowsGroup;
                   isPinnable :=
                     negb (truthy (tag_value (tags run) EXPERIMENT_PARENT_ID_TAG));
                   row_metrics := metrics run;
                   row_params := params run;
                   row_tags := tags run;
                   row_datasets := datasets run;
                   rowUuid := groupId ++ full_stop :: run_uuid (runInfo run) |})
           runsInGroup
     else result).

(* ================================================================= *)
(** ** The grouping engine *)

(** [isUndefined(x)] and [x === true] on a [boolean | undefined]. *)
Definition isUndefined {A} (x : option A) : bool :=
  match x with None => true | Some _ => false end.

Definition is_true (x : option bool) : bool :=
  match x with Some true => true | _ => false end.

(** The expansion flag of a concrete group and of the remaining-runs group.
    A group identifier contains a full stop, so reading it from
    [groupsExpanded] never reaches [Object.prototype]. *)
Definition concrete_group_expanded (groupsExpanded : props bool)
    (groupId : jsstring) : bool :=
  isUndefined (get_own groupId groupsExpanded)
  || is_true (get_own groupId groupsExpanded).

Definition remaining_group_expanded (groupsExpanded : props bool)
    (groupId : jsstring) : bool :=
  is_true (get_own groupId groupsExpanded).

(** The first loop of [createRunsGroupedByValue]: the buckets by value and the
    ungrouped runs.  The two value getters of this module return a string or
    [undefined]. *)
Definition bucket_run (valueGetter : SingleRunData -> option jsstring)
    (state : props (list SingleRunData) * list SingleRunData)
    (run : SingleRunData)
  : outcome (props (list SingleRunData) * list SingleRunData) :=
  let (groups, ungroupedRuns) := state in
  let valueForRun := valueGetter run in
  match valueForRun with
  | Some v =>
      if negb (string_truthy v) then Returns (groups, ungroupedRuns ++ [run])
      else groups' <- push_to groups v run ;; Returns (groups', ungroupedRuns)
  | None => Returns (groups, ungroupedRuns ++ [run])
  end.

Definition bucketsByValue (valueGetter : SingleRunData -> option jsstring)
    (runData : list SingleRunData)
  : outcome (props (list SingleRunData) * list SingleRunData) :=
  for_each (bucket_run valueGetter) runData ([], []).

(** The tail shared by the two grouping functions: the remaining-runs group,
    emitted when there is an ungrouped run. *)
Definition remaining_group (result : list RenderMetadata)
    (ungroupedRuns : list SingleRunData) (groupsExpanded : props bool)
    (aggregateFunction groupByMode groupByKey : jsstring)
  : outcome (list RenderMetadata) :=
  match ungroupedRuns with
  | [] => Returns result
  | _ :: _ =>
      let groupId := createGroupId groupByMode groupByKey None in
      let isGroupExpanded := remaining_group_expanded groupsExpanded groupId in
      rows <- createGroupRenderMetadata groupId isGroupExpanded ungroupedRuns
                aggregateFunction RUN_GROUP_REMAINING_RUNS_SYMBOL true ;;
      Returns (result ++ rows)
  end.

(** [createRunsGroupedByValue] *)
Definition createRunsGroupedByValue
    (valueGetter : SingleRunData -> option jsstring)
    (runData : list SingleRunData) (groupsExpanded : props bool)
    (aggregateFunction groupByMode groupByKey : jsstring)
  : outcome (list RenderMetadata) :=
  buckets <- bucketsByValue valueGetter runData ;;
  let (groups, ungroupedRuns) := buckets in
  let groupKeys := keys groups in
  result <-
    for_each
      (fun result tagValue =>
         let groupId := createGroupId groupByMode groupByKey (Some tagValue) in
         let isGroupExpanded := concrete_group_expanded groupsExpanded groupId in
         match get_own tagValue groups with
         | Some runsInGroup =>
             rows <- createGroupRenderMetadata groupId isGroupExpanded
                       runsInGroup aggregateFunction (GroupValue tagValue) false ;;
             Returns (result ++ rows)
         | None => Throws TypeError
         end)
      groupKeys [] ;;
  remaining_group result ungroupedRuns groupsExpanded aggregateFunction
    groupByMode groupByKey.

(** The template literal [`${dataset.name}.${dataset.digest}`]. *)
Definition dataset_identifier (d : DatasetEntity) : jsstring :=
  name d ++ full_stop :: digest d.

Record identified_dataset := {
  the_dataset : DatasetEntity;
  identifier : jsstring;
}.

(** lodash [uniqBy(array, 'identifier')]: the first element of each
    identifier, in order. *)
Fixpoint uniqBy_identifier (seen : list jsstring) (l : list identified_dataset)
  : list identified_dataset :=
  match l with
  | [] => []
  | x :: rest =>
      if includes seen (identifier x) then uniqBy_identifier seen rest
      else x :: uniqBy_identifier (identifier x :: seen) rest
  end.

(** [getUniqueDatasets]; [compact] keeps every element, each being an
    object. *)
Definition getUniqueDatasets (runData : list SingleRunData)
  : list identified_dataset :=
  let allDatasets :=
    flat_map
      (fun r =>
         map (fun d => {| the_dataset := dataset d;
                          identifier := dataset_identifier (dataset d) |})
             (datasets r))
      runData in
  uniqBy_identifier [] allDatasets.

(** lodash [keyBy(array, 'identifier')] and [mapValues]. *)
Definition keyBy_identifier (l : list identified_dataset)
  : props identified_dataset :=
  fold_left (fun o x => set_own (identifier x) x o) l [].

Definition mapValues {V W} (o : props V) (f : V -> W) : props W :=
  map (fun e => (fst e, f (snd e))) (own_entries o).

Record dataset_group := {
  group_dataset : DatasetEntity;
  runs : list SingleRunData;
}.

(** [runs.includes(run)]: the same object. *)
Definition includes_run (l : list SingleRunData) (run : SingleRunData) : bool :=
  existsb (fun r => Nat.eqb (object_id r) (object_id run)) l.

(** The first loop of [createRunsGroupedByDataset].  A dataset identifier
    contains a full stop, so reading it from [groups] never reaches
    [Object.prototype]: it is an own property or [undefined]. *)
Definition bucket_dataset (run : SingleRunData)
    (groups : props dataset_group) (datasetIdentifier : jsstring)
  : props dataset_group :=
  match get_own datasetIdentifier groups with
  | Some g =>
      if negb (includes_run (runs g) run)
      then set_own datasetIdentifier
             {| group_dataset := group_dataset g; runs := runs g ++ [run] |}
             groups
      else groups
  | None => groups
  end.

Definition bucket_run_datasets
    (state : props dataset_group * list SingleRunData) (run : SingleRunData)
  : props dataset_group * list SingleRunData :=
  let (groups, ungroupedRuns) := state in
  let runDatasetIdentifiers :=
    map (fun d => dataset_identifier (dataset d)) (datasets run) in
  let groups' := fold_left (bucket_dataset run) runDatasetIdentifiers groups in
  match runDatasetIdentifiers with
  | [] => (groups', ungroupedRuns ++ [run])
  | _ :: _ => (groups', ungroupedRuns)
  end.

Definition bucketsByDataset (runData : list SingleRunData)
  : props dataset_group * list SingleRunData :=
  let uniqueDatasets := getUniqueDatasets runData in
  let groups :=
    mapValues (keyBy_identifier uniqueDatasets)
      (fun d => {| group_dataset := the_dataset d; runs := [] |}) in
  fold_left bucket_run_datasets runData (groups, []).

(** [createRunsGroupedByDataset] *)
Definition createRunsGroupedByDataset (runData : list SingleRunData)
    (groupsExpanded : props bool) (aggregateFunction groupByKey : jsstring)
  : outcome (list RenderMetadata) :=
  let (groups, ungroupedRuns) := bucketsByDataset runData in
  let groupKeys := keys groups in
  result <-
    for_each
      (fun result datasetDigest =>
         let groupId :=
           createGroupId (mode_token Dataset) groupByKey (Some datasetDigest) in
         let isGroupExpanded := concrete_group_expanded groupsExpanded groupId in
         match get_own datasetDigest groups with
         | Some g =>
             rows <- createGroupRenderMetadata groupId isGroupExpanded (runs g)
                       aggregateFunction (GroupDataset (group_dataset g)) false ;;
             Returns (result ++ rows)
         | None => Throws TypeError
         end)
      groupKeys [] ;;
  remaining_group result ungroupedRuns groupsExpanded aggregateFunction
    (mode_token Dataset) groupByKey.

(** [getGroupedRowRenderMetadata]; the inner [None] is [null]. *)
Definition getGroupedRowRenderMetadata (groupsExpanded : props bool)
    (runData : list SingleRunData) (groupByConfig : GroupByConfig)
  : outcome (option (list RenderMetadata)) :=
  if string_eqb (mode groupByConfig) (mode_token Tag)
     || string_eqb (mode groupByConfig) (mode_token Param)
  then
    let valueGetter :=
      if string_eqb (mode groupByConfig) (mode_token Tag)
      then fun run => tag_value (tags run) (groupByData groupByConfig)
      else fun run =>
             option_map kv_value
               (find (fun param =>
                        string_eqb (kv_key param) (groupByData groupByConfig))
                     (params run)) in
    rows <- createRunsGroupedByValue valueGetter runData groupsExpanded
              (aggregateFunction groupByConfig) (mode groupByConfig)
              (groupByData groupByConfig) ;;
    Returns (Some rows)
  else if string_eqb (mode groupByConfig) (mode_token Dataset)
  then
    rows <- createRunsGroupedByDataset runData groupsExpanded
              (aggregateFunction groupByConfig) (groupByData groupByConfig) ;;
    Returns (Some rows)
  else Returns None.

End GroupRowUtils.

(* ================================================================= *)
(** ** Group parents *)

(** Modelled from the spec: [RunGroupParentInfo] of
    [experimentPage.row-types], the description of the group a row belongs
    to.  The two functions below read its [value] only, a
    [RunGroupByValueType]. *)
Record RunGroupParentInfo := {
  info_value : RunGroupByValueType;
}.

(** [isRemainingRunsGroup]: [group.value === RUN_GROUP_REMAINING_RUNS_SYMBOL]. *)
Definition isRemainingRunsGroup (group : RunGroupParentInfo) : bool :=
  match info_value group with
  | RUN_GROUP_REMAINING_RUNS_SYMBOL => true
  | _ => false
  end.

(** [getRunGroupDisplayName]; [None] is [undefined].  The only symbol among
    the group values is the one of the remaining-runs group, and the only
    objects are the datasets. *)
Definition getRunGroupDisplayName (group : option RunGroupParentInfo)
  : jsstring :=
  match group with
  | None => []
  | Some g =>
      match info_value g with
      | RUN_GROUP_REMAINING_RUNS_SYMBOL => []
      | GroupDataset d => name d
      | GroupValue v => v
      end
  end.

(* ================================================================= *)
(** ** The time-series aggregator *)

Record SyntheticMetricHistory := {
  synthetic_min : list MetricEntity;
  synthetic_max : list MetricEntity;
  synthetic_average : list MetricEntity;
}.

(** [average] *)
Definition average (values : list number) : number :=
  let sum := fold_left (fun acc value => PrimFloat.add acc value) values
                       PrimFloat.zero in
  PrimFloat.div sum (of_count (length values)).

(** The object [historyByStep], keyed by step number. *)
Definition by_step := list (number * list MetricEntity).

Fixpoint get_step (s : number) (o : by_step) : option (list MetricEntity) :=
  match o with
  | [] => None
  | (k, v) :: rest => if same_number_key s k then Some v else get_step s rest
  end.

Fixpoint set_step (s : number) (v : list MetricEntity) (o : by_step) : by_step :=
  match o with
  | [] => [(s, v)]
  | (k, v') :: rest =>
      if same_number_key s k then (k, v) :: rest
      else (k, v') :: set_step s v rest
  end.

(** The reducer that builds [historyByStep]. *)
Definition add_to_step (acc : by_step) (metricEntry : MetricEntity) : by_step :=
  let acc1 :=
    if isUndefined (get_step (step metricEntry) acc)
    then set_step (step metricEntry) [] acc
    else acc in
  match get_step (step metricEntry) acc1 with
  | Some entries => set_step (step metricEntry) (entries ++ [metricEntry]) acc1
  | None => acc1
  end.

(** [array.map((x, i) => ...)] *)
Fixpoint map_indexed {A B} (f : A -> nat -> B) (i : nat) (l : list A) : list B :=
  match l with
  | [] => []
  | x :: rest => f x i :: map_indexed f (S i) rest
  end.

(** [createAggregatedMetricHistory].  [averageTimestampsPerStep[stepIndex]] is
    read at the index of a step, which is always in range; the default of
    [nth] is never used. *)
Definition createAggregatedMetricHistory (stepNumbers : list number)
    (metricKey : jsstring) (history : list MetricEntity)
  : SyntheticMetricHistory :=
  let historyByStep := fold_left add_to_step history [] in
  let valuesAt step :=
    compact (option_map (map metric_value) (get_step step historyByStep)) in
  let averageTimestampsPerStep :=
    map (fun step =>
           Math_round
             (average
                (compact (option_map (map timestamp)
                                     (get_step step historyByStep)))))
        stepNumbers in
  let point aggregated step stepIndex :=
    {| metric_key := metricKey;
       step := step;
       metric_value := aggregated (valuesAt step);
       timestamp := nth stepIndex averageTimestampsPerStep PrimFloat.nan |} in
  let syntheticHistoryMaxValues := map_indexed (point Math_max) 0 stepNumbers in
  let syntheticHistoryMinValues := map_indexed (point Math_min) 0 stepNumbers in
  let syntheticHistoryAverageValues := map_indexed (point average) 0 stepNumbers in
  {| synthetic_min := syntheticHistoryMinValues;
     synthetic_max := syntheticHistoryMaxValues;
     synthetic_average := syntheticHistoryAverageValues |}.

(* ================================================================= *)
(** * The vocabulary of the properties *)

Unset Implicit Arguments.

(** ** Orders, collections and aggregates *)

(** The names of a list in the order of their first occurrence. *)
Definition first_seen (names : list jsstring) : list jsstring :=
  fold_left (fun seen k => if includes seen k then seen else seen ++ [k])
            names [].

(** The enumeration order on the names alone. *)
Fixpoint insert_key (k : jsstring) (l : list jsstring) : list jsstring :=
  match l with
  | [] => [k]
  | k' :: rest =>
      if (index_of k <=? index_of k')%N then k :: l
      else k' :: insert_key k rest
  end.

Fixpoint sort_keys (l : list jsstring) : list jsstring :=
  match l with
  | [] => []
  | k :: rest => insert_key k (sort_keys rest)
  end.

(** [key_order names]: the array indices among [names] in ascending numeric
    order, then the other names in the order of [names]. *)
Definition key_order (names : list jsstring) : list jsstring :=
  sort_keys (filter is_array_index names)
  ++ filter (fun k => negb (is_array_index k)) names.

(** The values pushed under the name [k]: those of the elements whose name,
    by [kf], is [k], in order. *)
Definition members {A B : Type} (kf : A -> jsstring) (vf : A -> B)
    (k : jsstring) (l : list A) : list B :=
  map vf (filter (fun x => string_eqb (kf x) k) l).

(** The object a loop of [push_to] builds from [{}]: the names in the order of
    first occurrence, each with its values. *)
Definition collected {A B : Type} (kf : A -> jsstring) (vf : A -> B)
    (l : list A) : props (list B) :=
  map (fun k => (k, members kf vf k l)) (first_seen (map kf l)).

(** Every name but [__proto__]. *)
Definition not_proto (k : jsstring) : bool := negb (string_eqb k proto_key).

(** The filter of the aggregated entities: [!isNaN(value)]. *)
Definition not_NaN (e : AggregatedEntity) : bool := negb (isNaN (snd e)).

(** The coerced values logged under [k], in order. *)
Definition same_key_values (StringToNumber : jsstring -> number)
    (k : jsstring) (l : list AggregableEntity) : list number :=
  members key (fun e => Number StringToNumber (value e)) k l.

(** The aggregate a function stands for: the variadic [Math.min] or
    [Math.max] of the values, or their sum divided by their count. *)
Definition aggregate_of (f : RunGroupingAggregateFunction)
  : list number -> number :=
  match f with
  | Min => Math_min
  | Max => Math_max
  | Average => average
  end.

(** An entity value that is a number already. *)
Definition is_number (v : string_or_number) : bool :=
  match v with SNumber _ => true | SString _ => false end.

(** The history entries logged at step [s], in order. *)
Definition entries_at (s : number) (history : list MetricEntity)
  : list MetricEntity :=
  filter (fun e => same_number_key s (step e)) history.

(** The numbers that take part in an aggregate at step [s]: the field [f] of
    the entries at that step, without the falsy ones. *)
Definition contributing (f : MetricEntity -> number) (s : number)
    (history : list MetricEntity) : list number :=
  filter number_truthy (map f (entries_at s history)).

(** A point of a synthetic series, computed from the history directly. *)
Definition synthetic_point (aggregated : list number -> number)
    (metricKey : jsstring) (history : list MetricEntity) (s : number)
  : MetricEntity :=
  {| metric_key := metricKey;
     step := s;
     metric_value := aggregated (contributing metric_value s history);
     timestamp := Math_round (average (contributing timestamp s history)) |}.

(** The row of a run in the group [groupId]. *)
Definition run_row (groupId : jsstring) (isRemainingRowsGroup : bool)
    (run : SingleRunData) : RowRenderMetadata :=
  {| index := 0;
     level := 0;
     row_runInfo := runInfo run;
     belongsToGroup := negb isRemainingRowsGroup;
     isPinnable := negb (truthy (tag_value (tags run) EXPERIMENT_PARENT_ID_TAG));
     row_metrics := metrics run;
     row_params := params run;
     row_tags := tags run;
     row_datasets := datasets run;
     rowUuid := groupId ++ full_stop :: run_uuid (runInfo run) |}.

(** The dataset identifiers a run refers to. *)
Definition identifiers (run : SingleRunData) : list jsstring :=
  map (fun d => dataset_identifier (dataset d)) (datasets run).

(** A dataset reference with its identifier. *)
Definition identified (d : RunDatasetWithTags) : identified_dataset :=
  {| the_dataset := dataset d;
     identifier := dataset_identifier (dataset d) |}.

(** [!runDatasetIdentifiers.length] *)
Definition no_datasets (run : SingleRunData) : bool :=
  match datasets run with [] => true | _ :: _ => false end.

(** The buckets before the loop over the runs: one per distinct identifier,
    in the order of first occurrence, each with the first dataset of that
    identifier and no run. *)
Definition initial_groups (runData : list SingleRunData) : props dataset_group :=
  map (fun x => (identifier x,
                 {| group_dataset := the_dataset x; runs := [] |}))
      (getUniqueDatasets runData).

(** One run put into the buckets of its identifiers. *)
Definition with_run (run : SingleRunData) (ids : list jsstring)
    (k : jsstring) (g : dataset_group) : dataset_group :=
  {| group_dataset := group_dataset g;
     runs := runs g ++ (if includes ids k && negb (includes_run (runs g) run)
                        then [run] else []) |}.

(** What a bucket holds after the runs [seen]: no object twice, only runs
    that refer to its identifier, and each such run. *)
Definition bucket_ok (seen : list SingleRunData) (k : jsstring)
    (g : dataset_group) : Prop :=
  NoDup (map object_id (runs g))
  /\ (forall r, In r (runs g) -> In r seen /\ In k (identifiers r))
  /\ (forall r, In r seen -> In k (identifiers r) ->
        In (object_id r) (map object_id (runs g))).

(** The value a run is grouped under, when it has one. *)
Definition grouping_value (valueGetter : SingleRunData -> option jsstring)
    (run : SingleRunData) : jsstring :=
  match valueGetter run with Some v => v | None => [] end.

Definition has_value (valueGetter : SingleRunData -> option jsstring)
    (run : SingleRunData) : bool :=
  truthy (valueGetter run).

(** ** The records of a pass *)

(** The group headers and the run rows of a rendered list, in order. *)
Definition headers (rows : list RenderMetadata) : list RowGroupRenderMetadata :=
  flat_map (fun r => match r with GroupRow g => [g] | RunRow _ => [] end) rows.

Definition run_rows (rows : list RenderMetadata) : list RowRenderMetadata :=
  flat_map (fun r => match r with GroupRow _ => [] | RunRow r => [r] end) rows.

Definition uuid (run : SingleRunData) : jsstring := run_uuid (runInfo run).

(** What a header says of its group, the aggregates apart: the identifier,
    the value and the runs. *)
Definition header_summary (h : RowGroupRenderMetadata)
  : jsstring * RunGroupByValueType * list jsstring :=
  (groupId h, group_value h, runUuids h).


(** The summary of the header of the remaining-runs group, which is there
    when a run is ungrouped, and its rows. *)
Definition remaining_summary (groupByMode groupByKey : jsstring)
    (ungroupedRuns : list SingleRunData)
  : list (jsstring * RunGroupByValueType * list jsstring) :=
  match ungroupedRuns with
  | [] => []
  | _ :: _ => [(createGroupId groupByMode groupByKey None,
                RUN_GROUP_REMAINING_RUNS_SYMBOL, map uuid ungroupedRuns)]
  end.

Definition remaining_rows (groupsExpanded : props bool)
    (groupByMode groupByKey : jsstring) (ungroupedRuns : list SingleRunData)
  : list RowRenderMetadata :=
  if remaining_group_expanded groupsExpanded
       (createGroupId groupByMode groupByKey None)
  then map (run_row (createGroupId groupByMode groupByKey None) true)
           ungroupedRuns
  else [].

(** The rows of a concrete group. *)
Definition group_rows (groupsExpanded : props bool) (groupId : jsstring)
    (runsInGroup : list SingleRunData) : list RowRenderMetadata :=
  if concrete_group_expanded groupsExpanded groupId
  then map (run_row groupId false) runsInGroup
  else [].

(** The groups of a pass, each an identifier, whether it is expanded, and
    its runs: the concrete ones, then the remaining-runs group. *)
Definition pass_groups {G : Type} (groupsExpanded : props bool)
    (groupByMode groupByKey : jsstring) (rs : G -> list SingleRunData)
    (entries : props G) (ungroupedRuns : list SingleRunData)
  : list (jsstring * bool * list SingleRunData) :=
  map (fun e => (createGroupId groupByMode groupByKey (Some (fst e)),
                 concrete_group_expanded groupsExpanded
                   (createGroupId groupByMode groupByKey (Some (fst e))),
                 rs (snd e)))
      entries
  ++ match ungroupedRuns with
     | [] => []
     | _ :: _ => [(createGroupId groupByMode groupByKey None,
                   remaining_group_expanded groupsExpanded
                     (createGroupId groupByMode groupByKey None),
                   ungroupedRuns)]
     end.

(** The row identifiers such groups give: [`${groupId}.${run_uuid}`] for each
    run of each expanded group. *)
Definition row_identifiers
    (groups : list (jsstring * bool * list SingleRunData)) : list jsstring :=
  flat_map (fun c : jsstring * bool * list SingleRunData =>
              if snd (fst c)
              then map (fun run => fst (fst c) ++ full_stop :: uuid run) (snd c)
              else [])
           groups.

(** ** The data of the worked examples *)

Definition history_entry (s v t : number) : MetricEntity :=
  {| metric_key := str "loss"; metric_value := v; step := s; timestamp := t |}.

Arguments history_entry (s v t)%_float_scope.

(** The history of the worked example: two entries at step 1. *)
Definition loss_history : list MetricEntity :=
  [ history_entry 1 1 100; history_entry 1 3 200 ]%float.

(** A numeric entity of the worked examples. *)
Definition entity (k : string) (x : number) : AggregableEntity :=
  {| key := str k; value := SNumber x |}.

Arguments entity k%_string x%_float_scope.

(** An instance of the string conversion for the worked examples.  Their
    entities carry numbers, on which [Number] converts nothing
    ([aggregateValues_numbers_only]), so the instance plays no part. *)
Definition StringToNumber_unused : jsstring -> number := fun _ => PrimFloat.nan.

(** The entities of the ordering example: keys [b], [2], [1], [a]. *)
Definition mixed_keys : list (list AggregableEntity) :=
  [[entity "b" 2; entity "2" 1]; [entity "1" 4; entity "a" 4]].

Local Open Scope string_scope.
Local Open Scope list_scope.

(** A run with the given identity, uuid, tags, datasets (name, digest) and
    metrics, and no parameters. *)
Definition example_run (id : nat) (uuid : string)
    (tag_pairs dataset_pairs : list (string * string))
    (metric_pairs : list (string * number)) : SingleRunData :=
  {| object_id := id;
     runInfo := {| run_uuid := str uuid |};
     params := [];
     metrics :=
       map (fun m => {| metric_key := str (fst m); metric_value := snd m;
                        step := PrimFloat.zero; timestamp := PrimFloat.zero |})
           metric_pairs;
     tags :=
       map (fun t => (str (fst t),
                      {| kv_key := str (fst t); kv_value := str (snd t) |}))
           tag_pairs;
     datasets :=
       map (fun d => {| dataset := {| name := str (fst d);
                                      digest := str (snd d) |} |})
           dataset_pairs |}.

(** A run that refers to the dataset (train, d1) twice and to (eval, d2), and
    a run without datasets. *)
Definition run_with_datasets : SingleRunData :=
  example_run 1 "a" [("env", "prod")]
    [("train", "d1"); ("train", "d1"); ("eval", "d2")]
    [("loss", 1%float)].

Definition run_without_datasets : SingleRunData :=
  example_run 2 "b" [] [] [("loss", 3%float)].

(** A run whose tag [env] has the value [constructor]. *)
Definition run_tagged_constructor : SingleRunData :=
  example_run 3 "c" [("env", "constructor")] [] [("loss", 2%float)].

Definition group_by_env : GroupByConfig :=
  {| mode := mode_token Tag;
     aggregateFunction := aggregate_token Min;
     groupByData := str "env" |}.


(** The two runs of the worked passes, and a grouping by dataset. *)
Definition example_runs : list SingleRunData :=
  [run_with_datasets; run_without_datasets].

Definition group_by_dataset : GroupByConfig :=
  {| mode := mode_token Dataset;
     aggregateFunction := aggregate_token Max;
     groupByData := str "dataset" |}.

Definition rows_of (c : outcome (option (list RenderMetadata)))
  : list RenderMetadata :=
  match c with Returns (Some rows) => rows | _ => [] end.

(** The records of the two passes over these runs, by the tag [env] and by
    dataset, with an empty state map; and the header of the group [prod]. *)
Definition example_tag_rows : list RenderMetadata :=
  Eval vm_compute in
    rows_of (getGroupedRowRenderMetadata StringToNumber_unused [] example_runs
               group_by_env).

Definition example_dataset_rows : list RenderMetadata :=
  Eval vm_compute in
    rows_of (getGroupedRowRenderMetadata StringToNumber_unused [] example_runs
               group_by_dataset).

Definition example_header : RowGroupRenderMetadata :=
  Eval vm_compute in
    match headers example_tag_rows with
    | h :: _ => h
    | [] => {| groupId := []; expanderOpen := false; runUuids := [];
               aggregatedMetricEntities := []; aggregatedParamEntities := [];
               group_value := RUN_GROUP_REMAINING_RUNS_SYMBOL |}
    end.

(** The value getter of a grouping by the tag [env]. *)
Definition env_tag (run : SingleRunData) : option jsstring :=
  tag_value (tags run) (str "env").

(* ================================================================= *)
(** * Properties *)

(** ** Strings *)

Lemma string_eqb_spec (a b : jsstring) : reflect (a = b) (string_eqb a b).
Proof.
  revert b; induction a as [|x a IH]; intros [|y b]; simpl;
    try (constructor; congruence).
  destruct (N.eqb_spec x y) as [->|Hxy]; simpl.
  - destruct (IH b) as [->|Hab]; constructor; congruence.
  - constructor; congruence.
Qed.

Lemma string_eqb_refl (a : jsstring) : string_eqb a a = true.
Proof. destruct (string_eqb_spec a a); congruence. Qed.

Lemma string_eqb_eq (a b : jsstring) : string_eqb a b = true <-> a = b.
Proof. destruct (string_eqb_spec a b); split; congruence. Qed.

Lemma string_eqb_neq (a b : jsstring) : string_eqb a b = false <-> a <> b.
Proof. destruct (string_eqb_spec a b); split; congruence. Qed.

Lemma string_eqb_sym (a b : jsstring) : string_eqb a b = string_eqb b a.
Proof.
  destruct (string_eqb_spec a b), (string_eqb_spec b a); congruence.
Qed.

Lemma includes_In (l : list jsstring) (x : jsstring) :
  includes l x = true <-> In x l.
Proof.
  unfold includes. rewrite existsb_exists. split.
  - intros (y & Hy & E). apply string_eqb_eq in E. now subst.
  - intros H. exists x. split; auto using string_eqb_refl.
Qed.

Lemma includes_not_In (l : list jsstring) (x : jsstring) :
  includes l x = false <-> ~ In x l.
Proof.
  rewrite <- includes_In. destruct (includes l x); split; congruence.
Qed.

(** A string with a full stop in it is not the name of a member of
    [Object.prototype], nor an array index. *)
Lemma full_stop_not_inherited (a b : jsstring) :
  inherited (a ++ full_stop :: b) = false.
Proof.
  apply includes_not_In. intros H.
  assert (Hno : forallb (fun n => negb (existsb (N.eqb full_stop) n))
                        Object_prototype_names = true) by reflexivity.
  rewrite forallb_forall in Hno. specialize (Hno _ H).
  apply negb_true_iff in Hno.
  assert (Hin : existsb (N.eqb full_stop) (a ++ full_stop :: b) = true).
  { apply existsb_exists. exists full_stop. split; [|reflexivity].
    apply in_or_app. right. now left. }
  congruence.
Qed.

Lemma decimal_digits (s : jsstring) (acc n : N) :
  decimal acc s = Some n -> forallb (fun c => negb (N.eqb c full_stop)) s = true.
Proof.
  revert acc; induction s as [|c s IH]; intros acc H; simpl in *; auto.
  unfold digit in H.
  destruct ((48 <=? c)%N && (c <=? 57)%N) eqn:Hc; [|discriminate].
  apply andb_true_iff in Hc as [H1 H2].
  apply N.leb_le in H1. apply andb_true_iff. split; eauto.
  apply negb_true_iff, N.eqb_neq. unfold full_stop. lia.
Qed.

Lemma full_stop_not_array_index (a b : jsstring) :
  is_array_index (a ++ full_stop :: b) = false.
Proof.
  unfold is_array_index, array_index.
  destruct (a ++ full_stop :: b) as [|c rest] eqn:E; auto.
  destruct ((c =? 48)%N && string_truthy rest); auto.
  destruct (decimal 0 (c :: rest)) as [n|] eqn:D; auto.
  apply decimal_digits in D. rewrite <- E in D.
  rewrite forallb_app in D. apply andb_true_iff in D as [_ D].
  simpl in D. discriminate.
Qed.

(** ** Numbers *)

Lemma SFcompare_refl (a : spec_float) :
  a <> S754_nan -> SFcompare a a = Some Eq.
Proof.
  destruct a as [s|s| |s m e]; simpl; intros H; try congruence.
  - now destruct s.
  - rewrite Z.compare_refl, Pos.compare_cont_refl. now destruct s.
Qed.

Lemma is_nan_Prim2SF (x : number) :
  PrimFloat.is_nan x = true <-> Prim2SF x = S754_nan.
Proof.
  unfold PrimFloat.is_nan. rewrite FloatAxioms.eqb_spec. unfold SFeqb.
  split.
  - intros H. destruct (Prim2SF x) eqn:E; auto;
      rewrite SFcompare_refl in H by congruence; discriminate.
  - intros ->. reflexivity.
Qed.

(** There is one NaN. *)
Lemma nan_unique (x : number) : PrimFloat.is_nan x = true -> x = PrimFloat.nan.
Proof.
  intros H. apply is_nan_Prim2SF in H. apply Prim2SF_inj. rewrite H.
  reflexivity.
Qed.

Lemma not_lt_infinity (x : number) :
  PrimFloat.is_nan x = false ->
  PrimFloat.ltb x PrimFloat.infinity = false ->
  x = PrimFloat.infinity.
Proof.
  intros Hn Hlt. apply Prim2SF_inj.
  assert (Hx : Prim2SF x <> S754_nan).
  { intros E. apply is_nan_Prim2SF in E. congruence. }
  rewrite FloatAxioms.ltb_spec in Hlt.
  change (Prim2SF PrimFloat.infinity) with (S754_infinity false) in *.
  unfold SFltb in Hlt.
  destruct (Prim2SF x) as [s|s| |s m e]; simpl in Hlt; try congruence;
    destruct s; simpl in Hlt; congruence.
Qed.

Lemma not_gt_neg_infinity (x : number) :
  PrimFloat.is_nan x = false ->
  PrimFloat.ltb PrimFloat.neg_infinity x = false ->
  x = PrimFloat.neg_infinity.
Proof.
  intros Hn Hlt. apply Prim2SF_inj.
  assert (Hx : Prim2SF x <> S754_nan).
  { intros E. apply is_nan_Prim2SF in E. congruence. }
  rewrite FloatAxioms.ltb_spec in Hlt.
  change (Prim2SF PrimFloat.neg_infinity) with (S754_infinity true) in *.
  unfold SFltb in Hlt.
  destruct (Prim2SF x) as [s|s| |s m e]; simpl in Hlt; try congruence;
    destruct s; simpl in Hlt; congruence.
Qed.

Lemma min_step_infinity (m : number) :
  PrimFloat.is_nan m = false -> min_step PrimFloat.infinity m = m.
Proof.
  intros Hn. unfold min_step.
  change (is_pos_zero PrimFloat.infinity) with false. rewrite andb_false_r.
  destruct (PrimFloat.ltb m PrimFloat.infinity) eqn:E; auto.
  symmetry. now apply not_lt_infinity.
Qed.

Lemma max_step_neg_infinity (m : number) :
  PrimFloat.is_nan m = false -> max_step PrimFloat.neg_infinity m = m.
Proof.
  intros Hn. unfold max_step.
  change (is_neg_zero PrimFloat.neg_infinity) with false. rewrite andb_false_r.
  destruct (PrimFloat.ltb PrimFloat.neg_infinity m) eqn:E; auto.
  symmetry. now apply not_gt_neg_infinity.
Qed.

Lemma same_number_key_eq (x y : number) :
  same_number_key x y = true <-> number_key x = number_key y.
Proof. unfold same_number_key. apply FloatAxioms.Leibniz.eqb_spec. Qed.

Lemma same_number_key_refl (x : number) : same_number_key x x = true.
Proof. now apply same_number_key_eq. Qed.

Lemma same_number_key_sym (x y : number) :
  same_number_key x y = same_number_key y x.
Proof.
  destruct (same_number_key x y) eqn:E1, (same_number_key y x) eqn:E2; auto.
  - apply same_number_key_eq in E1. symmetry in E1.
    apply same_number_key_eq in E1. congruence.
  - apply same_number_key_eq in E2. symmetry in E2.
    apply same_number_key_eq in E2. congruence.
Qed.

Lemma same_number_key_trans (x y z : number) :
  same_number_key x y = true -> same_number_key y z = true ->
  same_number_key x z = true.
Proof.
  rewrite !same_number_key_eq. congruence.
Qed.

(** ** The grouping-key codec *)

(** A greedy [p+] in front of text that cannot extend it takes the whole run,
    when the rest of the pattern then succeeds. *)
Lemma re_plus_greedy {R} (p : N -> bool) (w rest : jsstring)
    (k : jsstring -> jsstring -> option R) (r : R) :
  w <> [] ->
  forallb p w = true ->
  match rest with [] => true | c :: _ => negb (p c) end = true ->
  k w rest = Some r ->
  re_plus p (w ++ rest) k = Some r.
Proof.
  revert k; induction w as [|c w IH]; intros k Hne Hall Hstop Hk.
  - congruence.
  - simpl in Hall; apply andb_true_iff in Hall as [Hc Hw].
    simpl; rewrite Hc.
    destruct w as [|c' w'].
    + simpl. destruct rest as [|d rest']; simpl.
      * exact Hk.
      * apply negb_true_iff in Hstop; rewrite Hstop; exact Hk.
    + rewrite (IH (fun cap rest0 => k (c :: cap) rest0)); auto; congruence.
Qed.

(** On a key built from enum members, the pattern matches at the start and
    captures the mode, the aggregate function and the grouping data up to its
    first line terminator. *)
Lemma groupByKey_pattern_tokens (m : RunGroupingMode)
    (f : RunGroupingAggregateFunction) (d tail : jsstring) :
  d <> [] ->
  forallb is_dot d = true ->
  match tail with [] => true | c :: _ => is_line_terminator c end = true ->
  groupByKey_pattern_here
    (mode_token m ++ full_stop :: aggregate_token f ++ full_stop :: d ++ tail)
  = Some (mode_token m, aggregate_token f, d).
Proof.
  intros Hne Hd Htail.
  unfold groupByKey_pattern_here.
  apply re_plus_greedy; [destruct m; discriminate | destruct m; reflexivity
                        | reflexivity | ].
  cbn [re_char]. change (is_full_stop full_stop) with true. cbv iota.
  apply re_plus_greedy; [destruct f; discriminate | destruct f; reflexivity
                        | reflexivity | ].
  cbn [re_char]. change (is_full_stop full_stop) with true. cbv iota.
  apply re_plus_greedy; auto.
  destruct tail; auto. unfold is_dot. now rewrite negb_involutive.
Qed.

Lemma parse_create_prefix (m : RunGroupingMode)
    (f : RunGroupingAggregateFunction) (d tail : jsstring) :
  d <> [] ->
  forallb is_dot d = true ->
  match tail with [] => true | c :: _ => is_line_terminator c end = true ->
  parseRunsGroupByKey
    (Some (createRunsGroupByKey (Some (mode_token m)) (d ++ tail)
                                (aggregate_token f)))
  = Some {| mode := mode_token m;
            aggregateFunction := aggregate_token f;
            groupByData := d |}.
Proof.
  intros Hne Hd Htail.
  unfold createRunsGroupByKey.
  replace (string_truthy (mode_token m)) with true by now destruct m.
  cbn [join_dot].
  unfold parseRunsGroupByKey.
  replace (string_truthy _) with true by now destruct m.
  cbn [negb].
  assert (Hm : groupByKey_match
                 (mode_token m ++ full_stop :: aggregate_token f
                    ++ full_stop :: d ++ tail)
               = Some (mode_token m, aggregate_token f, d)).
  { destruct (mode_token m ++ full_stop :: aggregate_token f
                ++ full_stop :: d ++ tail) eqn:E;
      cbn [groupByKey_match]; rewrite <- E;
      now rewrite groupByKey_pattern_tokens. }
  rewrite Hm.
  replace (includes RunGroupingMode_values (mode_token m)) with true
    by now destruct m.
  replace (includes RunGroupingAggregateFunction_values (aggregate_token f))
    with true by now destruct f.
  reflexivity.
Qed.

(** C1 (as amended): for every mode in Tag, Param, Dataset, every aggregate
    function in Min, Max, Average, and every grouping-data string that is not
    empty and holds no line terminator (LF, CR, U+2028, U+2029) -- full stops
    are allowed -- parsing the key that [createRunsGroupByKey] builds returns
    exactly the mode, the aggregate function and the grouping data. *)
Theorem parse_create_round_trip (m : RunGroupingMode)
    (f : RunGroupingAggregateFunction) (d : jsstring) :
  d <> [] ->
  (forall c, In c d -> is_line_terminator c = false) ->
  parseRunsGroupByKey
    (Some (createRunsGroupByKey (Some (mode_token m)) d (aggregate_token f)))
  = Some {| mode := mode_token m;
            aggregateFunction := aggregate_token f;
            groupByData := d |}.
Proof.
  intros Hne Hlt.
  rewrite <- (app_nil_r d) at 1.
  apply parse_create_prefix; auto.
  apply forallb_forall. intros c Hc. unfold is_dot. now rewrite Hlt.
Qed.

Lemma parse_create_round_trip_witness :
  parseRunsGroupByKey
    (Some (createRunsGroupByKey (Some (mode_token Tag)) (str "model.version")
                                (aggregate_token Average)))
  = Some {| mode := mode_token Tag;
            aggregateFunction := aggregate_token Average;
            groupByData := str "model.version" |}.
Proof.
  apply (parse_create_round_trip Tag Average (str "model.version")).
  - discriminate.
  - intros c Hc. simpl in Hc.
    repeat (destruct Hc as [<-|Hc]; [reflexivity|]). contradiction.
Defined.

(** C1, as stated, fails on the empty grouping data: the key ends in a full
    stop, the last group of the pattern needs a character, and the parse gives
    [null]. *)
Lemma parse_create_empty_groupByData :
  parseRunsGroupByKey
    (Some (createRunsGroupByKey (Some (mode_token Dataset)) []
                                (aggregate_token Average)))
  <> Some {| mode := mode_token Dataset;
             aggregateFunction := aggregate_token Average;
             groupByData := [] |}.
Proof. vm_compute. discriminate. Qed.

(** A line terminator cuts the grouping data short. *)
Example parse_create_line_feed :
  parseRunsGroupByKey
    (Some (createRunsGroupByKey (Some (mode_token Tag))
                                (str "a" ++ 10%N :: str "b")
                                (aggregate_token Min)))
  = Some {| mode := mode_token Tag;
            aggregateFunction := aggregate_token Min;
            groupByData := str "a" |}.
Proof. reflexivity. Qed.

(* ================================================================= *)
(** ** The time-series aggregator *)

Section TimeSeries.

Lemma get_step_same_key (s s' : number) (o : by_step) :
  same_number_key s s' = true -> get_step s o = get_step s' o.
Proof.
  intros H. induction o as [|[k v] o IH]; simpl; auto.
  rewrite IH.
  destruct (same_number_key s k) eqn:E1, (same_number_key s' k) eqn:E2; auto.
  - rewrite same_number_key_sym in H.
    rewrite (same_number_key_trans _ _ _ H E1) in E2. discriminate.
  - rewrite (same_number_key_trans _ _ _ H E2) in E1. discriminate.
Qed.

Lemma get_set_step_same (s k : number) (v : list MetricEntity) (o : by_step) :
  same_number_key s k = true -> get_step s (set_step k v o) = Some v.
Proof.
  intros H. induction o as [|[k' v'] o IH]; simpl.
  - now rewrite H.
  - destruct (same_number_key k k') eqn:E; simpl.
    + now rewrite (same_number_key_trans _ _ _ H E).
    + destruct (same_number_key s k') eqn:E'; auto.
      rewrite same_number_key_sym in H.
      rewrite (same_number_key_trans _ _ _ H E') in E. discriminate.
Qed.

Lemma get_set_step_other (s k : number) (v : list MetricEntity) (o : by_step) :
  same_number_key s k = false -> get_step s (set_step k v o) = get_step s o.
Proof.
  intros H. induction o as [|[k' v'] o IH]; simpl.
  - now rewrite H.
  - destruct (same_number_key k k') eqn:E; simpl.
    + destruct (same_number_key s k') eqn:E'; auto.
      rewrite same_number_key_sym in E.
      rewrite (same_number_key_trans _ _ _ E' E) in H. discriminate.
    + now rewrite IH.
Qed.

Lemma add_to_step_same (s : number) (acc : by_step) (e : MetricEntity) :
  same_number_key s (step e) = true ->
  get_step s (add_to_step acc e)
  = Some (match get_step s acc with Some l => l ++ [e] | None => [e] end).
Proof.
  intros H. unfold add_to_step.
  rewrite <- (get_step_same_key _ _ acc H).
  destruct (get_step s acc) as [l|] eqn:E; simpl.
  - rewrite <- (get_step_same_key _ _ acc H), E.
    now apply get_set_step_same.
  - rewrite (get_set_step_same _ _ _ _ (same_number_key_refl (step e))).
    now apply get_set_step_same.
Qed.

Lemma add_to_step_other (s : number) (acc : by_step) (e : MetricEntity) :
  same_number_key s (step e) = false ->
  get_step s (add_to_step acc e) = get_step s acc.
Proof.
  intros H. unfold add_to_step.
  destruct (get_step (step e) acc) as [l|] eqn:E; simpl.
  - rewrite E. now apply get_set_step_other.
  - rewrite (get_set_step_same _ _ _ _ (same_number_key_refl (step e))).
    now rewrite !get_set_step_other.
Qed.

(** What [historyByStep[s]] holds after the reduction. *)
Lemma historyByStep_get (s : number) (history : list MetricEntity)
    (acc : by_step) :
  get_step s (fold_left add_to_step history acc)
  = match get_step s acc, entries_at s history with
    | None, [] => None
    | None, l => Some l
    | Some l0, l => Some (l0 ++ l)
    end.
Proof.
  revert acc; induction history as [|e h IH]; intros acc; simpl.
  - destruct (get_step s acc); auto. now rewrite app_nil_r.
  - rewrite IH. destruct (same_number_key s (step e)) eqn:E.
    + rewrite (add_to_step_same _ acc _ E).
      destruct (get_step s acc) as [l0|]; simpl.
      * now rewrite <- app_assoc.
      * reflexivity.
    + now rewrite (add_to_step_other _ acc _ E).
Qed.

Lemma compact_historyByStep (f : MetricEntity -> number) (s : number)
    (history : list MetricEntity) :
  compact (option_map (map f) (get_step s (fold_left add_to_step history [])))
  = contributing f s history.
Proof.
  rewrite historyByStep_get. unfold contributing. simpl.
  now destruct (entries_at s history).
Qed.

Lemma map_indexed_nth {A B C} (F : A -> C -> B) (g : A -> C) (d : C)
    (pre l : list A) :
  map_indexed (fun x i => F x (nth i (map g (pre ++ l)) d)) (length pre) l
  = map (fun x => F x (g x)) l.
Proof.
  revert pre; induction l as [|x l IH]; intros pre; simpl; auto.
  f_equal.
  - f_equal. rewrite map_app, app_nth2; rewrite length_map; auto.
    now rewrite Nat.sub_diag.
  - specialize (IH (pre ++ [x])). rewrite <- app_assoc in IH. simpl in IH.
    rewrite length_app in IH. simpl in IH. rewrite Nat.add_1_r in IH.
    exact IH.
Qed.

Lemma series_points (aggregated : list number -> number)
    (metricKey : jsstring) (stepNumbers : list number)
    (valuesAt : number -> list number) (ts : number -> number) :
  map_indexed
    (fun s i => {| metric_key := metricKey;
                   step := s;
                   metric_value := aggregated (valuesAt s);
                   timestamp := nth i (map ts stepNumbers) PrimFloat.nan |})
    0 stepNumbers
  = map (fun s => {| metric_key := metricKey;
                     step := s;
                     metric_value := aggregated (valuesAt s);
                     timestamp := ts s |})
        stepNumbers.
Proof.
  exact (map_indexed_nth
           (fun s t => {| metric_key := metricKey; step := s;
                          metric_value := aggregated (valuesAt s);
                          timestamp := t |})
           ts PrimFloat.nan [] stepNumbers).
Qed.

Lemma createAggregatedMetricHistory_points (stepNumbers : list number)
    (metricKey : jsstring) (history : list MetricEntity) :
  createAggregatedMetricHistory stepNumbers metricKey history
  = {| synthetic_min :=
         map (synthetic_point Math_min metricKey history) stepNumbers;
       synthetic_max :=
         map (synthetic_point Math_max metricKey history) stepNumbers;
       synthetic_average :=
         map (synthetic_point average metricKey history) stepNumbers |}.
Proof.
  unfold createAggregatedMetricHistory, synthetic_point. cbv zeta.
  f_equal.
  all: etransitivity; [apply series_points|].
  all: apply map_ext; intros s; now rewrite !compact_historyByStep.
Qed.

Lemma entries_at_none (s : number) (history : list MetricEntity) :
  (forall e, In e history -> same_number_key s (step e) = false) ->
  entries_at s history = [].
Proof.
  intros H. unfold entries_at. induction history as [|e h IH]; simpl; auto.
  rewrite (H e) by now left. apply IH. intros e' He'. apply H. now right.
Qed.

(** C2 (as amended): at a requested step for which the history has no entry,
    the average series carries NaN, the min series carries [+Infinity] and the
    max series carries [-Infinity], each with a NaN timestamp; and for step
    numbers [1, 2], key "loss" and the entries (step 1, value 1, timestamp
    100) and (step 1, value 3, timestamp 200), the step-1 point has Min 1,
    Max 3, Average 2 and timestamp 150 in every variant. *)
Theorem aggregated_history_step_without_entries
    (stepNumbers : list number) (metricKey : jsstring)
    (history : list MetricEntity) (i : nat) (s : number) :
  nth_error stepNumbers i = Some s ->
  (forall e, In e history -> same_number_key s (step e) = false) ->
  let point v := {| metric_key := metricKey; metric_value := v; step := s;
                    timestamp := PrimFloat.nan |} in
  let synthetic := createAggregatedMetricHistory stepNumbers metricKey history in
  (nth_error (synthetic_min synthetic) i = Some (point PrimFloat.infinity)
   /\ nth_error (synthetic_max synthetic) i = Some (point PrimFloat.neg_infinity)
   /\ nth_error (synthetic_average synthetic) i = Some (point PrimFloat.nan))
  /\ createAggregatedMetricHistory [1; 2]%float (str "loss") loss_history
     = {| synthetic_min :=
            [ history_entry 1 1 150;
              history_entry 2 PrimFloat.infinity PrimFloat.nan ]%float;
          synthetic_max :=
            [ history_entry 1 3 150;
              history_entry 2 PrimFloat.neg_infinity PrimFloat.nan ]%float;
          synthetic_average :=
            [ history_entry 1 2 150;
              history_entry 2 PrimFloat.nan PrimFloat.nan ]%float |}.
Proof.
  intros Hs Hnone point synthetic. split; [|reflexivity].
  subst synthetic. rewrite createAggregatedMetricHistory_points. simpl.
  rewrite !nth_error_map, Hs. simpl.
  unfold synthetic_point, contributing.
  rewrite (entries_at_none _ _ Hnone). simpl.
  repeat split; reflexivity.
Qed.

Lemma aggregated_history_step_without_entries_witness :
  nth_error (synthetic_max
               (createAggregatedMetricHistory [1; 2]%float (str "loss")
                                              loss_history)) 1
  = Some (history_entry 2 PrimFloat.neg_infinity PrimFloat.nan).
Proof.
  refine (proj1 (proj2 (proj1
    (aggregated_history_step_without_entries
       [1; 2]%float (str "loss") loss_history 1 2%float _ _)))).
  - reflexivity.
  - intros e He. simpl in He.
    destruct He as [<-|[<-|[]]]; reflexivity.
Defined.

(** C2, as stated, fails at step 2 of its own example: the max series carries
    [-Infinity] there, which is not NaN. *)
Lemma empty_step_is_not_NaN_in_max_series :
  ~ (forall p,
       In p (synthetic_max
               (createAggregatedMetricHistory [1; 2]%float (str "loss")
                                              loss_history)) ->
       same_number_key (step p) 2%float = true ->
       isNaN (metric_value p) = true).
Proof.
  intros H.
  specialize (H (history_entry 2 PrimFloat.neg_infinity PrimFloat.nan)).
  assert (E : isNaN PrimFloat.neg_infinity = true).
  { apply H; [right; left|]; reflexivity. }
  discriminate E.
Qed.

Lemma contributing_without_zero (f : MetricEntity -> number) (s : number)
    (history : list MetricEntity) :
  contributing f s
    (filter (fun e => negb (PrimFloat.is_zero (f e))) history)
  = contributing f s history.
Proof.
  unfold contributing, entries_at.
  induction history as [|e h IH]; simpl; auto.
  destruct (PrimFloat.is_zero (f e)) eqn:Z; simpl;
    destruct (same_number_key s (step e)) eqn:K; simpl; rewrite ?K; simpl;
    rewrite ?IH; auto.
  unfold number_truthy. rewrite Z, orb_true_r. reflexivity.
Qed.

(** C10: a history entry whose value is zero takes no part in the min, max
    and average of its step, and an entry whose timestamp is zero takes no
    part in the average timestamp of its step: dropping all such entries
    from the history leaves the values, respectively the timestamps, of the
    three synthetic series as they are. *)
Theorem zero_entries_are_compacted_out (stepNumbers : list number)
    (metricKey : jsstring) (history : list MetricEntity) :
  let synthetic := createAggregatedMetricHistory stepNumbers metricKey in
  let nonzero f := filter (fun e => negb (PrimFloat.is_zero (f e))) history in
  (map metric_value (synthetic_min (synthetic (nonzero metric_value)))
     = map metric_value (synthetic_min (synthetic history))
   /\ map metric_value (synthetic_max (synthetic (nonzero metric_value)))
     = map metric_value (synthetic_max (synthetic history))
   /\ map metric_value (synthetic_average (synthetic (nonzero metric_value)))
     = map metric_value (synthetic_average (synthetic history)))
  /\ (map timestamp (synthetic_min (synthetic (nonzero timestamp)))
        = map timestamp (synthetic_min (synthetic history))
      /\ map timestamp (synthetic_max (synthetic (nonzero timestamp)))
        = map timestamp (synthetic_max (synthetic history))
      /\ map timestamp (synthetic_average (synthetic (nonzero timestamp)))
        = map timestamp (synthetic_average (synthetic history))).
Proof.
  intros synthetic nonzero. subst synthetic nonzero. cbv beta.
  rewrite !createAggregatedMetricHistory_points. simpl.
  rewrite !map_map. unfold synthetic_point. simpl.
  repeat split; apply map_ext; intros s;
    now rewrite contributing_without_zero.
Qed.

(** The zero of an entry does not pull the minimum or the average down, and a
    zero timestamp does not pull the average timestamp down. *)
Example zero_value_and_zero_timestamp :
  createAggregatedMetricHistory [1]%float (str "loss")
    [ history_entry 1 0 100; history_entry 1 2 0 ]%float
  = {| synthetic_min := [ history_entry 1 2 100 ]%float;
       synthetic_max := [ history_entry 1 2 100 ]%float;
       synthetic_average := [ history_entry 1 2 100 ]%float |}.
Proof. reflexivity. Qed.

End TimeSeries.

(* ================================================================= *)
(** ** Plain objects *)

Section Objects.

Context {V : Type}.

Lemma get_own_set_own_same (k : jsstring) (v : V) (o : props V) :
  get_own k (set_own k v o) = Some v.
Proof.
  induction o as [|[k' v'] o IH]; simpl.
  - now rewrite string_eqb_refl.
  - destruct (string_eqb k k') eqn:E; simpl; rewrite E; auto.
Qed.

Lemma get_own_set_own_other (k k0 : jsstring) (v : V) (o : props V) :
  k <> k0 -> get_own k (set_own k0 v o) = get_own k o.
Proof.
  intros Hne. apply string_eqb_neq in Hne.
  induction o as [|[k' v'] o IH]; simpl.
  - now rewrite Hne.
  - destruct (string_eqb k0 k') eqn:E; simpl.
    + apply string_eqb_eq in E. subst k'. now rewrite Hne.
    + now rewrite IH.
Qed.

Lemma get_own_None (k : jsstring) (o : props V) :
  get_own k o = None <-> ~ In k (map fst o).
Proof.
  induction o as [|[k' v'] o IH]; simpl.
  - tauto.
  - destruct (string_eqb_spec k k') as [->|Hne].
    + split; [discriminate | intros H; exfalso; apply H; now left].
    + rewrite IH. split; [intros H [E|E]; congruence | tauto].
Qed.

Lemma get_own_In (k : jsstring) (v : V) (o : props V) :
  get_own k o = Some v -> In (k, v) o.
Proof.
  induction o as [|[k' v'] o IH]; simpl; [discriminate|].
  destruct (string_eqb_spec k k') as [->|Hne].
  - intros [= ->]. now left.
  - intros H. right. auto.
Qed.

Lemma In_get_own (k : jsstring) (v : V) (o : props V) :
  NoDup (map fst o) -> In (k, v) o -> get_own k o = Some v.
Proof.
  induction o as [|[k' v'] o IH]; simpl; [tauto|].
  intros Hnd [E|Hin]; inversion Hnd as [|? ? Hk' Hnd']; subst.
  - injection E as -> ->. now rewrite string_eqb_refl.
  - destruct (string_eqb_spec k k') as [->|Hne].
    + exfalso. apply Hk'. apply (in_map fst) in Hin. exact Hin.
    + auto.
Qed.

Lemma keys_set_own (k : jsstring) (v : V) (o : props V) :
  map fst (set_own k v o)
  = match get_own k o with
    | Some _ => map fst o
    | None => map fst o ++ [k]
    end.
Proof.
  induction o as [|[k' v'] o IH]; simpl; auto.
  destruct (string_eqb k k') eqn:E; simpl; auto.
  rewrite IH. now destruct (get_own k o).
Qed.

(** *** The enumeration order *)

Lemma insert_by_index_perm (e : jsstring * V) (l : props V) :
  Permutation (insert_by_index e l) (e :: l).
Proof.
  induction l as [|e' l IH]; simpl; auto.
  destruct (index_of (fst e) <=? index_of (fst e'))%N; auto.
  rewrite IH. apply perm_swap.
Qed.

Lemma sort_by_index_perm (l : props V) : Permutation (sort_by_index l) l.
Proof.
  induction l as [|e l IH]; simpl; auto.
  rewrite insert_by_index_perm. now constructor.
Qed.

Lemma filter_split_perm {A} (p : A -> bool) (l : list A) :
  Permutation (filter p l ++ filter (fun x => negb (p x)) l) l.
Proof.
  induction l as [|x l IH]; simpl; auto.
  destruct (p x); simpl.
  - now constructor.
  - rewrite <- Permutation_middle. now constructor.
Qed.

Lemma own_entries_perm (o : props V) : Permutation (own_entries o) o.
Proof.
  unfold own_entries. rewrite sort_by_index_perm.
  apply (filter_split_perm (fun e => is_array_index (fst e))).
Qed.

Lemma own_entries_In (e : jsstring * V) (o : props V) :
  In e (own_entries o) <-> In e o.
Proof.
  split; apply Permutation_in; [|symmetry]; apply own_entries_perm.
Qed.

Lemma own_entries_NoDup (o : props V) :
  NoDup (map fst o) -> NoDup (map fst (own_entries o)).
Proof.
  intros H. eapply Permutation_NoDup; [|exact H].
  apply Permutation_map. symmetry. apply own_entries_perm.
Qed.

End Objects.

Section Order.

Context {V : Type}.

Lemma insert_by_index_keys (e : jsstring * V) (l : props V) :
  map fst (insert_by_index e l) = insert_key (fst e) (map fst l).
Proof.
  induction l as [|e' l IH]; simpl; auto.
  destruct (index_of (fst e) <=? index_of (fst e'))%N; simpl; auto.
  now rewrite IH.
Qed.

Lemma sort_by_index_keys (l : props V) :
  map fst (sort_by_index l) = sort_keys (map fst l).
Proof.
  induction l as [|e l IH]; simpl; auto.
  now rewrite insert_by_index_keys, IH.
Qed.

Lemma filter_keys (p : jsstring -> bool) (l : props V) :
  map fst (filter (fun e => p (fst e)) l) = filter p (map fst l).
Proof.
  induction l as [|e l IH]; simpl; auto.
  destruct (p (fst e)); simpl; now rewrite IH.
Qed.

Lemma own_entries_keys (o : props V) :
  map fst (own_entries o) = key_order (map fst o).
Proof.
  unfold own_entries, key_order.
  rewrite map_app, sort_by_index_keys.
  rewrite (filter_keys is_array_index).
  now rewrite (filter_keys (fun k => negb (is_array_index k))).
Qed.

End Order.

Lemma insert_key_sorted (k : jsstring) (l : list jsstring) :
  Sorted (fun a b => (index_of a <= index_of b)%N) l ->
  Sorted (fun a b => (index_of a <= index_of b)%N) (insert_key k l).
Proof.
  induction l as [|k' l IH]; simpl; intros Hs.
  - repeat constructor.
  - destruct (index_of k <=? index_of k')%N eqn:E.
    + apply N.leb_le in E. constructor; auto.
    + apply N.leb_gt in E. inversion Hs as [|? ? Hs' Hhd]; subst.
      constructor; auto.
      destruct l as [|k'' l]; simpl.
      * constructor. lia.
      * destruct (index_of k <=? index_of k'')%N; constructor;
          inversion Hhd; subst; lia.
Qed.

Lemma insert_key_perm (k : jsstring) (l : list jsstring) :
  Permutation (insert_key k l) (k :: l).
Proof.
  induction l as [|k' l IH]; simpl; auto.
  destruct (index_of k <=? index_of k')%N; auto.
  rewrite IH. apply perm_swap.
Qed.

(** [sort_keys] rearranges its list, and [key_order] with it. *)
Lemma sort_keys_perm (l : list jsstring) : Permutation (sort_keys l) l.
Proof.
  induction l as [|k l IH]; simpl; auto.
  rewrite insert_key_perm. now constructor.
Qed.

Lemma key_order_perm (names : list jsstring) :
  Permutation (key_order names) names.
Proof.
  unfold key_order. rewrite sort_keys_perm. apply filter_split_perm.
Qed.

(** The array indices come out in ascending order. *)
Lemma sort_keys_sorted (l : list jsstring) :
  Sorted (fun a b => (index_of a <= index_of b)%N) (sort_keys l).
Proof.
  induction l as [|k l IH]; simpl; [constructor|].
  now apply insert_key_sorted.
Qed.

Lemma key_order_no_index (names : list jsstring) :
  (forall k, In k names -> is_array_index k = false) ->
  key_order names = names.
Proof.
  intros H. unfold key_order.
  assert (E1 : filter is_array_index names = []).
  { induction names as [|k l IH]; simpl; auto.
    rewrite (H k) by now left. apply IH. intros k' Hk'. apply H. now right. }
  assert (E2 : filter (fun k => negb (is_array_index k)) names = names).
  { induction names as [|k l IH]; simpl; auto.
    rewrite (H k) by now left. simpl. f_equal. apply IH.
    - intros k' Hk'. apply H. now right.
    - simpl in E1. rewrite (H k) in E1 by now left. exact E1. }
  now rewrite E1, E2.
Qed.

Lemma first_seen_snoc (names : list jsstring) (k : jsstring) :
  first_seen (names ++ [k])
  = if includes (first_seen names) k then first_seen names
    else first_seen names ++ [k].
Proof. unfold first_seen. now rewrite fold_left_app. Qed.

Lemma first_seen_In (names : list jsstring) (k : jsstring) :
  In k (first_seen names) <-> In k names.
Proof.
  revert k. induction names as [|k' l IH] using rev_ind; intros k.
  - reflexivity.
  - rewrite first_seen_snoc, in_app_iff. simpl.
    destruct (includes (first_seen l) k') eqn:E.
    + apply includes_In, IH in E. rewrite IH.
      split; [tauto|]. intros [H|[<-|[]]]; auto.
    + rewrite in_app_iff, IH. simpl. tauto.
Qed.

Lemma first_seen_NoDup (names : list jsstring) : NoDup (first_seen names).
Proof.
  induction names as [|k' l IH] using rev_ind.
  - constructor.
  - rewrite first_seen_snoc.
    destruct (includes (first_seen l) k') eqn:E; auto.
    apply includes_not_In in E.
    apply NoDup_app; auto.
    + repeat constructor. simpl. tauto.
    + intros x Hx [<-|[]]. contradiction.
Qed.

(* ================================================================= *)
(** ** Loops *)

Lemma bind_Returns {A} (c : outcome A) : bind c Returns = c.
Proof. now destruct c. Qed.

Lemma for_each_app {S A} (body : S -> A -> outcome S) (l1 l2 : list A) (s : S) :
  for_each body (l1 ++ l2) s = bind (for_each body l1 s) (for_each body l2).
Proof.
  revert s; induction l1 as [|x l1 IH]; intros s; simpl; auto.
  destruct (body s x); simpl; auto.
Qed.

Lemma for_each_snoc {S A} (body : S -> A -> outcome S) (l : list A) (x : A) (s : S) :
  for_each body (l ++ [x]) s = bind (for_each body l s) (fun s' => body s' x).
Proof.
  rewrite for_each_app. destruct (for_each body l s); simpl; auto.
  apply bind_Returns.
Qed.

(** Nested loops are one loop over the concatenation. *)
Lemma for_each_concat {S A} (body : S -> A -> outcome S) (ls : list (list A)) (s : S) :
  for_each (fun s l => for_each body l s) ls s = for_each body (concat ls) s.
Proof.
  revert s; induction ls as [|l ls IH]; intros s; simpl; auto.
  rewrite for_each_app. destruct (for_each body l s); simpl; auto.
Qed.

Lemma fold_left_concat {S A} (body : S -> A -> S) (ls : list (list A)) (s : S) :
  fold_left (fun s l => fold_left body l s) ls s = fold_left body (concat ls) s.
Proof.
  revert s; induction ls as [|l ls IH]; intros s; simpl; auto.
  now rewrite fold_left_app.
Qed.

Section Tabulate.

Context {V : Type}.

Lemma get_own_tabulate (g : jsstring -> V) (ks : list jsstring) (k : jsstring) :
  get_own k (map (fun k' => (k', g k')) ks)
  = if includes ks k then Some (g k) else None.
Proof.
  induction ks as [|a ks IH]; simpl; auto.
  destruct (string_eqb_spec k a) as [->|Hne]; simpl; auto.
Qed.

Lemma set_own_absent (k : jsstring) (v : V) (o : props V) :
  get_own k o = None -> set_own k v o = o ++ [(k, v)].
Proof.
  induction o as [|[k' v'] o IH]; simpl; auto.
  destruct (string_eqb k k'); [discriminate|].
  intros H. now rewrite IH.
Qed.

Lemma set_own_tabulate (g : jsstring -> V) (ks : list jsstring) (k : jsstring) (v : V) :
  NoDup ks -> In k ks ->
  set_own k v (map (fun k' => (k', g k')) ks)
  = map (fun k' => (k', if string_eqb k' k then v else g k')) ks.
Proof.
  induction ks as [|a ks IH]; simpl; [tauto|].
  intros Hnd Hin. inversion Hnd as [|? ? Ha Hnd']; subst.
  destruct (string_eqb_spec k a) as [->|Hne].
  - rewrite string_eqb_refl. f_equal.
    apply map_ext_in. intros k' Hk'.
    destruct (string_eqb_spec k' a) as [->|]; [contradiction|reflexivity].
  - destruct (string_eqb_spec a k) as [->|_]; [congruence|].
    f_equal. apply IH; auto. destruct Hin; congruence.
Qed.

End Tabulate.

Section Collect.

Context {A B : Type} (kf : A -> jsstring) (vf : A -> B).

Lemma members_snoc (k : jsstring) (l : list A) (x : A) :
  members kf vf k (l ++ [x])
  = members kf vf k l ++ (if string_eqb (kf x) k then [vf x] else []).
Proof.
  unfold members. rewrite filter_app, map_app. simpl.
  now destruct (string_eqb (kf x) k).
Qed.

Lemma members_absent (k : jsstring) (l : list A) :
  ~ In k (map kf l) -> members kf vf k l = [].
Proof.
  intros H. unfold members.
  induction l as [|x l IH]; simpl in *; auto.
  destruct (string_eqb_spec (kf x) k) as [E|_]; [tauto|].
  apply IH. tauto.
Qed.

Lemma collected_snoc (l : list A) (x : A) :
  collected kf vf (l ++ [x])
  = match get_own (kf x) (collected kf vf l) with
    | Some old => set_own (kf x) (old ++ [vf x]) (collected kf vf l)
    | None => set_own (kf x) [vf x] (collected kf vf l)
    end.
Proof.
  unfold collected at 1. rewrite map_app. simpl. rewrite first_seen_snoc.
  unfold collected. rewrite get_own_tabulate.
  destruct (includes (first_seen (map kf l)) (kf x)) eqn:E.
  - rewrite set_own_tabulate;
      [|apply first_seen_NoDup | now apply includes_In].
    apply map_ext. intros k. rewrite members_snoc.
    rewrite (string_eqb_sym k).
    destruct (string_eqb_spec (kf x) k) as [<-|_]; auto.
    now rewrite app_nil_r.
  - rewrite set_own_absent by (now rewrite get_own_tabulate, E).
    rewrite map_app. simpl. f_equal.
    + apply map_ext_in. intros k Hk. rewrite members_snoc.
      destruct (string_eqb_spec (kf x) k) as [<-|_].
      * apply includes_not_In in E. contradiction.
      * now rewrite app_nil_r.
    + rewrite members_snoc, string_eqb_refl.
      rewrite members_absent; auto.
      apply includes_not_In in E. now rewrite first_seen_In in E.
Qed.

(** A loop of [push_to] from the empty object throws on the first inherited
    name; otherwise it collects, for each name in the order of first
    occurrence, the values pushed under it. *)
Lemma push_to_loop (l : list A) :
  for_each (fun o x => push_to o (kf x) (vf x)) l []
  = if existsb (fun x => inherited (kf x)) l then Throws TypeError
    else Returns (collected kf vf l).
Proof.
  induction l as [|x l IH] using rev_ind; auto.
  rewrite for_each_snoc, IH, existsb_app. simpl. rewrite orb_false_r.
  destruct (existsb (fun x0 => inherited (kf x0)) l) eqn:E; simpl; auto.
  unfold push_to. rewrite collected_snoc.
  destruct (get_own (kf x) (collected kf vf l)) as [old|] eqn:G.
  - replace (inherited (kf x)) with false; auto.
    unfold collected in G. rewrite get_own_tabulate in G.
    destruct (includes (first_seen (map kf l)) (kf x)) eqn:I; [|discriminate].
    apply includes_In in I. rewrite first_seen_In in I.
    apply in_map_iff in I as (x' & Hk & Hx').
    destruct (inherited (kf x)) eqn:Hi; auto.
    assert (existsb (fun x0 => inherited (kf x0)) l = true).
    { apply existsb_exists. exists x'. split; auto. now rewrite Hk. }
    congruence.
  - now destruct (inherited (kf x)).
Qed.

End Collect.

Lemma inherited_proto_key : inherited proto_key = true.
Proof. reflexivity. Qed.

Section Extremum.

Variable StringToNumber : jsstring -> number.

Variable agg : list number -> number.
Hypothesis agg_single : forall x, agg [x] = x.
Hypothesis agg_snoc : forall l x, agg [agg l; x] = agg (l ++ [x]).
Hypothesis agg_nan : forall a x, isNaN a = true -> isNaN (agg [a; x]) = true.

Local Abbreviation empty := {| own_extrema := []; replaced_prototype := None |}.

Lemma extremum_step_own (acc : extremum_map) (e : AggregableEntity) :
  own_extrema (extremum_step StringToNumber agg acc e)
  = if string_eqb (key e) proto_key then own_extrema acc
    else set_own (key e)
           (match get_own (key e) (own_extrema acc) with
            | Some v => agg [v; Number StringToNumber (value e)]
            | None =>
                if member_truthy (extremum_get acc (key e))
                then agg [PrimFloat.nan; Number StringToNumber (value e)]
                else Number StringToNumber (value e)
            end)
           (own_extrema acc).
Proof.
  unfold extremum_step, extremum_set, extremum_get.
  destruct (string_eqb (key e) proto_key) eqn:P.
  - now destruct (replaced_prototype acc); simpl.
  - destruct (get_own (key e) (own_extrema acc)) as [v|]; simpl; auto.
    destruct (replaced_prototype acc) as [pv|].
    + destruct (string_eqb (key e) (str "key")); simpl; auto.
      destruct (string_eqb (key e) (str "value")); simpl.
      * now destruct (number_truthy pv).
      * now destruct (inherited (key e)).
    + now destruct (inherited (key e)).
Qed.

(** The Min/Max accumulator after any list of entities: its own names are
    the names seen, in the order of first occurrence, without [__proto__];
    and each holds NaN or the aggregate of the values logged under it. *)
Lemma extremum_loop (l : list AggregableEntity) :
  let acc := fold_left (extremum_step StringToNumber agg) l empty in
  map fst (own_extrema acc) = filter not_proto (first_seen (map key l))
  /\ forall k v, get_own k (own_extrema acc) = Some v ->
       isNaN v = true \/ v = agg (same_key_values StringToNumber k l).
Proof.
  induction l as [|e l IH] using rev_ind.
  - simpl. split; auto. discriminate.
  - cbv zeta in *. rewrite fold_left_app. simpl.
    destruct IH as [Hkeys Hvals].
    set (acc := fold_left (extremum_step StringToNumber agg) l empty) in *.
    rewrite extremum_step_own, map_app. simpl. rewrite first_seen_snoc.
    destruct (string_eqb (key e) proto_key) eqn:P.
    + split.
      * rewrite Hkeys.
        destruct (includes (first_seen (map key l)) (key e)); auto.
        rewrite filter_app. simpl. unfold not_proto.
        rewrite P. simpl. now rewrite app_nil_r.
      * intros k v G. destruct (Hvals k v G) as [H|H]; auto. right.
        unfold same_key_values. rewrite members_snoc.
        destruct (string_eqb_spec (key e) k) as [E|_];
          [|now rewrite app_nil_r].
        exfalso. assert (Hin : In k (map fst (own_extrema acc))).
        { apply get_own_In in G. now apply (in_map fst) in G. }
        rewrite Hkeys in Hin. apply filter_In in Hin as [_ Hin].
        unfold not_proto in Hin. rewrite <- E, P in Hin.
        discriminate.
    + split.
      * rewrite keys_set_own, Hkeys.
        destruct (get_own (key e) (own_extrema acc)) as [v|] eqn:G.
        -- assert (Hin : In (key e) (map fst (own_extrema acc))).
           { apply get_own_In in G. now apply (in_map fst) in G. }
           rewrite Hkeys in Hin. apply filter_In in Hin as [Hin _].
           apply includes_In in Hin. now rewrite Hin.
        -- apply get_own_None in G. rewrite Hkeys in G.
           destruct (includes (first_seen (map key l)) (key e)) eqn:I.
           ++ exfalso. apply G. apply filter_In. split.
              ** now apply includes_In.
              ** unfold not_proto. now rewrite P.
           ++ rewrite filter_app. simpl. unfold not_proto.
              now rewrite P.
      * intros k v G.
        destruct (string_eqb_spec k (key e)) as [->|Hne].
        -- rewrite get_own_set_own_same in G. injection G as <-.
           unfold same_key_values. rewrite members_snoc, string_eqb_refl.
           destruct (get_own (key e) (own_extrema acc)) as [v0|] eqn:G0.
           ++ destruct (Hvals _ _ G0) as [H|H].
              ** left. now apply agg_nan.
              ** right. rewrite H. apply agg_snoc.
           ++ destruct (member_truthy (extremum_get acc (key e))).
              ** left. now apply agg_nan.
              ** right. rewrite members_absent; [simpl; now rewrite agg_single|].
                 apply get_own_None in G0. rewrite Hkeys in G0.
                 intros Hin. apply G0. apply filter_In. split.
                 --- now apply first_seen_In.
                 --- unfold not_proto. now rewrite P.
        -- rewrite get_own_set_own_other in G by auto.
           destruct (Hvals k v G) as [H|H]; auto. right.
           unfold same_key_values. rewrite members_snoc.
           destruct (string_eqb_spec (key e) k) as [E|_]; [congruence|].
           now rewrite app_nil_r.
Qed.

Lemma extremum_step_plain (own : props number) (e : AggregableEntity) :
  inherited (key e) = false ->
  extremum_step StringToNumber agg
    {| own_extrema := own; replaced_prototype := None |} e
  = {| own_extrema :=
         set_own (key e)
           (match get_own (key e) own with
            | Some v => agg [v; Number StringToNumber (value e)]
            | None => Number StringToNumber (value e)
            end) own;
       replaced_prototype := None |}.
Proof.
  intros He.
  assert (P : string_eqb (key e) proto_key = false).
  { apply string_eqb_neq. intros E. rewrite E in He. discriminate. }
  unfold extremum_step, extremum_get, extremum_set. cbn [own_extrema replaced_prototype].
  rewrite P, He.
  now destruct (get_own (key e) own).
Qed.

(** When no name is inherited from [Object.prototype], each own property
    holds the aggregate of the values logged under its name. *)
Lemma extremum_loop_plain (l : list AggregableEntity) :
  (forall e, In e l -> inherited (key e) = false) ->
  fold_left (extremum_step StringToNumber agg) l empty
  = {| own_extrema :=
         map (fun k => (k, agg (same_key_values StringToNumber k l))) (first_seen (map key l));
       replaced_prototype := None |}.
Proof.
  induction l as [|e l IH] using rev_ind; intros Hplain; auto.
  rewrite fold_left_app. simpl.
  rewrite IH by (intros e' He'; apply Hplain, in_or_app; now left).
  assert (He : inherited (key e) = false).
  { apply Hplain, in_or_app. right. now left. }
  assert (P : string_eqb (key e) proto_key = false).
  { apply string_eqb_neq. intros E. rewrite E in He. discriminate. }
  rewrite extremum_step_plain by exact He.
  rewrite get_own_tabulate, map_app. simpl. rewrite first_seen_snoc.
  destruct (includes (first_seen (map key l)) (key e)) eqn:I; f_equal.
  - rewrite set_own_tabulate;
      [|apply first_seen_NoDup | now apply includes_In].
    apply map_ext. intros k. f_equal.
    unfold same_key_values. rewrite members_snoc.
    rewrite (string_eqb_sym k).
    destruct (string_eqb_spec (key e) k) as [<-|_].
    + apply agg_snoc.
    + now rewrite app_nil_r.
  - rewrite set_own_absent by (now rewrite get_own_tabulate, I).
    rewrite map_app. simpl. f_equal.
    + apply map_ext_in. intros k Hk. f_equal.
      unfold same_key_values. rewrite members_snoc.
      destruct (string_eqb_spec (key e) k) as [<-|_].
      * apply includes_not_In in I. contradiction.
      * now rewrite app_nil_r.
    + f_equal. unfold same_key_values.
      rewrite members_snoc, string_eqb_refl, members_absent.
      * simpl. now rewrite agg_single.
      * apply includes_not_In in I. now rewrite first_seen_In in I.
Qed.

End Extremum.

(** ** [Math.min] and [Math.max] *)

Lemma min_step_not_nan (lo x : number) :
  PrimFloat.is_nan lo = false -> PrimFloat.is_nan x = false ->
  PrimFloat.is_nan (min_step lo x) = false.
Proof.
  intros H1 H2. unfold min_step.
  destruct (is_neg_zero x && is_pos_zero lo); auto.
  destruct (PrimFloat.ltb x lo); auto.
Qed.

Lemma max_step_not_nan (hi x : number) :
  PrimFloat.is_nan hi = false -> PrimFloat.is_nan x = false ->
  PrimFloat.is_nan (max_step hi x) = false.
Proof.
  intros H1 H2. unfold max_step.
  destruct (is_pos_zero x && is_neg_zero hi); auto.
  destruct (PrimFloat.ltb hi x); auto.
Qed.

Section Loops.

Variable step_fn : number -> number -> number.
Variable loop : number -> list number -> number.
Hypothesis loop_nil : forall b, loop b [] = b.
Hypothesis loop_cons : forall b x l,
  loop b (x :: l)
  = if PrimFloat.is_nan x then PrimFloat.nan else loop (step_fn b x) l.
Hypothesis step_not_nan : forall b x,
  PrimFloat.is_nan b = false -> PrimFloat.is_nan x = false ->
  PrimFloat.is_nan (step_fn b x) = false.

Lemma loop_nan (b : number) (l : list number) :
  existsb PrimFloat.is_nan l = true -> loop b l = PrimFloat.nan.
Proof.
  revert b; induction l as [|x l IH]; intros b; simpl; [discriminate|].
  rewrite loop_cons. destruct (PrimFloat.is_nan x); simpl; auto.
Qed.

Lemma loop_app (b : number) (l1 l2 : list number) :
  existsb PrimFloat.is_nan l1 = false ->
  loop b (l1 ++ l2) = loop (loop b l1) l2.
Proof.
  revert b; induction l1 as [|x l IH]; intros b; simpl.
  - now rewrite loop_nil.
  - rewrite !loop_cons. destruct (PrimFloat.is_nan x); simpl;
      [discriminate|auto].
Qed.

Lemma loop_not_nan (b : number) (l : list number) :
  PrimFloat.is_nan b = false ->
  existsb PrimFloat.is_nan l = false ->
  PrimFloat.is_nan (loop b l) = false.
Proof.
  revert b; induction l as [|x l IH]; intros b Hb; simpl.
  - now rewrite loop_nil.
  - rewrite loop_cons. destruct (PrimFloat.is_nan x) eqn:E; simpl;
      [discriminate|]. intros H. apply IH; auto.
Qed.

(** Folding pairwise from a neutral bound is the variadic call. *)
Lemma loop_pairwise (bound : number) (l : list number) (x : number) :
  PrimFloat.is_nan bound = false ->
  (forall m, PrimFloat.is_nan m = false -> step_fn bound m = m) ->
  loop bound [loop bound l; x] = loop bound (l ++ [x]).
Proof.
  intros Hb Hneutral.
  destruct (existsb PrimFloat.is_nan l) eqn:E.
  - rewrite (loop_nan bound l E), loop_cons. simpl.
    symmetry. apply loop_nan. rewrite existsb_app, E. reflexivity.
  - rewrite (loop_app bound l [x] E).
    rewrite (loop_cons bound (loop bound l)).
    rewrite (loop_not_nan bound l Hb E).
    rewrite Hneutral; auto. now apply loop_not_nan.
Qed.

Lemma loop_single (bound x : number) :
  (forall m, PrimFloat.is_nan m = false -> step_fn bound m = m) ->
  loop bound [x] = x.
Proof.
  intros Hneutral. rewrite loop_cons, loop_nil.
  destruct (PrimFloat.is_nan x) eqn:E.
  - symmetry. now apply nan_unique.
  - now apply Hneutral.
Qed.

Lemma loop_nan_first (bound a x : number) :
  PrimFloat.is_nan a = true -> PrimFloat.is_nan (loop bound [a; x]) = true.
Proof. intros H. rewrite loop_cons, H. reflexivity. Qed.

End Loops.

Lemma Math_min_single (x : number) : Math_min [x] = x.
Proof.
  apply (loop_single min_step min_loop); auto using min_step_infinity.
Qed.

Lemma Math_min_pairwise (l : list number) (x : number) :
  Math_min [Math_min l; x] = Math_min (l ++ [x]).
Proof.
  apply (loop_pairwise min_step min_loop);
    auto using min_step_infinity, min_step_not_nan.
Qed.

Lemma Math_min_nan (a x : number) :
  isNaN a = true -> isNaN (Math_min [a; x]) = true.
Proof. apply (loop_nan_first min_step min_loop); auto. Qed.

Lemma Math_max_single (x : number) : Math_max [x] = x.
Proof.
  apply (loop_single max_step max_loop); auto using max_step_neg_infinity.
Qed.

Lemma Math_max_pairwise (l : list number) (x : number) :
  Math_max [Math_max l; x] = Math_max (l ++ [x]).
Proof.
  apply (loop_pairwise max_step max_loop);
    auto using max_step_neg_infinity, max_step_not_nan.
Qed.

Lemma Math_max_nan (a x : number) :
  isNaN a = true -> isNaN (Math_max [a; x]) = true.
Proof. apply (loop_nan_first max_step max_loop); auto. Qed.

Section EntryLists.

Context {V : Type}.

Lemma insert_by_index_map_values {W} (g : V -> W) (e : jsstring * V)
    (l : props V) :
  insert_by_index (fst e, g (snd e)) (map (fun e => (fst e, g (snd e))) l)
  = map (fun e => (fst e, g (snd e))) (insert_by_index e l).
Proof.
  induction l as [|e' l IH]; simpl; auto.
  destruct (index_of (fst e) <=? index_of (fst e'))%N; simpl; auto.
  now rewrite IH.
Qed.

Lemma own_entries_map_values {W} (g : V -> W) (o : props V) :
  own_entries (map (fun e => (fst e, g (snd e))) o)
  = map (fun e => (fst e, g (snd e))) (own_entries o).
Proof.
  unfold own_entries. rewrite map_app. f_equal.
  - induction o as [|e o IH]; simpl; auto.
    destruct (is_array_index (fst e)); simpl; auto.
    now rewrite IH, insert_by_index_map_values.
  - induction o as [|e o IH]; simpl; auto.
    destruct (is_array_index (fst e)); simpl; auto. now rewrite IH.
Qed.

(** Filtering entries whose names are distinct is filtering by the names
    that are kept. *)
Lemma kept_keys (p : jsstring * V -> bool) (l : props V) :
  NoDup (map fst l) ->
  map fst (filter p l)
  = filter (includes (map fst (filter p l))) (map fst l).
Proof.
  induction l as [|e l IH]; simpl; auto.
  intros Hnd. inversion Hnd as [|? ? He Hnd']; subst.
  assert (Hsub : forall k, In k (map fst (filter p l)) -> In k (map fst l)).
  { intros k Hk. apply in_map_iff in Hk as (x & <- & Hx).
    apply filter_In in Hx as [Hx _]. now apply in_map. }
  destruct (p e); simpl.
  - rewrite string_eqb_refl. simpl. f_equal.
    rewrite IH at 1 by auto. apply filter_ext_in. intros k Hk.
    unfold includes. simpl.
    destruct (string_eqb_spec k (fst e)) as [->|_]; [contradiction|].
    reflexivity.
  - replace (includes (map fst (filter p l)) (fst e)) with false.
    + now apply IH.
    + symmetry. apply includes_not_In. intros H. apply He. now apply Hsub.
Qed.

End EntryLists.

Lemma NoDup_filter_keys (p : jsstring -> bool) (l : list jsstring) :
  NoDup l -> NoDup (filter p l).
Proof.
  induction l as [|k l IH]; simpl; auto.
  intros H. inversion H as [|? ? Hk Hnd]; subst.
  destruct (p k); auto. constructor; auto.
  intros Hin. apply filter_In in Hin. tauto.
Qed.

(** Names that are not array indices can be dropped before or after the
    enumeration order is taken, when the names kept exclude them anyway. *)
Lemma key_order_dropped (q keep : jsstring -> bool) (l : list jsstring) :
  (forall k, is_array_index k = true -> q k = true) ->
  (forall k, keep k = true -> q k = true) ->
  filter keep (key_order (filter q l)) = filter keep (key_order l).
Proof.
  intros Hidx Hkeep. unfold key_order. rewrite !filter_app. f_equal.
  - f_equal. f_equal. induction l as [|k l IH]; simpl; auto.
    destruct (q k) eqn:Q; simpl; destruct (is_array_index k) eqn:I;
      simpl; rewrite ?IH; auto.
    rewrite (Hidx k I) in Q. discriminate.
  - induction l as [|k l IH]; simpl; auto.
    destruct (q k) eqn:Q; simpl; destruct (is_array_index k) eqn:I;
      simpl; rewrite ?IH; auto.
    destruct (keep k) eqn:K; auto.
    rewrite (Hkeep k K) in Q. discriminate.
Qed.

Lemma RunGroupingAggregateFunction_eq_dec
    (f g : RunGroupingAggregateFunction) : {f = g} + {f <> g}.
Proof. decide equality. Qed.

Section Aggregator.

Variable StringToNumber : jsstring -> number.

Local Abbreviation empty := {| own_extrema := []; replaced_prototype := None |}.

Lemma aggregateValues_extremum (f : RunGroupingAggregateFunction)
    (valuesByRun : list (list AggregableEntity)) :
  f <> Average ->
  aggregateValues StringToNumber valuesByRun (aggregate_token f)
  = Returns
      (filter not_NaN
         (own_entries
            (own_extrema
               (fold_left (extremum_step StringToNumber (aggregate_of f))
                          (concat valuesByRun)
                          {| own_extrema := []; replaced_prototype := None |})))).
Proof.
  intros Hf. unfold aggregateValues.
  rewrite fold_left_concat.
  destruct f; try congruence; reflexivity.
Qed.

Lemma aggregateValues_average (valuesByRun : list (list AggregableEntity)) :
  aggregateValues StringToNumber valuesByRun (aggregate_token Average)
  = if existsb (fun e => inherited (key e)) (concat valuesByRun)
    then Throws TypeError
    else Returns
           (filter not_NaN
              (own_entries
                 (map (fun k => (k, average (same_key_values StringToNumber k
                                               (concat valuesByRun))))
                      (first_seen (map key (concat valuesByRun)))))).
Proof.
  unfold aggregateValues.
  change (string_eqb (aggregate_token Average) (aggregate_token Min)) with false.
  change (string_eqb (aggregate_token Average) (aggregate_token Max)) with false.
  change (string_eqb (aggregate_token Average) (aggregate_token Average)) with true.
  cbv iota. cbn [orb].
  rewrite for_each_concat.
  rewrite (push_to_loop key (fun e => Number StringToNumber (value e))).
  destruct (existsb _ _); simpl; auto.
  f_equal. f_equal.
  rewrite <- (own_entries_map_values average).
  f_equal. unfold collected. rewrite map_map. reflexivity.
Qed.

Lemma extremum_loop_of (f : RunGroupingAggregateFunction)
    (l : list AggregableEntity) :
  f <> Average ->
  let acc := fold_left (extremum_step StringToNumber (aggregate_of f)) l empty in
  map fst (own_extrema acc)
  = filter not_proto (first_seen (map key l))
  /\ forall k v, get_own k (own_extrema acc) = Some v ->
       isNaN v = true
       \/ v = aggregate_of f (same_key_values StringToNumber k l).
Proof.
  intros Hf. destruct f; try congruence.
  - apply extremum_loop;
      auto using Math_min_single, Math_min_pairwise, Math_min_nan.
  - apply extremum_loop;
      auto using Math_max_single, Math_max_pairwise, Math_max_nan.
Qed.

Lemma extremum_loop_plain_of (f : RunGroupingAggregateFunction)
    (l : list AggregableEntity) :
  f <> Average ->
  (forall e, In e l -> inherited (key e) = false) ->
  fold_left (extremum_step StringToNumber (aggregate_of f)) l empty
  = {| own_extrema :=
         map (fun k => (k, aggregate_of f (same_key_values StringToNumber k l)))
             (first_seen (map key l));
       replaced_prototype := None |}.
Proof.
  intros Hf. destruct f; try congruence.
  - apply extremum_loop_plain; auto using Math_min_single, Math_min_pairwise.
  - apply extremum_loop_plain; auto using Math_max_single, Math_max_pairwise.
Qed.

(** Every entry of the list [aggregateValues] returns holds a number that is
    not NaN: the aggregate of the values logged under its key. *)
Lemma aggregateValues_entry (f : RunGroupingAggregateFunction)
    (valuesByRun : list (list AggregableEntity))
    (out : list AggregatedEntity) (k : jsstring) (v : number) :
  aggregateValues StringToNumber valuesByRun (aggregate_token f) = Returns out ->
  In (k, v) out ->
  isNaN v = false
  /\ v = aggregate_of f (same_key_values StringToNumber k (concat valuesByRun)).
Proof.
  intros Hout Hin.
  destruct (RunGroupingAggregateFunction_eq_dec f Average) as [->|Hf].
  - rewrite aggregateValues_average in Hout.
    destruct (existsb _ _); [discriminate|]. injection Hout as <-.
    apply filter_In in Hin as [Hin Hv]. unfold not_NaN in Hv. simpl in Hv.
    apply negb_true_iff in Hv. split; auto.
    apply (proj1 (own_entries_In _ _)), in_map_iff in Hin as (k' & [= <- <-] & _).
    reflexivity.
  - rewrite (aggregateValues_extremum f valuesByRun Hf) in Hout.
    injection Hout as <-.
    apply filter_In in Hin as [Hin Hv]. unfold not_NaN in Hv. simpl in Hv.
    apply negb_true_iff in Hv. split; auto.
    destruct (extremum_loop_of f (concat valuesByRun) Hf) as [Hkeys Hvals].
    apply (proj1 (own_entries_In _ _)) in Hin.
    apply In_get_own in Hin.
    + destruct (Hvals k v Hin) as [H|H]; [congruence|exact H].
    + rewrite Hkeys. apply NoDup_filter_keys, first_seen_NoDup.
Qed.

(** When no key is the name of a member of [Object.prototype], the call
    returns the aggregates that are not NaN, of all keys, in enumeration
    order. *)
Lemma aggregateValues_plain (f : RunGroupingAggregateFunction)
    (valuesByRun : list (list AggregableEntity)) :
  (forall e, In e (concat valuesByRun) -> inherited (key e) = false) ->
  aggregateValues StringToNumber valuesByRun (aggregate_token f)
  = Returns
      (filter not_NaN
         (own_entries
            (map (fun k => (k, aggregate_of f
                                 (same_key_values StringToNumber k
                                    (concat valuesByRun))))
                 (first_seen (map key (concat valuesByRun)))))).
Proof.
  intros Hplain.
  destruct (RunGroupingAggregateFunction_eq_dec f Average) as [->|Hf].
  - rewrite aggregateValues_average.
    replace (existsb _ _) with false; auto.
    symmetry. apply not_true_iff_false. intros H.
    apply existsb_exists in H as (e & He & Hi).
    rewrite (Hplain e He) in Hi. discriminate.
  - rewrite (aggregateValues_extremum f valuesByRun Hf).
    now rewrite (extremum_loop_plain_of f _ Hf Hplain).
Qed.

(** The keys of the returned list are in enumeration order of the keys
    seen. *)
Lemma aggregateValues_keys (f : RunGroupingAggregateFunction)
    (valuesByRun : list (list AggregableEntity))
    (out : list AggregatedEntity) :
  aggregateValues StringToNumber valuesByRun (aggregate_token f) = Returns out ->
  map fst out
  = filter (includes (map fst out))
           (key_order (first_seen (map key (concat valuesByRun)))).
Proof.
  intros Hout.
  destruct (RunGroupingAggregateFunction_eq_dec f Average) as [->|Hf].
  - rewrite aggregateValues_average in Hout.
    destruct (existsb _ _); [discriminate|]. injection Hout as <-.
    set (T := map _ (first_seen _)).
    assert (HT : map fst T = first_seen (map key (concat valuesByRun))).
    { unfold T. rewrite map_map. simpl. apply map_id. }
    rewrite kept_keys at 1.
    + now rewrite own_entries_keys, HT.
    + apply own_entries_NoDup. rewrite HT. apply first_seen_NoDup.
  - rewrite (aggregateValues_extremum f valuesByRun Hf) in Hout.
    injection Hout as <-.
    destruct (extremum_loop_of f (concat valuesByRun) Hf) as [Hkeys _].
    cbv zeta in Hkeys.
    set (own := own_extrema _) in *.
    assert (Hnd : NoDup (map fst own)).
    { rewrite Hkeys. apply NoDup_filter_keys, first_seen_NoDup. }
    rewrite kept_keys at 1 by now apply own_entries_NoDup.
    rewrite own_entries_keys, Hkeys.
    apply key_order_dropped.
    + intros k Hk. apply negb_true_iff, string_eqb_neq. intros ->.
      discriminate Hk.
    + intros k Hk. apply includes_In, in_map_iff in Hk as (e & <- & He).
      apply filter_In in He as [He _]. apply (proj1 (own_entries_In _ _)) in He.
      apply (in_map fst) in He. rewrite Hkeys in He.
      now apply filter_In in He as [_ He].
Qed.

(** The function throws its own error exactly on an aggregate function that
    is none of the three. *)
Lemma aggregateValues_unsupported (valuesByRun : list (list AggregableEntity))
    (aggregateFunction : jsstring) :
  aggregateValues StringToNumber valuesByRun aggregateFunction
  = Throws (unsupported aggregateFunction)
  <-> forall f, aggregateFunction <> aggregate_token f.
Proof.
  split.
  - intros H f ->.
    destruct (RunGroupingAggregateFunction_eq_dec f Average) as [->|Hf].
    + rewrite aggregateValues_average in H.
      destruct (existsb _ _); discriminate.
    + rewrite (aggregateValues_extremum f valuesByRun Hf) in H. discriminate.
  - intros H. unfold aggregateValues.
    rewrite (proj2 (string_eqb_neq _ _) (H Min)).
    rewrite (proj2 (string_eqb_neq _ _) (H Max)).
    rewrite (proj2 (string_eqb_neq _ _) (H Average)).
    reflexivity.
Qed.

End Aggregator.

(* ================================================================= *)
(** ** The value aggregator *)

Lemma aggregateValues_numbers_only (S1 S2 : jsstring -> number)
    (valuesByRun : list (list AggregableEntity)) (aggregateFunction : jsstring) :
  (forall l e, In l valuesByRun -> In e l -> is_number (value e) = true) ->
  aggregateValues S1 valuesByRun aggregateFunction
  = aggregateValues S2 valuesByRun aggregateFunction.
Proof.
  intros Hnum.
  assert (HN : forall l e, In l valuesByRun -> In e l ->
                 Number S1 (value e) = Number S2 (value e)).
  { intros l e Hl He. specialize (Hnum l e Hl He).
    now destruct (value e). }
  unfold aggregateValues.
  assert (Hext : forall agg acc0,
    fold_left (fun acc metricList =>
                 fold_left (extremum_step S1 agg) metricList acc)
              valuesByRun acc0
    = fold_left (fun acc metricList =>
                   fold_left (extremum_step S2 agg) metricList acc)
                valuesByRun acc0).
  { intros agg. clear Hnum. induction valuesByRun as [|l ls IH]; intros acc0; auto.
    simpl. rewrite IH by (intros l' e Hl' He; apply (HN l' e); [now right|auto]).
    f_equal. assert (Hl : forall e, In e l -> Number S1 (value e) = Number S2 (value e)).
    { intros e He. apply (HN l e); [now left|auto]. }
    clear IH HN. revert acc0. induction l as [|e l IHl]; intros acc0; auto.
    simpl. rewrite IHl by (intros e' He'; apply Hl; now right).
    f_equal. unfold extremum_step. rewrite (Hl e) by now left. reflexivity. }
  assert (Hext' : forall acc0,
    for_each (fun acc metricList =>
                for_each (fun acc metric =>
                            push_to acc (key metric) (Number S1 (value metric)))
                         metricList acc)
             valuesByRun acc0
    = for_each (fun acc metricList =>
                  for_each (fun acc metric =>
                              push_to acc (key metric) (Number S2 (value metric)))
                           metricList acc)
               valuesByRun acc0).
  { clear Hnum Hext. induction valuesByRun as [|l ls IH]; intros acc0; auto.
    simpl.
    assert (Hl : forall e, In e l -> Number S1 (value e) = Number S2 (value e)).
    { intros e He. apply (HN l e); [now left|auto]. }
    assert (E : forall acc1,
      for_each (fun acc metric =>
                  push_to acc (key metric) (Number S1 (value metric))) l acc1
      = for_each (fun acc metric =>
                    push_to acc (key metric) (Number S2 (value metric))) l acc1).
    { clear IH HN. induction l as [|e l IHl]; intros acc1; auto.
      simpl. rewrite (Hl e) by now left.
      destruct (push_to acc1 (key e) (Number S2 (value e))); simpl; auto.
      apply IHl. intros e' He'. apply Hl. now right. }
    rewrite E. destruct (for_each _ l acc0); simpl; auto.
    apply IH. intros l' e Hl' He. apply (HN l' e); [now right|auto]. }
  now rewrite !Hext, Hext'.
Qed.

Section AggregatorClaims.

Variable StringToNumber : jsstring -> number.

(** C6 (the code at the failing input, and the claim away from it): with
    Min, the one entity of key [constructor] and value 2 has the minimum 2,
    which is not NaN; yet [aggregateValues] returns the empty list, the key is
    dropped.  Away from the names of the members of [Object.prototype] the
    aggregator does what is asked of it: every entry of the list it returns
    holds, under its key, the minimum (Min), the maximum (Max) or the mean
    (Average: the sum of the coerced values divided by their count) of all
    values logged under that key in the per-run lists, and that number is not
    NaN, so a key whose aggregate is NaN is absent; when no key is the name
    of a member of [Object.prototype] the function returns and every key
    whose aggregate is not NaN is present; and [[{a: 2}], [{a: 4}]] gives 3
    for Average, 4 for Max and 2 for Min. *)
Theorem aggregateValues_drops_inherited_key :
  (aggregateValues StringToNumber [[entity "constructor" 2]]
     (aggregate_token Min)
   = Returns []
   /\ aggregate_of Min
        (same_key_values StringToNumber (str "constructor")
           (concat [[entity "constructor" 2]]))
      = 2%float)
  /\ (forall f valuesByRun out k v,
        aggregateValues StringToNumber valuesByRun (aggregate_token f)
        = Returns out ->
        In (k, v) out ->
        isNaN v = false
        /\ v = aggregate_of f
                 (same_key_values StringToNumber k (concat valuesByRun)))
  /\ (forall f valuesByRun,
        (forall e, In e (concat valuesByRun) -> inherited (key e) = false) ->
        exists out,
          aggregateValues StringToNumber valuesByRun (aggregate_token f)
          = Returns out
          /\ forall k, In k (map key (concat valuesByRun)) ->
               let aggregate :=
                 aggregate_of f
                   (same_key_values StringToNumber k (concat valuesByRun)) in
               isNaN aggregate = false -> In (k, aggregate) out)
  /\ aggregateValues StringToNumber [[entity "a" 2]; [entity "a" 4]]
       (aggregate_token Average) = Returns [(str "a", 3%float)]
  /\ aggregateValues StringToNumber [[entity "a" 2]; [entity "a" 4]]
       (aggregate_token Max) = Returns [(str "a", 4%float)]
  /\ aggregateValues StringToNumber [[entity "a" 2]; [entity "a" 4]]
       (aggregate_token Min) = Returns [(str "a", 2%float)].
Proof.
  split; [split; reflexivity|].
  split; [|split; [|repeat split; reflexivity]].
  - intros f valuesByRun out k v Hout Hin.
    exact (aggregateValues_entry StringToNumber f valuesByRun out k v Hout Hin).
  - intros f valuesByRun Hplain. eexists. split.
    + apply aggregateValues_plain. exact Hplain.
    + intros k Hk aggregate Hnan. apply filter_In. split.
      * apply own_entries_In, in_map_iff. exists k. split; auto.
        now apply first_seen_In.
      * unfold not_NaN. simpl. now rewrite Hnan.
Qed.

(** C3 (as amended): the list [aggregateValues] returns enumerates its keys
    in the enumeration order of object properties: the keys that are array
    indices (canonical decimal integers below 2^32 - 1) first, in ascending
    numeric order, then the other keys in the order in which each is first
    met while scanning the per-run lists in sequence; when no key is an array
    index this is the insertion order. *)
Theorem aggregateValues_enumeration_order
    (f : RunGroupingAggregateFunction)
    (valuesByRun : list (list AggregableEntity))
    (out : list AggregatedEntity) :
  aggregateValues StringToNumber valuesByRun (aggregate_token f) = Returns out ->
  let seen := first_seen (map key (concat valuesByRun)) in
  map fst out = filter (includes (map fst out)) (key_order seen)
  /\ ((forall k, In k seen -> is_array_index k = false) ->
      map fst out = filter (includes (map fst out)) seen).
Proof.
  intros Hout seen.
  pose proof (aggregateValues_keys StringToNumber f valuesByRun out Hout) as H.
  split; auto.
  intros Hno. rewrite H at 1. now rewrite key_order_no_index.
Qed.

(** C8 (the code at the failing input, and the claim away from it): with the
    supported function Average and an entity whose key is [constructor],
    [aggregateValues] throws a [TypeError].  Its own error, for an
    unsupported function, is thrown exactly when the function is none of Min,
    Max and Average; and with one of the three it returns when no key is the
    name of a member of [Object.prototype]. *)
Theorem aggregateValues_throws_on_inherited_key :
  aggregateValues StringToNumber [[entity "constructor" 1]]
    (aggregate_token Average)
  = Throws TypeError
  /\ (forall valuesByRun aggregateFunction,
        aggregateValues StringToNumber valuesByRun aggregateFunction
        = Throws (unsupported aggregateFunction)
        <-> forall f, aggregateFunction <> aggregate_token f)
  /\ (forall valuesByRun f,
        (forall e, In e (concat valuesByRun) -> inherited (key e) = false) ->
        exists out,
          aggregateValues StringToNumber valuesByRun (aggregate_token f)
          = Returns out).
Proof.
  split; [reflexivity|]. split.
  - apply aggregateValues_unsupported.
  - intros valuesByRun f Hplain. eexists.
    apply aggregateValues_plain. exact Hplain.
Qed.

End AggregatorClaims.

Example aggregateValues_entry_example :
  isNaN 3%float = false
  /\ 3%float
     = aggregate_of Average
         (same_key_values StringToNumber_unused (str "a")
            (concat [[entity "a" 2]; [entity "a" 4]])).
Proof.
  apply (aggregateValues_entry StringToNumber_unused
           Average [[entity "a" 2]; [entity "a" 4]] [(str "a", 3%float)]).
  - reflexivity.
  - left. reflexivity.
Defined.

Lemma aggregateValues_enumeration_order_witness :
  map fst [(str "1", 4%float); (str "2", 1%float);
           (str "b", 2%float); (str "a", 4%float)]
  = filter (includes (map fst [(str "1", 4%float); (str "2", 1%float);
                               (str "b", 2%float); (str "a", 4%float)]))
           (key_order (first_seen (map key (concat mixed_keys)))).
Proof.
  apply (aggregateValues_enumeration_order StringToNumber_unused Min
           mixed_keys).
  reflexivity.
Defined.

(** C3, as stated, fails when a key is an array index: [2] and [1] are met
    after [b] and are listed before it, in numeric order. *)
Lemma array_index_keys_come_first :
  aggregateValues StringToNumber_unused mixed_keys (aggregate_token Min)
  = Returns [(str "1", 4%float); (str "2", 1%float);
             (str "b", 2%float); (str "a", 4%float)]
  /\ map fst [(str "1", 4%float); (str "2", 1%float);
              (str "b", 2%float); (str "a", 4%float)]
     <> first_seen (map key (concat mixed_keys)).
Proof. split; [reflexivity | vm_compute; discriminate]. Qed.

(* ================================================================= *)
(** ** The render-metadata builder and the grouping passes *)

Section Rendering.

Variable StringToNumber : jsstring -> number.

Lemma createGroupRenderMetadata_shape (groupId : jsstring) (expanded : bool)
    (runsInGroup : list SingleRunData) (aggregateFunction : jsstring)
    (groupValue : RunGroupByValueType) (isRemainingRowsGroup : bool)
    (out : list RenderMetadata) :
  createGroupRenderMetadata StringToNumber groupId expanded runsInGroup
    aggregateFunction groupValue isRemainingRowsGroup = Returns out ->
  exists aggregatedMetrics aggregatedParams,
    aggregateValues StringToNumber
      (map (fun run => map metric_entity (metrics run)) runsInGroup)
      aggregateFunction = Returns aggregatedMetrics
    /\ aggregateValues StringToNumber
         (map (fun run => map param_entity (params run)) runsInGroup)
         aggregateFunction = Returns aggregatedParams
    /\ out
       = GroupRow {| groupId := groupId;
                     expanderOpen := expanded;
                     runUuids := map (fun run => run_uuid (runInfo run))
                                     runsInGroup;
                     aggregatedMetricEntities := aggregatedMetrics;
                     aggregatedParamEntities := aggregatedParams;
                     group_value := groupValue |}
         :: (if expanded
             then map (fun run => RunRow (run_row groupId isRemainingRowsGroup run))
                      runsInGroup
             else []).
Proof.
  unfold createGroupRenderMetadata.
  destruct (aggregateValues StringToNumber
              (map (fun run => map metric_entity (metrics run)) runsInGroup)
              aggregateFunction) as [am|]; simpl; [|discriminate].
  destruct (aggregateValues StringToNumber
              (map (fun run => map param_entity (params run)) runsInGroup)
              aggregateFunction) as [ap|]; simpl; [|discriminate].
  intros [= <-]. exists am, ap. repeat split.
  now destruct expanded.
Qed.



(** The loop over the group keys appends one rendered group per key. *)
Lemma render_groups_loop {G} (groups : props G)
    (render : jsstring -> G -> outcome (list RenderMetadata))
    (ks : list jsstring) (acc out : list RenderMetadata) :
  for_each
    (fun result k =>
       match get_own k groups with
       | Some g => rows <- render k g ;; Returns (result ++ rows)
       | None => Throws TypeError
       end) ks acc = Returns out ->
  exists chunks,
    out = acc ++ concat chunks
    /\ Forall2
         (fun chunk k =>
            exists g, get_own k groups = Some g /\ render k g = Returns chunk)
         chunks ks.
Proof.
  revert acc; induction ks as [|k ks IH]; intros acc; simpl.
  - intros [= <-]. exists []. simpl. rewrite app_nil_r. split; constructor.
  - destruct (get_own k groups) as [g|] eqn:Hg; [|discriminate].
    destruct (render k g) as [rows|] eqn:R; simpl; [|discriminate].
    intros H. destruct (IH _ H) as (chunks & -> & HF).
    exists (rows :: chunks). simpl. rewrite app_assoc. split; auto.
    constructor; auto. exists g. auto.
Qed.

Lemma remaining_group_shape (result : list RenderMetadata)
    (ungroupedRuns : list SingleRunData) (groupsExpanded : props bool)
    (aggregateFunction groupByMode groupByKey : jsstring)
    (out : list RenderMetadata) :
  remaining_group StringToNumber result ungroupedRuns groupsExpanded
    aggregateFunction groupByMode groupByKey = Returns out ->
  exists rest,
    out = result ++ rest
    /\ match ungroupedRuns with
       | [] => rest = []
       | _ :: _ =>
           createGroupRenderMetadata StringToNumber
             (createGroupId groupByMode groupByKey None)
             (remaining_group_expanded groupsExpanded
                (createGroupId groupByMode groupByKey None))
             ungroupedRuns aggregateFunction RUN_GROUP_REMAINING_RUNS_SYMBOL true
           = Returns rest
       end.
Proof.
  unfold remaining_group. destruct ungroupedRuns as [|r rs].
  - intros [= <-]. exists []. now rewrite app_nil_r.
  - destruct (createGroupRenderMetadata _ _ _ _ _ _ _) as [rows|];
      simpl; [|discriminate].
    intros [= <-]. exists rows. auto.
Qed.

Lemma createRunsGroupedByValue_shape
    (valueGetter : SingleRunData -> option jsstring)
    (runData : list SingleRunData) (groupsExpanded : props bool)
    (aggregateFunction groupByMode groupByKey : jsstring)
    (out : list RenderMetadata) :
  createRunsGroupedByValue StringToNumber valueGetter runData groupsExpanded
    aggregateFunction groupByMode groupByKey = Returns out ->
  exists groups ungroupedRuns chunks rest,
    bucketsByValue valueGetter runData = Returns (groups, ungroupedRuns)
    /\ out = concat chunks ++ rest
    /\ Forall2
         (fun chunk tagValue =>
            exists runsInGroup,
              get_own tagValue groups = Some runsInGroup
              /\ createGroupRenderMetadata StringToNumber
                   (createGroupId groupByMode groupByKey (Some tagValue))
                   (concrete_group_expanded groupsExpanded
                      (createGroupId groupByMode groupByKey (Some tagValue)))
                   runsInGroup aggregateFunction (GroupValue tagValue) false
                 = Returns chunk)
         chunks (keys groups)
    /\ match ungroupedRuns with
       | [] => rest = []
       | _ :: _ =>
           createGroupRenderMetadata StringToNumber
             (createGroupId groupByMode groupByKey None)
             (remaining_group_expanded groupsExpanded
                (createGroupId groupByMode groupByKey None))
             ungroupedRuns aggregateFunction RUN_GROUP_REMAINING_RUNS_SYMBOL true
           = Returns rest
       end.
Proof.
  unfold createRunsGroupedByValue.
  destruct (bucketsByValue valueGetter runData) as [[groups ungrouped]|];
    simpl; [|discriminate].
  match goal with
  | |- bind ?loop _ = _ -> _ => destruct loop as [result|] eqn:L
  end; simpl; [|discriminate].
  intros H.
  apply (render_groups_loop groups
           (fun k g => createGroupRenderMetadata StringToNumber
                         (createGroupId groupByMode groupByKey (Some k))
                         (concrete_group_expanded groupsExpanded
                            (createGroupId groupByMode groupByKey (Some k)))
                         g aggregateFunction (GroupValue k) false))
    in L as (chunks & -> & HF).
  apply remaining_group_shape in H as (rest & -> & Hrest).
  exists groups, ungrouped, chunks, rest. auto.
Qed.

Lemma createRunsGroupedByDataset_shape
    (runData : list SingleRunData) (groupsExpanded : props bool)
    (aggregateFunction groupByKey : jsstring)
    (out : list RenderMetadata) :
  createRunsGroupedByDataset StringToNumber runData groupsExpanded
    aggregateFunction groupByKey = Returns out ->
  exists chunks rest,
    out = concat chunks ++ rest
    /\ Forall2
         (fun chunk datasetDigest =>
            exists g,
              get_own datasetDigest (fst (bucketsByDataset runData)) = Some g
              /\ createGroupRenderMetadata StringToNumber
                   (createGroupId (mode_token Dataset) groupByKey
                      (Some datasetDigest))
                   (concrete_group_expanded groupsExpanded
                      (createGroupId (mode_token Dataset) groupByKey
                         (Some datasetDigest)))
                   (runs g) aggregateFunction (GroupDataset (group_dataset g))
                   false
                 = Returns chunk)
         chunks (keys (fst (bucketsByDataset runData)))
    /\ match snd (bucketsByDataset runData) with
       | [] => rest = []
       | _ :: _ =>
           createGroupRenderMetadata StringToNumber
             (createGroupId (mode_token Dataset) groupByKey None)
             (remaining_group_expanded groupsExpanded
                (createGroupId (mode_token Dataset) groupByKey None))
             (snd (bucketsByDataset runData)) aggregateFunction
             RUN_GROUP_REMAINING_RUNS_SYMBOL true
           = Returns rest
       end.
Proof.
  unfold createRunsGroupedByDataset.
  destruct (bucketsByDataset runData) as [groups ungrouped]. simpl.
  match goal with
  | |- bind ?loop _ = _ -> _ => destruct loop as [result|] eqn:L
  end; simpl; [|discriminate].
  intros H.
  apply (render_groups_loop groups
           (fun k g => createGroupRenderMetadata StringToNumber
                         (createGroupId (mode_token Dataset) groupByKey (Some k))
                         (concrete_group_expanded groupsExpanded
                            (createGroupId (mode_token Dataset) groupByKey
                               (Some k)))
                         (runs g) aggregateFunction
                         (GroupDataset (group_dataset g)) false))
    in L as (chunks & -> & HF).
  apply remaining_group_shape in H as (rest & -> & Hrest).
  exists chunks, rest. auto.
Qed.


(** C9: when the mode of the configuration is none of Tag, Param and
    Dataset, [getGroupedRowRenderMetadata] returns [null]; being a function of
    its arguments, it does nothing else. *)
Theorem getGroupedRowRenderMetadata_unknown_mode
    (groupsExpanded : props bool) (runData : list SingleRunData)
    (groupByConfig : GroupByConfig) :
  (forall m, mode groupByConfig <> mode_token m) ->
  getGroupedRowRenderMetadata StringToNumber groupsExpanded runData groupByConfig
  = Returns None.
Proof.
  intros H. unfold getGroupedRowRenderMetadata.
  rewrite (proj2 (string_eqb_neq _ _) (H Tag)).
  rewrite (proj2 (string_eqb_neq _ _) (H Param)).
  rewrite (proj2 (string_eqb_neq _ _) (H Dataset)).
  reflexivity.
Qed.

End Rendering.

(* ================================================================= *)
(** ** Grouping by dataset *)

Lemma own_entries_no_index {V} (o : props V) :
  (forall e, In e o -> is_array_index (fst e) = false) ->
  own_entries o = o.
Proof.
  intros H. unfold own_entries.
  assert (E1 : filter (fun e => is_array_index (fst e)) o = []).
  { induction o as [|e o IH]; simpl; auto.
    rewrite (H e) by now left. apply IH. intros e' He'. apply H. now right. }
  assert (E2 : filter (fun e => negb (is_array_index (fst e))) o = o).
  { clear E1. induction o as [|e o IH]; simpl; auto.
    rewrite (H e) by now left. simpl. f_equal. apply IH.
    intros e' He'. apply H. now right. }
  now rewrite E1, E2.
Qed.

Lemma uniqBy_identifier_spec (l : list identified_dataset)
    (seen : list jsstring) :
  NoDup (map identifier (uniqBy_identifier seen l))
  /\ (forall k, In k (map identifier (uniqBy_identifier seen l))
                <-> In k (map identifier l) /\ ~ In k seen)
  /\ (forall x, In x (uniqBy_identifier seen l) -> In x l).
Proof.
  revert seen; induction l as [|x l IH]; intros seen; simpl.
  - split; [constructor|]. split; [tauto|auto].
  - destruct (includes seen (identifier x)) eqn:E.
    + destruct (IH seen) as (Hnd & Hin & Hsub). apply includes_In in E.
      split; [exact Hnd|]. split.
      * intros k. rewrite Hin. split; [tauto|].
        intros [[<-|H] Hs]; [contradiction|tauto].
      * intros y Hy. right. auto.
    + destruct (IH (identifier x :: seen)) as (Hnd & Hin & Hsub).
      apply includes_not_In in E. simpl. split; [|split].
      * constructor; auto. intros H. apply Hin in H. simpl in H. tauto.
      * intros k. rewrite Hin. simpl. split.
        -- intros [<-|[H1 H2]]; [tauto|]. split; [tauto|]. tauto.
        -- intros [[<-|H] Hs]; auto.
           destruct (string_eqb_spec (identifier x) k) as [->|Hne]; auto.
           right. tauto.
      * intros y [<-|H]; auto.
Qed.

Lemma keyBy_identifier_loop (l : list identified_dataset)
    (o : props identified_dataset) :
  NoDup (map identifier l) ->
  (forall x, In x l -> ~ In (identifier x) (map fst o)) ->
  fold_left (fun o x => set_own (identifier x) x o) l o
  = o ++ map (fun x => (identifier x, x)) l.
Proof.
  revert o; induction l as [|x l IH]; intros o Hnd Hfresh; simpl.
  - now rewrite app_nil_r.
  - inversion Hnd as [|? ? Hx Hnd']; subst.
    rewrite set_own_absent
      by (apply get_own_None, Hfresh; now left).
    rewrite IH; auto.
    + now rewrite <- app_assoc.
    + intros y Hy. rewrite map_app, in_app_iff. simpl.
      intros [H|[H|[]]].
      * apply (Hfresh y); [now right|exact H].
      * apply Hx. rewrite H. now apply in_map.
Qed.

Lemma getUniqueDatasets_identifiers (runData : list SingleRunData) :
  NoDup (map identifier (getUniqueDatasets runData))
  /\ (forall k, In k (map identifier (getUniqueDatasets runData))
                <-> In k (flat_map identifiers runData))
  /\ (forall x, In x (getUniqueDatasets runData) ->
        exists run d, In run runData /\ In d (datasets run)
                      /\ x = identified d).
Proof.
  unfold getUniqueDatasets.
  set (all := flat_map _ runData).
  assert (Hall : map identifier all = flat_map identifiers runData).
  { unfold all, identifiers. induction runData as [|r rs IH]; simpl; auto.
    rewrite map_app, IH, map_map. reflexivity. }
  destruct (uniqBy_identifier_spec all []) as (Hnd & Hin & Hsub).
  repeat split; auto.
  - intros H. apply Hin in H. rewrite <- Hall. tauto.
  - intros H. apply Hin. rewrite Hall. simpl. tauto.
  - intros x Hx. apply Hsub in Hx. unfold all in Hx.
    apply in_flat_map in Hx as (run & Hrun & Hx).
    apply in_map_iff in Hx as (d & <- & Hd). exists run, d. auto.
Qed.

Lemma identifier_not_array_index (d : DatasetEntity) :
  is_array_index (dataset_identifier d) = false.
Proof. apply full_stop_not_array_index. Qed.

Lemma initial_groups_spec (runData : list SingleRunData) :
  mapValues (keyBy_identifier (getUniqueDatasets runData))
    (fun d => {| group_dataset := the_dataset d; runs := [] |})
  = initial_groups runData.
Proof.
  destruct (getUniqueDatasets_identifiers runData) as (Hnd & _ & Hsub).
  unfold mapValues, keyBy_identifier, initial_groups.
  rewrite keyBy_identifier_loop by (auto; intros x _ []).
  simpl. rewrite own_entries_no_index.
  - rewrite map_map. reflexivity.
  - intros e He. apply in_map_iff in He as (x & <- & Hx). simpl.
    destruct (Hsub x Hx) as (run & d & _ & _ & ->). simpl.
    apply identifier_not_array_index.
Qed.

Lemma includes_run_In (l : list SingleRunData) (run : SingleRunData) :
  includes_run l run = true <-> In (object_id run) (map object_id l).
Proof.
  unfold includes_run. rewrite existsb_exists, in_map_iff.
  split; intros (r & H1 & H2).
  - apply Nat.eqb_eq in H2. eauto.
  - exists r. split; auto. now apply Nat.eqb_eq.
Qed.

Lemma includes_run_snoc (l : list SingleRunData) (run : SingleRunData) :
  includes_run (l ++ [run]) run = true.
Proof.
  apply includes_run_In. rewrite map_app, in_app_iff. right. now left.
Qed.

Lemma bucket_dataset_loop (run : SingleRunData) (ids : list jsstring)
    (groups : props dataset_group) (k : jsstring) :
  get_own k (fold_left (bucket_dataset run) ids groups)
  = option_map (with_run run ids k) (get_own k groups).
Proof.
  revert groups; induction ids as [|id ids IH]; intros groups; simpl.
  - destruct (get_own k groups) as [[d rs]|]; simpl; auto.
    unfold with_run. simpl. now rewrite app_nil_r.
  - rewrite IH. unfold bucket_dataset.
    destruct (string_eqb_spec k id) as [->|Hne].
    + destruct (get_own id groups) as [g|] eqn:G; simpl.
      * destruct (includes_run (runs g) run) eqn:I; simpl.
        -- rewrite G. simpl. unfold with_run. f_equal. f_equal.
           unfold includes. simpl. now rewrite I, !andb_false_r.
        -- rewrite get_own_set_own_same. simpl. unfold with_run. simpl.
           rewrite includes_run_snoc, andb_false_r, app_nil_r.
           unfold includes. simpl. rewrite string_eqb_refl, I. reflexivity.
      * now rewrite G.
    + match goal with
      | |- option_map _ (get_own k ?G1) = _ =>
          assert (E1 : get_own k G1 = get_own k groups)
      end.
      { destruct (get_own id groups) as [g|]; auto.
        destruct (negb _); auto. now apply get_own_set_own_other. }
      rewrite E1. destruct (get_own k groups) as [g|]; simpl; auto.
      unfold with_run. f_equal. f_equal. unfold includes. simpl.
      apply string_eqb_neq in Hne. now rewrite Hne.
Qed.


Lemma bucket_run_datasets_step (groups : props dataset_group)
    (ungrouped : list SingleRunData) (run : SingleRunData) :
  bucket_run_datasets (groups, ungrouped) run
  = (fold_left (bucket_dataset run) (identifiers run) groups,
     ungrouped ++ (if no_datasets run then [run] else [])).
Proof.
  unfold bucket_run_datasets, identifiers, no_datasets.
  destruct (datasets run); simpl; now rewrite ?app_nil_r.
Qed.

(** The loop over the runs, taken apart: the buckets and the ungrouped
    runs. *)
Lemma bucket_run_datasets_loop (runData : list SingleRunData)
    (groups : props dataset_group) (ungrouped : list SingleRunData) :
  fold_left bucket_run_datasets runData (groups, ungrouped)
  = (fold_left (fun g run => fold_left (bucket_dataset run) (identifiers run) g)
               runData groups,
     ungrouped ++ filter no_datasets runData).
Proof.
  revert groups ungrouped; induction runData as [|run rs IH];
    intros groups ungrouped; cbn [fold_left filter].
  - now rewrite app_nil_r.
  - rewrite bucket_run_datasets_step, IH.
    destruct (no_datasets run); simpl; now rewrite <- ?app_assoc, ?app_nil_r.
Qed.


Lemma buckets_loop (seen : list SingleRunData)
    (groups0 : props dataset_group) (k : jsstring) :
  (forall g0, get_own k groups0 = Some g0 -> runs g0 = []) ->
  match get_own k groups0 with
  | Some g0 =>
      exists g,
        get_own k (fold_left (fun g run =>
                                fold_left (bucket_dataset run)
                                          (identifiers run) g)
                             seen groups0) = Some g
        /\ group_dataset g = group_dataset g0
        /\ bucket_ok seen k g
  | None =>
      get_own k (fold_left (fun g run =>
                              fold_left (bucket_dataset run)
                                        (identifiers run) g)
                           seen groups0) = None
  end.
Proof.
  intros Hempty. induction seen as [|run seen IH] using rev_ind.
  - simpl. destruct (get_own k groups0) as [g0|] eqn:G; auto.
    exists g0. unfold bucket_ok. rewrite (Hempty g0 eq_refl). simpl.
    split; [reflexivity|]. split; [reflexivity|].
    split; [constructor|]. split; [intros r []|intros r []].
  - rewrite fold_left_app. simpl. rewrite bucket_dataset_loop.
    destruct (get_own k groups0) as [g0|].
    + destruct IH as (g & -> & Hd & Hnd & Hmem & Hcov). simpl.
      eexists. split; [reflexivity|]. split; [exact Hd|].
      unfold bucket_ok, with_run. simpl.
      destruct (includes (identifiers run) k) eqn:I; simpl.
      * apply includes_In in I.
        destruct (includes_run (runs g) run) eqn:R; simpl.
        -- rewrite app_nil_r. split; [exact Hnd|]. split.
           ++ intros r Hr. destruct (Hmem r Hr). split; auto.
              apply in_or_app. now left.
           ++ intros r Hr Hk. apply in_app_or in Hr as [Hr|[<-|[]]]; auto.
              now apply includes_run_In.
        -- assert (Hfresh : ~ In (object_id run) (map object_id (runs g))).
           { intros H. apply includes_run_In in H. congruence. }
           split; [|split].
           ++ rewrite map_app. simpl. apply NoDup_app; auto.
              ** repeat constructor. simpl. tauto.
              ** intros x Hx [<-|[]]. contradiction.
           ++ intros r Hr. apply in_app_or in Hr as [Hr|[<-|[]]].
              ** destruct (Hmem r Hr). split; auto.
                 apply in_or_app. now left.
              ** split; auto. apply in_or_app. right. now left.
           ++ intros r Hr Hk. rewrite map_app, in_app_iff.
              apply in_app_or in Hr as [Hr|[<-|[]]]; auto.
              right. now left.
      * apply includes_not_In in I. rewrite app_nil_r.
        split; [exact Hnd|]. split.
        -- intros r Hr. destruct (Hmem r Hr). split; auto.
           apply in_or_app. now left.
        -- intros r Hr Hk. apply in_app_or in Hr as [Hr|[<-|[]]]; auto.
           contradiction.
    + now rewrite IH.
Qed.

Lemma bucketsByDataset_spec (runData : list SingleRunData) :
  bucketsByDataset runData
  = (fold_left (fun g run => fold_left (bucket_dataset run) (identifiers run) g)
               runData (initial_groups runData),
     filter no_datasets runData).
Proof.
  unfold bucketsByDataset. cbv zeta.
  now rewrite initial_groups_spec, bucket_run_datasets_loop.
Qed.

Lemma initial_groups_get (runData : list SingleRunData) (k : jsstring) :
  (forall g0, get_own k (initial_groups runData) = Some g0 ->
     runs g0 = [] /\ dataset_identifier (group_dataset g0) = k)
  /\ (In k (flat_map identifiers runData) ->
      exists g0, get_own k (initial_groups runData) = Some g0).
Proof.
  destruct (getUniqueDatasets_identifiers runData) as (Hnd & Hin & Hsub).
  split.
  - intros g0 G. apply get_own_In in G. unfold initial_groups in G.
    apply in_map_iff in G as (x & [= <- <-] & Hx). simpl. split; auto.
    destruct (Hsub x Hx) as (run & d & _ & _ & ->). reflexivity.
  - intros Hk. apply Hin in Hk.
    destruct (get_own k (initial_groups runData)) as [g0|] eqn:G; eauto.
    apply get_own_None in G. exfalso. apply G.
    unfold initial_groups. now rewrite map_map.
Qed.


Lemma split_at_last_full_stop (n1 n2 g1 g2 : jsstring) :
  ~ In full_stop g1 -> ~ In full_stop g2 ->
  n1 ++ full_stop :: g1 = n2 ++ full_stop :: g2 ->
  n1 = n2 /\ g1 = g2.
Proof.
  intros H1 H2. revert n2.
  induction n1 as [|c n1 IH]; intros [|c' n2]; simpl; intros E.
  - injection E as ->. auto.
  - injection E as <- ->. exfalso. apply H1, in_or_app. right. now left.
  - injection E as -> <-. exfalso. apply H2, in_or_app. right. now left.
  - injection E as -> E. destruct (IH n2 E) as [-> ->]. auto.
Qed.

(** The identifier tells the dataset when digests hold no full stop. *)
Lemma dataset_identifier_injective (d1 d2 : DatasetEntity) :
  ~ In full_stop (digest d1) -> ~ In full_stop (digest d2) ->
  dataset_identifier d1 = dataset_identifier d2 -> d1 = d2.
Proof.
  destruct d1 as [n1 g1], d2 as [n2 g2]. unfold dataset_identifier. simpl.
  intros H1 H2 E.
  destruct (split_at_last_full_stop n1 n2 g1 g2 H1 H2 E) as [-> ->].
  reflexivity.
Qed.

(* ================================================================= *)
(** ** Grouping by tag or parameter value *)

Section ByValue.

Variable valueGetter : SingleRunData -> option jsstring.

Lemma bucket_run_step (groups : props (list SingleRunData))
    (ungrouped : list SingleRunData) (run : SingleRunData) :
  bucket_run valueGetter (groups, ungrouped) run
  = if has_value valueGetter run
    then groups' <- push_to groups (grouping_value valueGetter run) run ;;
         Returns (groups', ungrouped)
    else Returns (groups, ungrouped ++ [run]).
Proof.
  unfold bucket_run, has_value, grouping_value, truthy.
  now destruct (valueGetter run) as [[|c v]|].
Qed.

Lemma bucket_run_loop (runData : list SingleRunData)
    (groups : props (list SingleRunData)) (ungrouped : list SingleRunData) :
  for_each (bucket_run valueGetter) runData (groups, ungrouped)
  = groups' <- for_each (fun o run => push_to o (grouping_value valueGetter run) run)
                        (filter (has_value valueGetter) runData) groups ;;
    Returns (groups',
             ungrouped ++ filter (fun run => negb (has_value valueGetter run)) runData).
Proof.
  revert groups ungrouped; induction runData as [|run rs IH];
    intros groups ungrouped; cbn [for_each filter].
  - simpl. now rewrite app_nil_r.
  - rewrite bucket_run_step.
    destruct (has_value valueGetter run); cbn [negb for_each bind].
    + destruct (push_to groups (grouping_value valueGetter run) run) as [g|];
        cbn [bind]; auto.
    + rewrite IH. now rewrite <- app_assoc.
Qed.

(** The buckets: it throws when a value is the name of a member of
    [Object.prototype]; otherwise the runs with a value are collected under
    their values, in the order of first occurrence, and the others are
    ungrouped. *)
Lemma bucketsByValue_spec (runData : list SingleRunData) :
  bucketsByValue valueGetter runData
  = if existsb (fun run => inherited (grouping_value valueGetter run))
               (filter (has_value valueGetter) runData)
    then Throws TypeError
    else Returns (collected (grouping_value valueGetter) (fun run => run)
                            (filter (has_value valueGetter) runData),
                  filter (fun run => negb (has_value valueGetter run)) runData).
Proof.
  unfold bucketsByValue. rewrite bucket_run_loop, push_to_loop.
  now destruct (existsb _ _).
Qed.

End ByValue.

(** Collecting a list under the keys of its elements rearranges it. *)
Lemma collected_perm {A} (kf : A -> jsstring) (l : list A) :
  Permutation (concat (map snd (collected kf (fun x => x) l))) l.
Proof.
  unfold collected. rewrite map_map. simpl.
  assert (H : forall ks, NoDup ks ->
            Permutation
              (concat (map (fun k => members kf (fun x => x) k l) ks))
              (filter (fun x => includes ks (kf x)) l)).
  { intros ks Hnd. induction ks as [|k ks IH]; simpl.
    - induction l; simpl; auto.
    - inversion Hnd as [|? ? Hk Hnd']; subst.
      rewrite (IH Hnd'). unfold members. rewrite map_id.
      clear IH. induction l as [|x l IHl]; simpl; auto.
      unfold includes in *. simpl.
      rewrite (string_eqb_sym (kf x) k).
      destruct (string_eqb_spec k (kf x)) as [->|Hne]; simpl.
      + replace (existsb (string_eqb (kf x)) ks) with false.
        * now constructor.
        * symmetry. apply not_true_iff_false. intros H.
          apply Hk. apply existsb_exists in H as (y & Hy & E).
          apply string_eqb_eq in E. now subst.
      + destruct (existsb (string_eqb (kf x)) ks); simpl; auto.
        rewrite <- Permutation_middle. now constructor. }
  rewrite (H _ (first_seen_NoDup _)).
  replace (filter _ l) with l; auto.
  symmetry. apply forallb_filter_id. apply forallb_forall. intros x Hx.
  apply includes_In, first_seen_In. now apply in_map.
Qed.

(** When the bucketing of [createRunsGroupedByValue] returns, its groups and
    the ungrouped runs partition the run list: a run with a non-empty value
    is in the group of that value, any other run is ungrouped. *)
Lemma bucketsByValue_partition
    (valueGetter : SingleRunData -> option jsstring)
    (runData : list SingleRunData)
    (groups : props (list SingleRunData)) (ungrouped : list SingleRunData) :
  bucketsByValue valueGetter runData = Returns (groups, ungrouped) ->
  Permutation (concat (map snd groups) ++ ungrouped) runData
  /\ NoDup (map fst groups)
  /\ (forall k members, In (k, members) groups ->
        members
        = filter (fun run => string_eqb (grouping_value valueGetter run) k)
                 (filter (has_value valueGetter) runData))
  /\ ungrouped = filter (fun run => negb (has_value valueGetter run)) runData.
Proof.
  rewrite bucketsByValue_spec. destruct (existsb _ _); [discriminate|].
  intros [= <- <-]. split; [|split; [|split]]; auto.
  - rewrite collected_perm. apply filter_split_perm.
  - unfold collected. rewrite map_map. simpl. rewrite map_id.
    apply first_seen_NoDup.
  - intros k members Hin. unfold collected in Hin.
    apply in_map_iff in Hin as (k' & [= <- <-] & _).
    unfold members. apply map_id.
Qed.

(* ================================================================= *)
(** ** Worked examples of the grouping passes *)


(** The buckets of the example: the run is once under each of its two
    datasets, and the other run is ungrouped. *)
Example dataset_buckets_example :
  map (fun e => (fst e, map object_id (runs (snd e))))
      (fst (bucketsByDataset [run_with_datasets; run_without_datasets]))
  = [(str "train.d1", [1]); (str "eval.d2", [1])]
  /\ map object_id
         (snd (bucketsByDataset [run_with_datasets; run_without_datasets]))
     = [2].
Proof. split; reflexivity. Qed.

Section GroupingClaims.

Variable StringToNumber : jsstring -> number.

(** C5 (the code at the failing input, and the claim away from it): grouping
    by the tag [env] a run whose value of that tag is [constructor] throws a
    [TypeError]; the run is placed in no group.  When no value of a run is the
    name of a member of [Object.prototype], the bucketing returns, and its
    groups and the ungrouped runs partition the run list: the names of the
    groups are distinct, a group holds the runs whose value is its name, in
    order, and the runs without a value, or with the empty one, are the
    ungrouped runs. *)
Theorem grouping_by_tag_throws_on_inherited_value :
  getGroupedRowRenderMetadata StringToNumber [] [run_tagged_constructor]
    group_by_env
  = Throws TypeError
  /\ (forall valueGetter runData,
        (forall run, In run runData -> has_value valueGetter run = true ->
           inherited (grouping_value valueGetter run) = false) ->
        exists groups ungrouped,
          bucketsByValue valueGetter runData = Returns (groups, ungrouped)
          /\ Permutation (concat (map snd groups) ++ ungrouped) runData
          /\ NoDup (map fst groups)
          /\ (forall k members, In (k, members) groups ->
                members
                = filter (fun run =>
                            string_eqb (grouping_value valueGetter run) k)
                         (filter (has_value valueGetter) runData))
          /\ ungrouped
             = filter (fun run => negb (has_value valueGetter run)) runData).
Proof.
  split; [reflexivity|].
  intros valueGetter runData Hplain.
  assert (E : bucketsByValue valueGetter runData
              = Returns (collected (grouping_value valueGetter)
                                   (fun run => run)
                                   (filter (has_value valueGetter) runData),
                         filter (fun run => negb (has_value valueGetter run))
                                runData)).
  { rewrite bucketsByValue_spec.
    replace (existsb _ _) with false; auto.
    symmetry. apply not_true_iff_false. intros H.
    apply existsb_exists in H as (run & Hrun & Hi).
    apply filter_In in Hrun as [Hrun Hv].
    rewrite (Hplain run Hrun Hv) in Hi. discriminate. }
  eexists. eexists. split; [exact E|].
  now apply bucketsByValue_partition.
Qed.

(** With an ordinary value the same pass gives the group of the value: its
    header and, the state map being empty, the row of the run. *)
Example grouping_by_tag_example :
  option_map (map isGroup)
    (match getGroupedRowRenderMetadata StringToNumber []
             [run_with_datasets; run_without_datasets] group_by_env with
     | Returns rows => rows
     | Throws _ => None
     end)
  = Some [true; false; true].
Proof. reflexivity. Qed.

End GroupingClaims.


Lemma getGroupedRowRenderMetadata_unknown_mode_witness :
  getGroupedRowRenderMetadata StringToNumber_unused [] [run_with_datasets]
    {| mode := str "metric";
       aggregateFunction := aggregate_token Min;
       groupByData := str "loss" |}
  = Returns None.
Proof.
  apply (getGroupedRowRenderMetadata_unknown_mode StringToNumber_unused).
  intros m. destruct m; discriminate.
Defined.

(* ================================================================= *)
(** * Further properties *)

(** ** The grouping-key codec, read from the key *)

(** A match of [p+] splits the input into the run it took and the rest. *)
Lemma re_plus_sound {R} (p : N -> bool) (s : jsstring)
    (k : jsstring -> jsstring -> option R) (r : R) :
  re_plus p s k = Some r ->
  exists cap rest,
    s = cap ++ rest /\ cap <> [] /\ forallb p cap = true /\ k cap rest = Some r.
Proof.
  revert k; induction s as [|c s IH]; intros k; simpl; [discriminate|].
  destruct (p c) eqn:Hc; [|discriminate].
  destruct (re_plus p s (fun cap rest => k (c :: cap) rest)) as [r'|] eqn:E.
  - intros [= <-]. destruct (IH _ E) as (cap & rest & -> & _ & Hall & Hk).
    exists (c :: cap), rest. simpl. rewrite Hc, Hall. repeat split; auto.
    discriminate.
  - intros Hk. exists [c], s. simpl. rewrite Hc. repeat split; auto.
    discriminate.
Qed.

(** The last group of the pattern, behind which nothing can fail, takes the
    longest run. *)
Lemma re_plus_last {R} (p : N -> bool) (s : jsstring)
    (F : jsstring -> R) (r : R) :
  re_plus p s (fun cap _ => Some (F cap)) = Some r ->
  exists cap rest,
    s = cap ++ rest /\ cap <> [] /\ forallb p cap = true /\ r = F cap
    /\ match rest with [] => True | c :: _ => p c = false end.
Proof.
  revert F r; induction s as [|c s IH]; intros F r; simpl; [discriminate|].
  destruct (p c) eqn:Hc; [|discriminate].
  destruct (re_plus p s (fun cap _ => Some (F (c :: cap)))) as [r'|] eqn:E.
  - intros [= <-].
    destruct (IH (fun cap => F (c :: cap)) r' E)
      as (cap & rest & -> & _ & Hall & -> & Hrest).
    exists (c :: cap), rest. simpl. rewrite Hc, Hall. repeat split; auto.
    discriminate.
  - intros [= <-]. exists [c], s. simpl. rewrite Hc. repeat split; auto.
    + discriminate.
    + destruct s as [|c' s']; auto. simpl in E.
      destruct (p c'); auto.
      destruct (re_plus p s' _); discriminate.
Qed.

Lemma re_char_sound {R} (p : N -> bool) (s : jsstring)
    (k : jsstring -> option R) (r : R) :
  re_char p s k = Some r ->
  exists c rest, s = c :: rest /\ p c = true /\ k rest = Some r.
Proof.
  destruct s as [|c rest]; simpl; [discriminate|].
  destruct (p c) eqn:Hc; [|discriminate]. eauto.
Qed.

Lemma is_full_stop_eq (c : N) : is_full_stop c = true -> c = full_stop.
Proof. apply N.eqb_eq. Qed.

(** What a match of the pattern at the start of [s] says of [s]. *)
Lemma groupByKey_pattern_here_sound (s g1 g2 g3 : jsstring) :
  groupByKey_pattern_here s = Some (g1, g2, g3) ->
  g1 <> [] /\ forallb is_lower g1 = true
  /\ g2 <> [] /\ forallb is_lower g2 = true
  /\ g3 <> [] /\ forallb is_dot g3 = true
  /\ exists after,
       s = g1 ++ full_stop :: g2 ++ full_stop :: g3 ++ after
       /\ match after with [] => True | c :: _ => is_line_terminator c = true end.
Proof.
  unfold groupByKey_pattern_here. intros H.
  apply re_plus_sound in H as (c1 & r1 & -> & Hn1 & Hl1 & H).
  apply re_char_sound in H as (d1 & r2 & -> & Hd1 & H).
  apply is_full_stop_eq in Hd1. subst d1.
  apply re_plus_sound in H as (c2 & r3 & -> & Hn2 & Hl2 & H).
  apply re_char_sound in H as (d2 & r4 & -> & Hd2 & H).
  apply is_full_stop_eq in Hd2. subst d2.
  apply (re_plus_last is_dot r4 (fun g => (c1, c2, g))) in H
    as (c3 & r5 & -> & Hn3 & Hl3 & [= <- <- <-] & Hrest).
  repeat split; auto. exists r5. split; auto.
  destruct r5 as [|c r5]; auto. unfold is_dot in Hrest.
  now apply negb_false_iff in Hrest.
Qed.

Lemma groupByKey_match_sound (s : jsstring) (r : jsstring * jsstring * jsstring) :
  groupByKey_match s = Some r ->
  exists before rest, s = before ++ rest /\ groupByKey_pattern_here rest = Some r.
Proof.
  induction s as [|c s IH]; cbn [groupByKey_match].
  - discriminate.
  - destruct (groupByKey_pattern_here (c :: s)) as [r'|] eqn:E.
    + intros [= <-]. exists [], (c :: s). auto.
    + intros H. destruct (IH H) as (before & rest & -> & Hr).
      exists (c :: before), rest. auto.
Qed.

Lemma includes_mode_token (s : jsstring) :
  includes RunGroupingMode_values s = true -> exists m, s = mode_token m.
Proof.
  intros H. apply includes_In in H. simpl in H.
  destruct H as [<-|[<-|[<-|[]]]]; [exists Dataset|exists Tag|exists Param];
    reflexivity.
Qed.

Lemma includes_aggregate_token (s : jsstring) :
  includes RunGroupingAggregateFunction_values s = true ->
  exists f, s = aggregate_token f.
Proof.
  intros H. apply includes_In in H. simpl in H.
  destruct H as [<-|[<-|[<-|[]]]]; [exists Min|exists Max|exists Average];
    reflexivity.
Qed.

(** The pattern cannot start at a character that is not a lower-case
    letter, so such a prefix is skipped. *)
Lemma groupByKey_pattern_here_not_lower (c : N) (s : jsstring) :
  is_lower c = false -> groupByKey_pattern_here (c :: s) = None.
Proof. intros H. unfold groupByKey_pattern_here. simpl. now rewrite H. Qed.

Lemma groupByKey_match_skips (p s : jsstring) :
  (forall c, In c p -> is_lower c = false) ->
  groupByKey_match (p ++ s) = groupByKey_match s.
Proof.
  induction p as [|c p IH]; intros H; auto.
  simpl. rewrite groupByKey_pattern_here_not_lower by (apply H; now left).
  apply IH. intros c' Hc'. apply H. now right.
Qed.

(** X1: whatever [parseRunsGroupByKey] returns was in the key.  When the
    parse of a key gives a configuration, the mode is one of Tag, Param,
    Dataset, the aggregate function one of Min, Max, Average, the grouping
    data is not empty and holds no line terminator, and the key is the key
    [createRunsGroupByKey] builds from the three, after some prefix and
    before a rest that is empty or starts with a line terminator. *)
Theorem parseRunsGroupByKey_sound (groupByKey : jsstring)
    (config : GroupByConfig) :
  parseRunsGroupByKey (Some groupByKey) = Some config ->
  (exists m, mode config = mode_token m)
  /\ (exists f, aggregateFunction config = aggregate_token f)
  /\ groupByData config <> []
  /\ (forall c, In c (groupByData config) -> is_line_terminator c = false)
  /\ exists before after,
       groupByKey
       = before
         ++ createRunsGroupByKey (Some (mode config)) (groupByData config)
              (aggregateFunction config)
         ++ after
       /\ match after with
          | [] => True
          | c :: _ => is_line_terminator c = true
          end.
Proof.
  unfold parseRunsGroupByKey.
  destruct (negb (string_truthy groupByKey)); [discriminate|].
  destruct (groupByKey_match groupByKey) as [[[g1 g2] g3]|] eqn:M;
    [|discriminate].
  destruct (includes RunGroupingMode_values g1) eqn:I1; [|discriminate].
  destruct (includes RunGroupingAggregateFunction_values g2) eqn:I2;
    [|discriminate].
  simpl. intros [= <-]. simpl.
  apply groupByKey_match_sound in M as (before & rest & -> & M).
  apply groupByKey_pattern_here_sound in M
    as (Hn1 & _ & _ & _ & Hn3 & Hl3 & after & -> & Hafter).
  split; [now apply includes_mode_token|].
  split; [now apply includes_aggregate_token|].
  split; [exact Hn3|]. split.
  - intros c Hc. rewrite forallb_forall in Hl3. specialize (Hl3 c Hc).
    unfold is_dot in Hl3. now apply negb_true_iff in Hl3.
  - exists before, after. split; auto. f_equal.
    unfold createRunsGroupByKey.
    replace (string_truthy g1) with true by now destruct g1.
    cbn [join_dot]. rewrite <- !app_assoc. simpl. f_equal. f_equal.
    now rewrite <- app_assoc.
Qed.

Lemma parseRunsGroupByKey_sound_witness :
  (exists m, str "param" = mode_token m)
  /\ (exists f, str "max" = aggregate_token f)
  /\ str "lr" <> []
  /\ (forall c, In c (str "lr") -> is_line_terminator c = false)
  /\ exists before after,
       str "#param.max.lr" ++ [10%N]
       = before
         ++ createRunsGroupByKey (Some (str "param")) (str "lr") (str "max")
         ++ after
       /\ match after with
          | [] => True
          | c :: _ => is_line_terminator c = true
          end.
Proof.
  apply (parseRunsGroupByKey_sound (str "#param.max.lr" ++ [10%N])
           {| mode := str "param"; aggregateFunction := str "max";
              groupByData := str "lr" |}).
  reflexivity.
Defined.

(** X2: the pattern of [parseRunsGroupByKey] is not anchored at the start of
    the key.  Characters in front of a key that are not lower-case letters
    change nothing: the parse of the longer key is the parse of the key. *)
Theorem parseRunsGroupByKey_skips_prefix (prefix groupByKey : jsstring) :
  (forall c, In c prefix -> is_lower c = false) ->
  parseRunsGroupByKey (Some (prefix ++ groupByKey))
  = parseRunsGroupByKey (Some groupByKey).
Proof.
  intros H. unfold parseRunsGroupByKey.
  rewrite (groupByKey_match_skips prefix groupByKey H).
  destruct groupByKey as [|c k].
  - simpl. destruct (prefix ++ []); reflexivity.
  - replace (string_truthy (prefix ++ c :: k)) with true; auto.
    now destruct prefix.
Qed.

Lemma parseRunsGroupByKey_skips_prefix_witness :
  parseRunsGroupByKey (Some (str "1/ " ++ str "tag.min.env"))
  = parseRunsGroupByKey (Some (str "tag.min.env")).
Proof.
  apply (parseRunsGroupByKey_skips_prefix (str "1/ ") (str "tag.min.env")).
  intros c Hc. simpl in Hc.
  repeat (destruct Hc as [<-|Hc]; [reflexivity|]). contradiction.
Defined.

(** X3: [createRunsGroupByKey] gives different keys to different
    configurations.  Two keys built from modes in Tag, Param, Dataset and
    aggregate functions in Min, Max, Average are equal only if the modes, the
    aggregate functions and the grouping data are equal, whatever the
    grouping data hold. *)
Theorem createRunsGroupByKey_injective
    (m m' : RunGroupingMode) (f f' : RunGroupingAggregateFunction)
    (d d' : jsstring) :
  createRunsGroupByKey (Some (mode_token m)) d (aggregate_token f)
  = createRunsGroupByKey (Some (mode_token m')) d' (aggregate_token f') ->
  m = m' /\ f = f' /\ d = d'.
Proof.
  destruct m, m', f, f'; cbn; intros H; try discriminate H;
    injection H as ->; auto.
Qed.

Lemma createRunsGroupByKey_injective_witness :
  Param = Param /\ Average = Average /\ str "lr" = str "lr".
Proof.
  apply (createRunsGroupByKey_injective Param Param Average Average
           (str "lr") (str "lr")).
  reflexivity.
Defined.

(* ================================================================= *)
(** ** The value aggregator: keys, NaN and errors *)

(** NaN is absorbing for the sum and the quotient. *)
Lemma add_nan_l (x y : number) :
  PrimFloat.is_nan x = true -> PrimFloat.is_nan (PrimFloat.add x y) = true.
Proof.
  intros H. apply is_nan_Prim2SF in H. apply is_nan_Prim2SF.
  rewrite FloatAxioms.add_spec, H. reflexivity.
Qed.

Lemma add_nan_r (x y : number) :
  PrimFloat.is_nan y = true -> PrimFloat.is_nan (PrimFloat.add x y) = true.
Proof.
  intros H. apply is_nan_Prim2SF in H. apply is_nan_Prim2SF.
  rewrite FloatAxioms.add_spec, H. now destruct (Prim2SF x).
Qed.

Lemma div_nan_l (x y : number) :
  PrimFloat.is_nan x = true -> PrimFloat.is_nan (PrimFloat.div x y) = true.
Proof.
  intros H. apply is_nan_Prim2SF in H. apply is_nan_Prim2SF.
  rewrite FloatAxioms.div_spec, H. reflexivity.
Qed.

Lemma sum_nan (l : list number) (acc : number) :
  PrimFloat.is_nan acc = true \/ existsb PrimFloat.is_nan l = true ->
  PrimFloat.is_nan (fold_left (fun a v => PrimFloat.add a v) l acc) = true.
Proof.
  revert acc; induction l as [|x l IH]; intros acc; simpl.
  - intros [H|H]; [exact H|discriminate].
  - intros [H|H]; apply IH.
    + left. now apply add_nan_l.
    + apply orb_true_iff in H as [H|H]; [left|right; exact H].
      now apply add_nan_r.
Qed.

Lemma average_nan (l : list number) :
  existsb PrimFloat.is_nan l = true -> isNaN (average l) = true.
Proof.
  intros H. unfold average, isNaN. apply div_nan_l, sum_nan. now right.
Qed.

(** One NaN among the values makes each of the three aggregates NaN. *)
Lemma aggregate_of_nan (f : RunGroupingAggregateFunction) (l : list number) :
  existsb PrimFloat.is_nan l = true -> isNaN (aggregate_of f l) = true.
Proof.
  intros H. destruct f; simpl.
  - unfold Math_min. now rewrite (loop_nan min_step min_loop).
  - unfold Math_max. now rewrite (loop_nan max_step max_loop).
  - now apply average_nan.
Qed.

Lemma min_loop_In (b : number) (l : list number) :
  existsb PrimFloat.is_nan l = false -> In (min_loop b l) (b :: l).
Proof.
  revert b; induction l as [|x l IH]; intros b; simpl; auto.
  destruct (PrimFloat.is_nan x); simpl; [discriminate|]. intros H.
  destruct (IH (min_step b x) H) as [E|E]; auto.
  rewrite <- E. unfold min_step.
  destruct (is_neg_zero x && is_pos_zero b); auto.
  destruct (PrimFloat.ltb x b); auto.
Qed.

Lemma max_loop_In (b : number) (l : list number) :
  existsb PrimFloat.is_nan l = false -> In (max_loop b l) (b :: l).
Proof.
  revert b; induction l as [|x l IH]; intros b; simpl; auto.
  destruct (PrimFloat.is_nan x); simpl; [discriminate|]. intros H.
  destruct (IH (max_step b x) H) as [E|E]; auto.
  rewrite <- E. unfold max_step.
  destruct (is_pos_zero x && is_neg_zero b); auto.
  destruct (PrimFloat.ltb b x); auto.
Qed.

(** The variadic minimum or maximum of a list that is not empty and holds no
    NaN is one of its elements. *)
Lemma extremum_In (f : RunGroupingAggregateFunction) (l : list number) :
  f <> Average -> l <> [] -> existsb PrimFloat.is_nan l = false ->
  In (aggregate_of f l) l.
Proof.
  intros Hf Hl Hn. destruct l as [|x l]; [congruence|].
  simpl in Hn. apply orb_false_iff in Hn as [Hx Hn].
  destruct f; try congruence; simpl.
  - unfold Math_min. simpl. rewrite Hx, min_step_infinity by exact Hx.
    now apply min_loop_In.
  - unfold Math_max. simpl. rewrite Hx, max_step_neg_infinity by exact Hx.
    now apply max_loop_In.
Qed.

Lemma same_key_values_In (S : jsstring -> number) (e : AggregableEntity)
    (l : list AggregableEntity) :
  In e l -> In (Number S (value e)) (same_key_values S (key e) l).
Proof.
  intros H. unfold same_key_values, members.
  apply (in_map (fun e => Number S (value e))).
  apply filter_In. split; auto. apply string_eqb_refl.
Qed.

(** A call that returns was given one of the three functions. *)
Lemma aggregateValues_token (S : jsstring -> number)
    (valuesByRun : list (list AggregableEntity)) (aggregateFunction : jsstring)
    (out : list AggregatedEntity) :
  aggregateValues S valuesByRun aggregateFunction = Returns out ->
  exists f, aggregateFunction = aggregate_token f.
Proof.
  intros H.
  destruct (string_eqb_spec aggregateFunction (aggregate_token Min));
    [now exists Min|].
  destruct (string_eqb_spec aggregateFunction (aggregate_token Max));
    [now exists Max|].
  destruct (string_eqb_spec aggregateFunction (aggregate_token Average));
    [now exists Average|].
  exfalso.
  assert (E : aggregateValues S valuesByRun aggregateFunction
              = Throws (unsupported aggregateFunction)).
  { apply aggregateValues_unsupported. intros f. destruct f; assumption. }
  congruence.
Qed.

Lemma aggregateValues_key_seen (S : jsstring -> number)
    (f : RunGroupingAggregateFunction)
    (valuesByRun : list (list AggregableEntity))
    (out : list AggregatedEntity) (k : jsstring) :
  aggregateValues S valuesByRun (aggregate_token f) = Returns out ->
  In k (map fst out) -> In k (map key (concat valuesByRun)).
Proof.
  intros Hout Hk.
  rewrite (aggregateValues_keys S f valuesByRun out Hout) in Hk.
  apply filter_In in Hk as [Hk _].
  apply (Permutation_in _ (key_order_perm _)) in Hk.
  now apply first_seen_In.
Qed.

Section AggregatorProperties.

Variable StringToNumber : jsstring -> number.

(** X4: [aggregateValues] does not see where one run ends and the next
    begins.  With any aggregate function, supported or not, the call on the
    per-run lists is the call on the single list of all their entities in
    order: same list returned, same error thrown. *)
Theorem aggregateValues_of_concatenation
    (valuesByRun : list (list AggregableEntity)) (aggregateFunction : jsstring) :
  aggregateValues StringToNumber valuesByRun aggregateFunction
  = aggregateValues StringToNumber [concat valuesByRun] aggregateFunction.
Proof.
  unfold aggregateValues.
  rewrite !fold_left_concat, !for_each_concat. simpl.
  now rewrite app_nil_r.
Qed.

(** X5: the list [aggregateValues] returns holds no key twice. *)
Theorem aggregateValues_keys_distinct
    (valuesByRun : list (list AggregableEntity)) (aggregateFunction : jsstring)
    (out : list AggregatedEntity) :
  aggregateValues StringToNumber valuesByRun aggregateFunction = Returns out ->
  NoDup (map fst out).
Proof.
  intros Hout.
  destruct (aggregateValues_token _ _ _ _ Hout) as [f ->].
  rewrite (aggregateValues_keys StringToNumber f valuesByRun out Hout).
  apply NoDup_filter_keys.
  eapply Permutation_NoDup; [symmetry; apply key_order_perm|].
  apply first_seen_NoDup.
Qed.

(** X6: one value that is not a number removes its key.  When an entity of
    the per-run lists has a value whose conversion [Number(value)] is NaN (a
    NaN metric, or a parameter string that is not numeric), the list
    [aggregateValues] returns has no entry under the key of that entity,
    with Min, Max and Average alike and whatever the other values under the
    key are. *)
Theorem aggregateValues_drops_key_of_NaN_value
    (valuesByRun : list (list AggregableEntity)) (aggregateFunction : jsstring)
    (out : list AggregatedEntity) (e : AggregableEntity) :
  aggregateValues StringToNumber valuesByRun aggregateFunction = Returns out ->
  In e (concat valuesByRun) ->
  isNaN (Number StringToNumber (value e)) = true ->
  ~ In (key e) (map fst out).
Proof.
  intros Hout He Hnan Hin.
  destruct (aggregateValues_token _ _ _ _ Hout) as [f ->].
  apply in_map_iff in Hin as ([k v] & Hk & Hin). simpl in Hk. subst k.
  destruct (aggregateValues_entry StringToNumber f valuesByRun out (key e) v
              Hout Hin) as [Hv ->].
  rewrite aggregate_of_nan in Hv; [discriminate|].
  apply existsb_exists. exists (Number StringToNumber (value e)).
  split; auto. now apply same_key_values_In.
Qed.

(** X7: [aggregateValues] throws a [TypeError] exactly when the aggregate
    function is Average and some entity has a key that names a member of
    [Object.prototype]; with Min and Max, and with an unsupported function,
    it never does. *)
Theorem aggregateValues_TypeError
    (valuesByRun : list (list AggregableEntity)) (aggregateFunction : jsstring) :
  aggregateValues StringToNumber valuesByRun aggregateFunction = Throws TypeError
  <-> aggregateFunction = aggregate_token Average
      /\ exists e, In e (concat valuesByRun) /\ inherited (key e) = true.
Proof.
  split.
  - intros H.
    destruct (string_eqb_spec aggregateFunction (aggregate_token Average))
      as [->|Hne].
    + split; auto. rewrite aggregateValues_average in H.
      destruct (existsb _ _) eqn:E; [|discriminate].
      apply existsb_exists in E. exact E.
    + exfalso.
      destruct (string_eqb_spec aggregateFunction (aggregate_token Min))
        as [->|Hmin].
      { rewrite (aggregateValues_extremum StringToNumber Min) in H
          by discriminate. discriminate. }
      destruct (string_eqb_spec aggregateFunction (aggregate_token Max))
        as [->|Hmax].
      { rewrite (aggregateValues_extremum StringToNumber Max) in H
          by discriminate. discriminate. }
      assert (E : aggregateValues StringToNumber valuesByRun aggregateFunction
                  = Throws (unsupported aggregateFunction)).
      { apply aggregateValues_unsupported. intros f. destruct f; assumption. }
      rewrite E in H. discriminate.
  - intros [-> He]. rewrite aggregateValues_average.
    replace (existsb _ _) with true; auto.
    symmetry. now apply existsb_exists.
Qed.

(** X8: a minimum or a maximum is a value that was logged.  With Min or
    Max, every entry of the list [aggregateValues] returns holds, under its
    key, the converted value of some entity of the per-run lists that has
    this key. *)
Theorem aggregateValues_extremum_is_logged
    (f : RunGroupingAggregateFunction)
    (valuesByRun : list (list AggregableEntity))
    (out : list AggregatedEntity) (k : jsstring) (v : number) :
  f <> Average ->
  aggregateValues StringToNumber valuesByRun (aggregate_token f) = Returns out ->
  In (k, v) out ->
  exists e, In e (concat valuesByRun) /\ key e = k
            /\ Number StringToNumber (value e) = v.
Proof.
  intros Hf Hout Hin.
  destruct (aggregateValues_entry StringToNumber f valuesByRun out k v Hout Hin)
    as [Hv E].
  set (l := same_key_values StringToNumber k (concat valuesByRun)) in *.
  assert (Hn : existsb PrimFloat.is_nan l = false).
  { destruct (existsb PrimFloat.is_nan l) eqn:N; auto.
    apply (aggregate_of_nan f) in N. rewrite <- E in N. congruence. }
  assert (Hl : l <> []).
  { assert (Hk : In k (map key (concat valuesByRun))).
    { apply (aggregateValues_key_seen StringToNumber f valuesByRun out); auto.
      apply in_map_iff. now exists (k, v). }
    apply in_map_iff in Hk as (e & <- & He).
    intros El. pose proof (same_key_values_In StringToNumber e _ He) as Hi.
    fold l in Hi. rewrite El in Hi. contradiction. }
  pose proof (extremum_In f l Hf Hl Hn) as Hi. rewrite <- E in Hi.
  unfold l, same_key_values, members in Hi.
  apply in_map_iff in Hi as (e & Hv' & He).
  apply filter_In in He as [He Hk]. apply string_eqb_eq in Hk.
  exists e. auto.
Qed.

End AggregatorProperties.

Lemma aggregateValues_keys_distinct_witness :
  NoDup (map fst [(str "1", 4%float); (str "2", 1%float);
                  (str "b", 2%float); (str "a", 4%float)]).
Proof.
  apply (aggregateValues_keys_distinct StringToNumber_unused mixed_keys
           (aggregate_token Min)).
  reflexivity.
Defined.

(** The key [acc] has a NaN in the first run: its maximum is not listed. *)
Lemma aggregateValues_drops_key_of_NaN_value_witness :
  ~ In (key (entity "acc" PrimFloat.nan)) (map fst [(str "loss", 2%float)]).
Proof.
  apply (aggregateValues_drops_key_of_NaN_value StringToNumber_unused
           [[entity "acc" PrimFloat.nan]; [entity "acc" 1; entity "loss" 2]]
           (aggregate_token Max)).
  - reflexivity.
  - left. reflexivity.
  - reflexivity.
Defined.

Lemma aggregateValues_extremum_is_logged_witness :
  exists e, In e (concat [[entity "a" 2]; [entity "a" 4]])
            /\ key e = str "a"
            /\ Number StringToNumber_unused (value e) = 4%float.
Proof.
  apply (aggregateValues_extremum_is_logged StringToNumber_unused Max
           [[entity "a" 2]; [entity "a" 4]] [(str "a", 4%float)]).
  - discriminate.
  - reflexivity.
  - left. reflexivity.
Defined.

(* ================================================================= *)
(** ** The records of a grouping pass *)

Lemma headers_app (a b : list RenderMetadata) :
  headers (a ++ b) = headers a ++ headers b.
Proof. apply flat_map_app. Qed.

Lemma run_rows_app (a b : list RenderMetadata) :
  run_rows (a ++ b) = run_rows a ++ run_rows b.
Proof. apply flat_map_app. Qed.

Lemma headers_run_rows (f : SingleRunData -> RowRenderMetadata)
    (l : list SingleRunData) :
  headers (map (fun run => RunRow (f run)) l) = []
  /\ run_rows (map (fun run => RunRow (f run)) l) = map f l.
Proof.
  induction l as [|x l [IH1 IH2]]; simpl; auto.
  split; auto. now rewrite IH2.
Qed.

Lemma header_summary_In (h : RowGroupRenderMetadata)
    (rows : list RenderMetadata) :
  In h (headers rows) ->
  In (groupId h, group_value h, runUuids h) (map header_summary (headers rows)).
Proof. intros H. now apply (in_map header_summary) in H. Qed.

Lemma filter_negb_nil {A} (p : A -> bool) (l : list A) :
  match filter (fun x => negb (p x)) l with [] => true | _ :: _ => false end
  = forallb p l.
Proof.
  induction l as [|x l IH]; simpl; auto.
  destruct (p x); simpl; auto.
Qed.

Lemma filter_nil {A} (p : A -> bool) (l : list A) :
  match filter p l with [] => false | _ :: _ => true end = existsb p l.
Proof.
  induction l as [|x l IH]; simpl; auto.
  destruct (p x); simpl; auto.
Qed.

Lemma collected_keys {A B} (kf : A -> jsstring) (vf : A -> B) (l : list A) :
  map fst (collected kf vf l) = first_seen (map kf l).
Proof. unfold collected. rewrite map_map. simpl. apply map_id. Qed.

Lemma own_entries_get_own {G} (groups : props G) :
  NoDup (map fst groups) ->
  forall e, In e (own_entries groups) -> get_own (fst e) groups = Some (snd e).
Proof.
  intros Hnd [k g] He. apply (proj1 (own_entries_In _ _)) in He.
  now apply In_get_own.
Qed.

Section PassRecords.

Variable StringToNumber : jsstring -> number.

(** The header and the rows of one rendered group. *)
Lemma group_records (groupId : jsstring) (expanded : bool)
    (runsInGroup : list SingleRunData) (aggregateFunction : jsstring)
    (groupValue : RunGroupByValueType) (isRemainingRowsGroup : bool)
    (out : list RenderMetadata) :
  createGroupRenderMetadata StringToNumber groupId expanded runsInGroup
    aggregateFunction groupValue isRemainingRowsGroup = Returns out ->
  map header_summary (headers out)
  = [(groupId, groupValue, map uuid runsInGroup)]
  /\ run_rows out
     = if expanded then map (run_row groupId isRemainingRowsGroup) runsInGroup
       else [].
Proof.
  intros H.
  apply createGroupRenderMetadata_shape in H as (am & ap & _ & _ & ->).
  cbn [headers run_rows flat_map app].
  destruct (headers_run_rows (run_row groupId isRemainingRowsGroup) runsInGroup)
    as [E1 E2].
  fold (headers (if expanded
                 then map (fun run => RunRow (run_row groupId isRemainingRowsGroup run))
                          runsInGroup else [])).
  fold (run_rows (if expanded
                  then map (fun run => RunRow (run_row groupId isRemainingRowsGroup run))
                           runsInGroup else [])).
  destruct expanded; simpl.
  - rewrite E1, E2. auto.
  - auto.
Qed.

Lemma remaining_records (groupsExpanded : props bool)
    (aggregateFunction groupByMode groupByKey : jsstring)
    (ungroupedRuns : list SingleRunData) (rest : list RenderMetadata) :
  match ungroupedRuns with
  | [] => rest = []
  | _ :: _ =>
      createGroupRenderMetadata StringToNumber
        (createGroupId groupByMode groupByKey None)
        (remaining_group_expanded groupsExpanded
           (createGroupId groupByMode groupByKey None))
        ungroupedRuns aggregateFunction RUN_GROUP_REMAINING_RUNS_SYMBOL true
      = Returns rest
  end ->
  map header_summary (headers rest)
  = remaining_summary groupByMode groupByKey ungroupedRuns
  /\ run_rows rest
     = match ungroupedRuns with
       | [] => []
       | _ :: _ => remaining_rows groupsExpanded groupByMode groupByKey
                     ungroupedRuns
       end.
Proof.
  destruct ungroupedRuns as [|r rs].
  - intros ->. auto.
  - intros H. apply group_records in H as [H1 H2]. auto.
Qed.

(** The records of the concrete groups, taken from the entries of the
    object of groups in enumeration order. *)
Lemma rendered_entries {G} (groups : props G)
    (gid : jsstring -> jsstring) (expanded : jsstring -> bool)
    (rs : G -> list SingleRunData)
    (gv : jsstring -> G -> RunGroupByValueType)
    (aggregateFunction : jsstring)
    (es : props G) (chunks : list (list RenderMetadata)) :
  (forall e, In e es -> get_own (fst e) groups = Some (snd e)) ->
  Forall2
    (fun chunk k =>
       exists g, get_own k groups = Some g
                 /\ createGroupRenderMetadata StringToNumber (gid k)
                      (expanded k) (rs g) aggregateFunction (gv k g) false
                    = Returns chunk)
    chunks (map fst es) ->
  map header_summary (headers (concat chunks))
  = map (fun e => (gid (fst e), gv (fst e) (snd e), map uuid (rs (snd e)))) es
  /\ run_rows (concat chunks)
     = flat_map (fun e => if expanded (fst e)
                          then map (run_row (gid (fst e)) false) (rs (snd e))
                          else []) es.
Proof.
  revert chunks; induction es as [|[k g] es IH]; intros chunks Hes HF;
    simpl in HF; inversion HF as [|chunk k' chunks' ks' Hc HF']; subst.
  - auto.
  - destruct Hc as (g' & Hg & Hc). simpl.
    pose proof (Hes (k, g) (or_introl eq_refl)) as Hk. simpl in Hk.
    rewrite Hk in Hg. injection Hg as <-.
    apply group_records in Hc as [H1 H2].
    destruct (IH chunks' (fun e He => Hes e (or_intror He)) HF') as [I1 I2].
    rewrite headers_app, run_rows_app, map_app, H1, H2, I1, I2. auto.
Qed.

End PassRecords.

(** *** Group identifiers *)

Lemma has_value_not_empty (valueGetter : SingleRunData -> option jsstring)
    (run : SingleRunData) :
  has_value valueGetter run = true -> grouping_value valueGetter run <> [].
Proof.
  unfold has_value, grouping_value, truthy.
  destruct (valueGetter run) as [[|c v]|]; simpl; congruence.
Qed.

(** The names of the groups by value are not empty. *)
Lemma value_keys_not_empty (valueGetter : SingleRunData -> option jsstring)
    (runData : list SingleRunData) (k : jsstring) :
  In k (map fst (own_entries
                   (collected (grouping_value valueGetter) (fun run => run)
                      (filter (has_value valueGetter) runData)))) ->
  k <> [].
Proof.
  intros H. apply in_map_iff in H as ([k' g] & <- & H). simpl.
  apply (proj1 (own_entries_In _ _)) in H. apply (in_map fst) in H.
  rewrite collected_keys in H. simpl in H.
  apply first_seen_In, in_map_iff in H as (run & <- & Hrun).
  apply filter_In in Hrun as [_ Hrun]. now apply has_value_not_empty.
Qed.

(** The identifier of a concrete group is the identifier of the
    remaining-runs group, a full stop and the value. *)
Lemma createGroupId_concrete (groupByMode groupByKey v : jsstring) :
  v <> [] ->
  createGroupId groupByMode groupByKey (Some v)
  = createGroupId groupByMode groupByKey None ++ full_stop :: v.
Proof.
  intros Hv. unfold createGroupId.
  replace (string_truthy v) with true by now destruct v.
  cbn [join_dot]. now rewrite <- app_assoc.
Qed.

Lemma app_cons_not_self {A} (l t : list A) (x : A) : l <> l ++ x :: t.
Proof.
  intros E. apply (f_equal (@length A)) in E.
  rewrite length_app in E. simpl in E. lia.
Qed.

Lemma createGroupId_concrete_not_remaining (groupByMode groupByKey v : jsstring) :
  v <> [] ->
  createGroupId groupByMode groupByKey (Some v)
  <> createGroupId groupByMode groupByKey None.
Proof.
  intros Hv E. rewrite createGroupId_concrete in E by exact Hv.
  symmetry in E. now apply app_cons_not_self in E.
Qed.

(** The identifiers of the groups of a pass are distinct. *)
Lemma group_ids_NoDup (groupByMode groupByKey : jsstring) (ks : list jsstring)
    (tail : list jsstring) :
  NoDup ks -> (forall k, In k ks -> k <> []) ->
  tail = [] \/ tail = [createGroupId groupByMode groupByKey None] ->
  NoDup (map (fun k => createGroupId groupByMode groupByKey (Some k)) ks ++ tail).
Proof.
  intros Hnd Hne Htail. apply NoDup_app.
  - apply NoDup_map_NoDup_ForallPairs; auto.
    intros k1 k2 H1 H2 E.
    rewrite !createGroupId_concrete in E by auto.
    apply app_inv_head in E. congruence.
  - destruct Htail as [->| ->]; repeat constructor. simpl. tauto.
  - intros a Ha Ht. destruct Htail as [->| ->]; [contradiction|].
    destruct Ht as [<-|[]].
    apply in_map_iff in Ha as (k & E & Hk).
    now apply createGroupId_concrete_not_remaining in E; auto.
Qed.

Lemma remaining_summary_ids (groupByMode groupByKey : jsstring)
    (ungroupedRuns : list SingleRunData) :
  let ids := map (fun s => fst (fst s))
                 (remaining_summary groupByMode groupByKey ungroupedRuns) in
  ids = [] \/ ids = [createGroupId groupByMode groupByKey None].
Proof. destruct ungroupedRuns; simpl; auto. Qed.

(** *** The buckets by dataset *)

Lemma set_own_same_image {V W} (F : V -> W) (k : jsstring) (v g : V)
    (o : props V) :
  get_own k o = Some g -> F v = F g ->
  map (fun e => (fst e, F (snd e))) (set_own k v o)
  = map (fun e => (fst e, F (snd e))) o.
Proof.
  induction o as [|[k' v'] o IH]; simpl; [discriminate|].
  destruct (string_eqb k k') eqn:E; simpl.
  - intros [= ->] ->. reflexivity.
  - intros H1 H2. now rewrite IH.
Qed.

Lemma bucket_dataset_datasets (run : SingleRunData) (ids : list jsstring)
    (groups : props dataset_group) :
  map (fun e => (fst e, group_dataset (snd e)))
      (fold_left (bucket_dataset run) ids groups)
  = map (fun e => (fst e, group_dataset (snd e))) groups.
Proof.
  revert groups; induction ids as [|id ids IH]; intros groups; simpl; auto.
  rewrite IH. unfold bucket_dataset.
  destruct (get_own id groups) as [g|] eqn:Hg; auto.
  destruct (negb _); auto.
  now apply (set_own_same_image group_dataset id _ g).
Qed.

Lemma buckets_datasets (runData : list SingleRunData)
    (groups : props dataset_group) :
  map (fun e => (fst e, group_dataset (snd e)))
      (fold_left (fun g run =>
                    fold_left (bucket_dataset run) (identifiers run) g)
                 runData groups)
  = map (fun e => (fst e, group_dataset (snd e))) groups.
Proof.
  revert groups; induction runData as [|run rs IH]; intros groups; simpl; auto.
  now rewrite IH, bucket_dataset_datasets.
Qed.

(** The buckets keep the identifiers and the datasets of the unique
    datasets, in their order. *)
Lemma bucketsByDataset_datasets (runData : list SingleRunData) :
  map (fun e => (fst e, group_dataset (snd e))) (fst (bucketsByDataset runData))
  = map (fun x => (identifier x, the_dataset x)) (getUniqueDatasets runData).
Proof.
  rewrite bucketsByDataset_spec. simpl. rewrite buckets_datasets.
  unfold initial_groups. now rewrite map_map.
Qed.

Lemma bucketsByDataset_keys (runData : list SingleRunData) :
  map fst (fst (bucketsByDataset runData))
  = map identifier (getUniqueDatasets runData).
Proof.
  transitivity
    (map fst (map (fun e => (fst e, group_dataset (snd e)))
                  (fst (bucketsByDataset runData))));
    [now rewrite map_map|].
  rewrite bucketsByDataset_datasets. now rewrite map_map.
Qed.

Lemma identifier_not_empty (d : DatasetEntity) : dataset_identifier d <> [].
Proof. unfold dataset_identifier. now destruct (name d). Qed.

Lemma dataset_keys_not_empty (runData : list SingleRunData) (k : jsstring) :
  In k (map fst (fst (bucketsByDataset runData))) -> k <> [].
Proof.
  intros Hk. rewrite bucketsByDataset_keys in Hk.
  apply in_map_iff in Hk as (x & <- & Hx).
  destruct (getUniqueDatasets_identifiers runData) as (_ & _ & Hsub).
  destruct (Hsub x Hx) as (r & d & _ & _ & ->). simpl.
  apply identifier_not_empty.
Qed.

(** A bucket holds runs of the list, no object twice. *)
Lemma bucket_runs (runData : list SingleRunData) (k : jsstring)
    (g : dataset_group) :
  In (k, g) (fst (bucketsByDataset runData)) ->
  NoDup (map object_id (runs g))
  /\ forall r, In r (runs g) -> In r runData.
Proof.
  intros Hin.
  assert (Hnd : NoDup (map fst (fst (bucketsByDataset runData)))).
  { rewrite bucketsByDataset_keys. apply getUniqueDatasets_identifiers. }
  apply In_get_own in Hin; auto.
  rewrite bucketsByDataset_spec in Hin. simpl in Hin.
  destruct (initial_groups_get runData k) as [H0 _].
  pose proof (buckets_loop runData (initial_groups runData) k
                (fun g0 Hg => proj1 (H0 g0 Hg))) as HL.
  destruct (get_own k (initial_groups runData)) as [g0|]; [|congruence].
  destruct HL as (g' & Hg' & _ & Hnd' & Hmem & _).
  rewrite Hin in Hg'. injection Hg' as <-.
  split; auto. intros r Hr. now apply Hmem.
Qed.


(** *** Row identifiers *)

Lemma map_flat_map {A B C} (f : B -> C) (g : A -> list B) (l : list A) :
  map f (flat_map g l) = flat_map (fun x => map f (g x)) l.
Proof.
  induction l as [|x l IH]; simpl; auto. now rewrite map_app, IH.
Qed.

Lemma flat_map_of_map {A B C} (f : B -> list C) (g : A -> B) (l : list A) :
  flat_map f (map g l) = flat_map (fun x => f (g x)) l.
Proof.
  induction l as [|x l IH]; simpl; auto. now rewrite IH.
Qed.

Lemma NoDup_map_In_inj {A B} (f : A -> B) (l : list A) (x y : A) :
  NoDup (map f l) -> In x l -> In y l -> f x = f y -> x = y.
Proof.
  induction l as [|a l IH]; simpl; [tauto|].
  intros Hnd Hx Hy E. inversion Hnd as [|? ? Ha Hnd']; subst.
  destruct Hx as [->|Hx], Hy as [->|Hy]; auto.
  - exfalso. apply Ha. rewrite E. now apply in_map.
  - exfalso. apply Ha. rewrite <- E. now apply in_map.
Qed.

Lemma selection_keeps_distinct {A B} (keep : A -> bool) (f : A -> B)
    (xs : list A) :
  NoDup (map f xs) -> NoDup (map f (filter keep xs)).
Proof.
  induction xs as [|a xs IH]; simpl; auto.
  intros Hnd. inversion Hnd as [|? ? Ha Hnd']; subst.
  destruct (keep a); simpl; auto. constructor; auto.
  intros Hin. apply Ha. apply in_map_iff in Hin as (x & <- & Hx).
  apply filter_In in Hx as [Hx _]. now apply in_map.
Qed.

(** Groups of distinct identifiers, each of runs of distinct uuids without
    a full stop, give distinct row identifiers: the last full stop of a row
    identifier separates the group from the run. *)
Lemma row_identifiers_NoDup
    (groups : list (jsstring * bool * list SingleRunData)) :
  NoDup (map (fun c => fst (fst c)) groups) ->
  (forall c, In c groups -> NoDup (map uuid (snd c))) ->
  (forall c run, In c groups -> In run (snd c) -> ~ In full_stop (uuid run)) ->
  NoDup (row_identifiers groups).
Proof.
  induction groups as [|[[gid shown] rs] groups IH]; intros Hid Hu Hdot.
  - constructor.
  - change (row_identifiers ((gid, shown, rs) :: groups))
      with ((if shown then map (fun run => gid ++ full_stop :: uuid run) rs
             else []) ++ row_identifiers groups).
    simpl in Hid. inversion Hid as [|? ? Hgid Hid']; subst.
    assert (Hrest : NoDup (row_identifiers groups)).
    { apply IH; auto.
      - intros c Hc. apply Hu. now right.
      - intros c run Hc. apply Hdot. now right. }
    destruct shown; simpl; auto.
    apply NoDup_app; auto.
    + rewrite <- (map_map uuid (fun u => gid ++ full_stop :: u)).
      apply NoDup_map_NoDup_ForallPairs.
      * intros u1 u2 _ _ E. apply app_inv_head in E. congruence.
      * apply (Hu (gid, true, rs)). now left.
    + intros a Ha Hb.
      apply in_map_iff in Ha as (r1 & <- & Hr1).
      unfold row_identifiers in Hb.
      apply in_flat_map in Hb as ([[gid' shown'] rs'] & Hc & Hb). simpl in Hb.
      destruct shown'; [|contradiction].
      apply in_map_iff in Hb as (r2 & E & Hr2).
      apply split_at_last_full_stop in E as [-> _].
      * apply Hgid. apply in_map_iff. exists (gid, true, rs'). auto.
      * apply (Hdot (gid', true, rs') r2); [now right|exact Hr2].
      * apply (Hdot (gid, true, rs) r1); [now left|exact Hr1].
Qed.

Lemma row_identifiers_app (a b : list (jsstring * bool * list SingleRunData)) :
  row_identifiers (a ++ b) = row_identifiers a ++ row_identifiers b.
Proof. apply flat_map_app. Qed.

Lemma group_rows_identifiers (groupsExpanded : props bool) (gid : jsstring)
    (rs : list SingleRunData) :
  map rowUuid (group_rows groupsExpanded gid rs)
  = row_identifiers [(gid, concrete_group_expanded groupsExpanded gid, rs)].
Proof.
  unfold group_rows, row_identifiers. simpl.
  destruct (concrete_group_expanded groupsExpanded gid); simpl; auto.
  now rewrite app_nil_r, map_map.
Qed.

Lemma pass_rows_identifiers {G} (groupsExpanded : props bool)
    (groupByMode groupByKey : jsstring) (rs : G -> list SingleRunData)
    (entries : props G) (ungroupedRuns : list SingleRunData) :
  map rowUuid
      (flat_map (fun e => group_rows groupsExpanded
                            (createGroupId groupByMode groupByKey (Some (fst e)))
                            (rs (snd e)))
                entries
       ++ match ungroupedRuns with
          | [] => []
          | _ :: _ => remaining_rows groupsExpanded groupByMode groupByKey
                        ungroupedRuns
          end)
  = row_identifiers
      (pass_groups groupsExpanded groupByMode groupByKey rs entries
         ungroupedRuns).
Proof.
  unfold pass_groups. rewrite map_app, row_identifiers_app. f_equal.
  - rewrite map_flat_map. unfold row_identifiers. rewrite flat_map_of_map.
    apply flat_map_ext. intros e. rewrite group_rows_identifiers.
    unfold row_identifiers. simpl. now rewrite app_nil_r.
  - destruct ungroupedRuns as [|r l]; auto.
    unfold remaining_rows, row_identifiers. simpl.
    destruct (remaining_group_expanded _ _); simpl; auto.
    now rewrite app_nil_r, map_map.
Qed.

Lemma pass_groups_NoDup {G} (groupsExpanded : props bool)
    (groupByMode groupByKey : jsstring) (rs : G -> list SingleRunData)
    (entries : props G) (ungroupedRuns : list SingleRunData) :
  NoDup (map fst entries) -> (forall k, In k (map fst entries) -> k <> []) ->
  NoDup (map (fun c => fst (fst c))
             (pass_groups groupsExpanded groupByMode groupByKey rs entries
                ungroupedRuns)).
Proof.
  intros Hnd Hne. unfold pass_groups. rewrite map_app, map_map. cbn [fst].
  rewrite <- (map_map fst (fun k => createGroupId groupByMode groupByKey (Some k))).
  apply group_ids_NoDup; auto.
  destruct ungroupedRuns; simpl; auto.
Qed.

Section Passes.

Variable StringToNumber : jsstring -> number.

(** The headers and the rows of a pass by value. *)
Lemma value_pass_records
    (valueGetter : SingleRunData -> option jsstring)
    (runData : list SingleRunData) (groupsExpanded : props bool)
    (aggregateFunction groupByMode groupByKey : jsstring)
    (out : list RenderMetadata) :
  createRunsGroupedByValue StringToNumber valueGetter runData groupsExpanded
    aggregateFunction groupByMode groupByKey = Returns out ->
  let groups := collected (grouping_value valueGetter) (fun run => run)
                  (filter (has_value valueGetter) runData) in
  let ungroupedRuns :=
    filter (fun run => negb (has_value valueGetter run)) runData in
  bucketsByValue valueGetter runData = Returns (groups, ungroupedRuns)
  /\ map header_summary (headers out)
     = map (fun e => (createGroupId groupByMode groupByKey (Some (fst e)),
                      GroupValue (fst e), map uuid (snd e)))
           (own_entries groups)
       ++ remaining_summary groupByMode groupByKey ungroupedRuns
  /\ run_rows out
     = flat_map (fun e => group_rows groupsExpanded
                            (createGroupId groupByMode groupByKey (Some (fst e)))
                            (snd e))
                (own_entries groups)
       ++ match ungroupedRuns with
          | [] => []
          | _ :: _ => remaining_rows groupsExpanded groupByMode groupByKey
                        ungroupedRuns
          end.
Proof.
  intros H groups ungroupedRuns.
  apply createRunsGroupedByValue_shape in H
    as (groups' & ungrouped' & chunks & rest & Hb & -> & HF & Hrest).
  pose proof Hb as Hb'. rewrite bucketsByValue_spec in Hb'.
  destruct (existsb _ _); [discriminate|]. injection Hb' as <- <-.
  fold groups in HF, Hb. fold ungroupedRuns in Hrest, Hb.
  split; [exact Hb|].
  apply remaining_records in Hrest as [R1 R2].
  assert (Hnd : NoDup (map fst groups)).
  { apply (bucketsByValue_partition valueGetter runData groups ungroupedRuns Hb). }
  destruct (rendered_entries StringToNumber groups
              (fun k => createGroupId groupByMode groupByKey (Some k))
              (fun k => concrete_group_expanded groupsExpanded
                          (createGroupId groupByMode groupByKey (Some k)))
              (fun g => g) (fun k _ => GroupValue k) aggregateFunction
              (own_entries groups) chunks
              (own_entries_get_own groups Hnd) HF) as [E1 E2].
  rewrite headers_app, run_rows_app, map_app, E1, E2, R1, R2. auto.
Qed.

(** The headers and the rows of a pass by dataset. *)
Lemma dataset_pass_records
    (runData : list SingleRunData) (groupsExpanded : props bool)
    (aggregateFunction groupByKey : jsstring)
    (out : list RenderMetadata) :
  createRunsGroupedByDataset StringToNumber runData groupsExpanded
    aggregateFunction groupByKey = Returns out ->
  let groups := fst (bucketsByDataset runData) in
  let ungroupedRuns := filter no_datasets runData in
  map header_summary (headers out)
  = map (fun e => (createGroupId (mode_token Dataset) groupByKey (Some (fst e)),
                   GroupDataset (group_dataset (snd e)),
                   map uuid (runs (snd e))))
        groups
    ++ remaining_summary (mode_token Dataset) groupByKey ungroupedRuns
  /\ run_rows out
     = flat_map (fun e => group_rows groupsExpanded
                            (createGroupId (mode_token Dataset) groupByKey
                               (Some (fst e)))
                            (runs (snd e)))
                groups
       ++ match ungroupedRuns with
          | [] => []
          | _ :: _ => remaining_rows groupsExpanded (mode_token Dataset)
                        groupByKey ungroupedRuns
          end.
Proof.
  intros H groups ungroupedRuns.
  apply createRunsGroupedByDataset_shape in H
    as (chunks & rest & -> & HF & Hrest).
  fold groups in HF.
  assert (Hu : snd (bucketsByDataset runData) = ungroupedRuns).
  { now rewrite bucketsByDataset_spec. }
  rewrite Hu in Hrest.
  apply remaining_records in Hrest as [R1 R2].
  assert (Hnd : NoDup (map fst groups)).
  { unfold groups. rewrite bucketsByDataset_keys.
    apply getUniqueDatasets_identifiers. }
  assert (Hown : own_entries groups = groups).
  { apply own_entries_no_index. intros e He.
    apply (in_map fst) in He. unfold groups in He.
    rewrite bucketsByDataset_keys in He.
    apply in_map_iff in He as (x & <- & Hx).
    destruct (getUniqueDatasets_identifiers runData) as (_ & _ & Hsub).
    destruct (Hsub x Hx) as (r & d & _ & _ & ->). simpl.
    apply identifier_not_array_index. }
  destruct (rendered_entries StringToNumber groups
              (fun k => createGroupId (mode_token Dataset) groupByKey (Some k))
              (fun k => concrete_group_expanded groupsExpanded
                          (createGroupId (mode_token Dataset) groupByKey (Some k)))
              runs (fun _ g => GroupDataset (group_dataset g)) aggregateFunction
              (own_entries groups) chunks
              (own_entries_get_own groups Hnd) HF) as [E1 E2].
  rewrite Hown in E1, E2.
  rewrite headers_app, run_rows_app, map_app, E1, E2, R1, R2. auto.
Qed.

(** A call of [getGroupedRowRenderMetadata] that returns a list is a pass by
    value or a pass by dataset that returns it. *)
Lemma getGroupedRowRenderMetadata_Returns (groupsExpanded : props bool)
    (runData : list SingleRunData) (groupByConfig : GroupByConfig)
    (rows : list RenderMetadata) :
  getGroupedRowRenderMetadata StringToNumber groupsExpanded runData groupByConfig
  = Returns (Some rows) ->
  (exists valueGetter,
     createRunsGroupedByValue StringToNumber valueGetter runData groupsExpanded
       (aggregateFunction groupByConfig) (mode groupByConfig)
       (groupByData groupByConfig) = Returns rows)
  \/ (mode groupByConfig = mode_token Dataset
      /\ createRunsGroupedByDataset StringToNumber runData groupsExpanded
           (aggregateFunction groupByConfig) (groupByData groupByConfig)
         = Returns rows).
Proof.
  unfold getGroupedRowRenderMetadata.
  destruct (string_eqb (mode groupByConfig) (mode_token Tag)
            || string_eqb (mode groupByConfig) (mode_token Param)).
  - match goal with
    | |- bind ?c _ = _ -> _ => destruct c as [r|] eqn:E
    end; simpl; [|discriminate].
    intros [= <-]. left. eexists. exact E.
  - destruct (string_eqb_spec (mode groupByConfig) (mode_token Dataset));
      [|discriminate].
    match goal with
    | |- bind ?c _ = _ -> _ => destruct c as [r|] eqn:E
    end; simpl; [|discriminate].
    intros [= <-]. right. auto.
Qed.

(** X9: the groups of a pass by tag or parameter value come in the
    enumeration order of object properties.  The values of the headers
    [createRunsGroupedByValue] returns are the distinct non-empty values of
    the runs -- those that are array indices first, in ascending numeric
    order, then the others in the order in which each is first met in the run
    list -- followed by the marker of the remaining-runs group when, and only
    when, some run has no value or the empty one. *)
Theorem value_groups_in_enumeration_order
    (valueGetter : SingleRunData -> option jsstring)
    (runData : list SingleRunData) (groupsExpanded : props bool)
    (aggregateFunction groupByMode groupByKey : jsstring)
    (out : list RenderMetadata) :
  createRunsGroupedByValue StringToNumber valueGetter runData groupsExpanded
    aggregateFunction groupByMode groupByKey = Returns out ->
  map group_value (headers out)
  = map GroupValue
        (key_order
           (first_seen (map (grouping_value valueGetter)
                            (filter (has_value valueGetter) runData))))
    ++ (if forallb (has_value valueGetter) runData then []
        else [RUN_GROUP_REMAINING_RUNS_SYMBOL]).
Proof.
  intros H. apply value_pass_records in H as (_ & H & _).
  replace (map group_value (headers out))
    with (map (fun s => snd (fst s)) (map header_summary (headers out)))
    by (rewrite map_map; reflexivity).
  rewrite H.
  rewrite map_app, map_map. simpl. f_equal.
  - rewrite <- collected_keys with (vf := fun run : SingleRunData => run).
    rewrite <- own_entries_keys. now rewrite map_map.
  - rewrite <- filter_negb_nil. unfold remaining_summary.
    clear H.
    destruct (filter (fun run => negb (has_value valueGetter run)) runData);
      reflexivity.
Qed.

(** X10: a pass by tag or parameter value counts every run in one header.
    The [runUuids] of the headers [createRunsGroupedByValue] returns, taken
    together, are the uuids of the run list rearranged: no run is lost and
    none is counted twice, whether the groups are expanded or not. *)
Theorem value_groups_count_each_run_once
    (valueGetter : SingleRunData -> option jsstring)
    (runData : list SingleRunData) (groupsExpanded : props bool)
    (aggregateFunction groupByMode groupByKey : jsstring)
    (out : list RenderMetadata) :
  createRunsGroupedByValue StringToNumber valueGetter runData groupsExpanded
    aggregateFunction groupByMode groupByKey = Returns out ->
  Permutation (concat (map runUuids (headers out))) (map uuid runData).
Proof.
  intros H. apply value_pass_records in H as (Hb & H & _).
  replace (map runUuids (headers out))
    with (map snd (map header_summary (headers out)))
    by (rewrite map_map; reflexivity).
  rewrite H. clear H.
  apply bucketsByValue_partition in Hb as (Hperm & _).
  rewrite map_app, concat_app, map_map. cbn [snd].
  etransitivity; [|apply Permutation_map; exact Hperm].
  rewrite map_app. apply Permutation_app.
  - rewrite concat_map, map_map, <- !flat_map_concat_map.
    apply Permutation_flat_map, own_entries_perm.
  - unfold remaining_summary.
    destruct (filter (fun run => negb (has_value valueGetter run)) runData);
      simpl; rewrite ?app_nil_r; auto.
Qed.

(** X11: the groups of a pass by dataset come in the order in which the
    datasets are first met.  The values of the headers
    [createRunsGroupedByDataset] returns are the datasets [getUniqueDatasets]
    gives, in its order, followed by the marker of the remaining-runs group
    when, and only when, some run has no dataset. *)
Theorem dataset_groups_in_first_seen_order
    (runData : list SingleRunData) (groupsExpanded : props bool)
    (aggregateFunction groupByKey : jsstring)
    (out : list RenderMetadata) :
  createRunsGroupedByDataset StringToNumber runData groupsExpanded
    aggregateFunction groupByKey = Returns out ->
  map group_value (headers out)
  = map (fun x => GroupDataset (the_dataset x)) (getUniqueDatasets runData)
    ++ (if existsb no_datasets runData then [RUN_GROUP_REMAINING_RUNS_SYMBOL]
        else []).
Proof.
  intros H. apply dataset_pass_records in H as (H & _).
  replace (map group_value (headers out))
    with (map (fun s => snd (fst s)) (map header_summary (headers out)))
    by (rewrite map_map; reflexivity).
  rewrite H.
  rewrite map_app, map_map. simpl. f_equal.
  - transitivity
      (map (fun p => GroupDataset (snd p))
           (map (fun e => (fst e, group_dataset (snd e)))
                (fst (bucketsByDataset runData))));
      [now rewrite map_map|].
    rewrite bucketsByDataset_datasets. now rewrite map_map.
  - rewrite <- filter_nil. unfold remaining_summary.
    destruct (filter no_datasets runData); reflexivity.
Qed.

(** X12: the groups of a grouping have distinct identifiers.  In the list
    [getGroupedRowRenderMetadata] returns, no two headers have the same
    [groupId], the header of the remaining-runs group included; so the state
    map [groupsExpanded] tells the groups apart. *)
Theorem group_identifiers_are_distinct (groupsExpanded : props bool)
    (runData : list SingleRunData) (groupByConfig : GroupByConfig)
    (rows : list RenderMetadata) :
  getGroupedRowRenderMetadata StringToNumber groupsExpanded runData groupByConfig
  = Returns (Some rows) ->
  NoDup (map groupId (headers rows)).
Proof.
  intros H.
  apply getGroupedRowRenderMetadata_Returns in H as [[vg H]|[Hm H]].
  - apply value_pass_records in H as (Hb & H & _).
    replace (map groupId (headers rows))
      with (map (fun s => fst (fst s)) (map header_summary (headers rows)))
      by (rewrite map_map; reflexivity).
    rewrite H. clear H.
    rewrite map_app, map_map. cbn [fst].
    rewrite <- (map_map fst
                  (fun k => createGroupId (mode groupByConfig)
                              (groupByData groupByConfig) (Some k))).
    apply group_ids_NoDup.
    + apply own_entries_NoDup.
      now apply (bucketsByValue_partition vg runData _ _ Hb).
    + apply value_keys_not_empty.
    + apply remaining_summary_ids.
  - apply dataset_pass_records in H as (H & _).
    replace (map groupId (headers rows))
      with (map (fun s => fst (fst s)) (map header_summary (headers rows)))
      by (rewrite map_map; reflexivity).
    rewrite H. clear H.
    rewrite map_app, map_map. cbn [fst].
    rewrite <- (map_map fst
                  (fun k => createGroupId (mode_token Dataset)
                              (groupByData groupByConfig) (Some k))).
    apply group_ids_NoDup.
    + rewrite bucketsByDataset_keys. apply getUniqueDatasets_identifiers.
    + apply dataset_keys_not_empty.
    + apply remaining_summary_ids.
Qed.

(** X13: the rows of a grouping have distinct identifiers.  When the runs
    of the list have distinct uuids and no uuid holds a full stop, no two
    run rows of the list [getGroupedRowRenderMetadata] returns have the same
    [rowUuid], also when a run is shown in several dataset groups. *)
Theorem row_identifiers_are_distinct (groupsExpanded : props bool)
    (runData : list SingleRunData) (groupByConfig : GroupByConfig)
    (rows : list RenderMetadata) :
  NoDup (map uuid runData) ->
  (forall run, In run runData -> ~ In full_stop (uuid run)) ->
  getGroupedRowRenderMetadata StringToNumber groupsExpanded runData groupByConfig
  = Returns (Some rows) ->
  NoDup (map rowUuid (run_rows rows)).
Proof.
  intros Huuid Hdot H.
  apply getGroupedRowRenderMetadata_Returns in H as [[vg H]|[Hm H]].
  - apply value_pass_records in H as (Hb & _ & ->).
    rewrite (pass_rows_identifiers groupsExpanded (mode groupByConfig)
               (groupByData groupByConfig) (fun g => g)).
    pose proof (bucketsByValue_partition vg runData _ _ Hb)
      as (_ & Hnd & Hmem & _).
    apply row_identifiers_NoDup.
    + apply pass_groups_NoDup.
      * now apply own_entries_NoDup.
      * apply value_keys_not_empty.
    + intros c Hc. unfold pass_groups in Hc. apply in_app_or in Hc as [Hc|Hc].
      * apply in_map_iff in Hc as ([k g] & <- & He). simpl.
        apply (proj1 (own_entries_In _ _)) in He.
        rewrite (Hmem k g He).
        now apply selection_keeps_distinct, selection_keeps_distinct.
      * destruct (filter (fun run => negb (has_value vg run)) runData)
          as [|r l] eqn:E; [contradiction|].
        destruct Hc as [<-|[]]. cbn [snd]. rewrite <- E.
        now apply selection_keeps_distinct.
    + intros c run Hc Hrun. apply Hdot.
      unfold pass_groups in Hc. apply in_app_or in Hc as [Hc|Hc].
      * apply in_map_iff in Hc as ([k g] & <- & He). simpl in Hrun.
        apply (proj1 (own_entries_In _ _)) in He.
        rewrite (Hmem k g He) in Hrun.
        apply filter_In in Hrun as [Hrun _].
        now apply filter_In in Hrun as [Hrun _].
      * destruct (filter (fun run => negb (has_value vg run)) runData)
          as [|r l] eqn:E; [contradiction|].
        destruct Hc as [<-|[]]. cbn [snd] in Hrun. rewrite <- E in Hrun.
        now apply filter_In in Hrun as [Hrun _].
  - apply dataset_pass_records in H as (_ & ->).
    rewrite (pass_rows_identifiers groupsExpanded (mode_token Dataset)
               (groupByData groupByConfig) runs).
    pose proof (bucket_runs runData) as Hruns.
    apply row_identifiers_NoDup.
    + apply pass_groups_NoDup.
      * rewrite bucketsByDataset_keys. apply getUniqueDatasets_identifiers.
      * apply dataset_keys_not_empty.
    + intros c Hc. unfold pass_groups in Hc. apply in_app_or in Hc as [Hc|Hc].
      * apply in_map_iff in Hc as ([k g] & <- & He). simpl.
        destruct (Hruns k g He) as [Hnd Hsub].
        apply NoDup_map_NoDup_ForallPairs.
        -- intros x y Hx Hy E.
           apply (NoDup_map_In_inj uuid runData); auto.
        -- now apply NoDup_map_inv in Hnd.
      * destruct (filter no_datasets runData) as [|r l] eqn:E; [contradiction|].
        destruct Hc as [<-|[]]. cbn [snd]. rewrite <- E.
        now apply selection_keeps_distinct.
    + intros c run Hc Hrun. apply Hdot.
      unfold pass_groups in Hc. apply in_app_or in Hc as [Hc|Hc].
      * apply in_map_iff in Hc as ([k g] & <- & He). simpl in Hrun.
        now apply (Hruns k g He).
      * destruct (filter no_datasets runData) as [|r l] eqn:E; [contradiction|].
        destruct Hc as [<-|[]]. cbn [snd] in Hrun. rewrite <- E in Hrun.
        now apply filter_In in Hrun as [Hrun _].
Qed.

(** *** The state map *)





(** *** Errors of a grouping *)

Lemma createGroupRenderMetadata_unsupported (groupId : jsstring)
    (expanded : bool) (runsInGroup : list SingleRunData)
    (aggregateFunction : jsstring) (groupValue : RunGroupByValueType)
    (isRemainingRowsGroup : bool) :
  (forall f, aggregateFunction <> aggregate_token f) ->
  createGroupRenderMetadata StringToNumber groupId expanded runsInGroup
    aggregateFunction groupValue isRemainingRowsGroup
  = Throws (unsupported aggregateFunction).
Proof.
  intros H. unfold createGroupRenderMetadata.
  now rewrite (proj2 (aggregateValues_unsupported StringToNumber _ _) H).
Qed.

(** A pass over groups whose rendering throws, throws the same, unless there
    is no group and no ungrouped run. *)
Lemma pass_throws {G} (groups : props G)
    (render : jsstring -> G -> outcome (list RenderMetadata))
    (ungroupedRuns : list SingleRunData) (groupsExpanded : props bool)
    (aggregateFunction groupByMode groupByKey : jsstring) :
  (forall f, aggregateFunction <> aggregate_token f) ->
  (forall k g, render k g = Throws (unsupported aggregateFunction)) ->
  groups <> [] \/ ungroupedRuns <> [] ->
  (result <-
     for_each
       (fun result k =>
          match get_own k groups with
          | Some g => rows <- render k g ;; Returns (result ++ rows)
          | None => Throws TypeError
          end)
       (keys groups) [] ;;
   remaining_group StringToNumber result ungroupedRuns groupsExpanded
     aggregateFunction groupByMode groupByKey)
  = Throws (unsupported aggregateFunction).
Proof.
  intros Hf Hrender Hne.
  destruct (keys groups) as [|k ks] eqn:K.
  - simpl. destruct Hne as [Hne|Hne].
    + exfalso. apply Hne. unfold keys in K.
      apply map_eq_nil in K.
      apply Permutation_nil. rewrite <- K. apply own_entries_perm.
    + destruct ungroupedRuns as [|r l]; [congruence|]. simpl.
      now rewrite createGroupRenderMetadata_unsupported.
  - simpl.
    destruct (get_own k groups) as [g|] eqn:Hg.
    + now rewrite Hrender.
    + exfalso. apply get_own_None in Hg. apply Hg.
      assert (Hk : In k (keys groups)) by (rewrite K; now left).
      unfold keys in Hk. apply in_map_iff in Hk as (e & <- & He).
      apply (in_map fst). now apply (proj1 (own_entries_In _ _)).
Qed.

(** X15: an aggregate function that is not supported goes unnoticed on an
    empty run list.  With a mode in Tag, Param, Dataset and an aggregate
    function that is none of Min, Max, Average,
    [getGroupedRowRenderMetadata] returns the empty list when there is no
    run; when there is a run it throws: the error of the unsupported
    function, or, by tag or parameter only, the [TypeError] of a value that
    names a member of [Object.prototype]. *)
Theorem unsupported_function_throws_unless_no_runs
    (groupsExpanded : props bool) (runData : list SingleRunData)
    (m : RunGroupingMode) (aggregate data : jsstring) :
  (forall f, aggregate <> aggregate_token f) ->
  let groupByConfig := {| mode := mode_token m;
                          aggregateFunction := aggregate;
                          groupByData := data |} in
  let result :=
    getGroupedRowRenderMetadata StringToNumber groupsExpanded runData
      groupByConfig in
  (runData = [] -> result = Returns (Some []))
  /\ (runData <> [] ->
      result = Throws (unsupported aggregate)
      \/ (m <> Dataset /\ result = Throws TypeError)).
Proof.
  intros Hf groupByConfig result. split.
  - intros ->. subst result. now destruct m.
  - intros Hne. subst result groupByConfig.
    assert (Hvalue : forall vg mode0,
      createRunsGroupedByValue StringToNumber vg runData groupsExpanded
        aggregate mode0 data
      = Throws (unsupported aggregate)
      \/ createRunsGroupedByValue StringToNumber vg runData groupsExpanded
           aggregate mode0 data
         = Throws TypeError).
    { intros vg mode0. unfold createRunsGroupedByValue.
      destruct (bucketsByValue vg runData) as [[groups ungrouped]|e] eqn:B.
      - left. cbn [bind].
        apply (pass_throws groups
                 (fun k g => createGroupRenderMetadata StringToNumber
                    (createGroupId mode0 data (Some k))
                    (concrete_group_expanded groupsExpanded
                       (createGroupId mode0 data (Some k)))
                    g aggregate (GroupValue k) false)); auto.
        + intros k g. now apply createGroupRenderMetadata_unsupported.
        + apply bucketsByValue_partition in B as (Hperm & _).
          destruct groups as [|e groups]; [|left; discriminate].
          right. intros ->. simpl in Hperm.
          apply Permutation_nil in Hperm. contradiction.
      - right. rewrite bucketsByValue_spec in B.
        destruct (existsb _ _); [|discriminate]. injection B as <-.
        reflexivity. }
    destruct m; unfold getGroupedRowRenderMetadata;
      cbn [mode groupByData aggregateFunction].
    + change (string_eqb (mode_token Tag) (mode_token Tag)) with true.
      cbn [orb].
      match goal with
      | |- (bind ?c _ = _) \/ _ =>
          destruct (Hvalue (fun run => tag_value (tags run) data)
                           (mode_token Tag)) as [E|E]
      end; rewrite E; [left|right; split; [discriminate|]]; reflexivity.
    + change (string_eqb (mode_token Param) (mode_token Tag)) with false.
      change (string_eqb (mode_token Param) (mode_token Param)) with true.
      cbn [orb].
      match goal with
      | |- (bind ?c _ = _) \/ _ =>
          destruct (Hvalue
                      (fun run =>
                         option_map kv_value
                           (find (fun param =>
                                    string_eqb (kv_key param) data)
                                 (params run)))
                      (mode_token Param)) as [E|E]
      end; rewrite E; [left|right; split; [discriminate|]]; reflexivity.
    + change (string_eqb (mode_token Dataset) (mode_token Tag)) with false.
      change (string_eqb (mode_token Dataset) (mode_token Param)) with false.
      change (string_eqb (mode_token Dataset) (mode_token Dataset)) with true.
      cbn [orb]. left.
      unfold createRunsGroupedByDataset.
      destruct (bucketsByDataset runData) as [groups ungrouped] eqn:B.
      rewrite (pass_throws groups
                 (fun k g => createGroupRenderMetadata StringToNumber
                    (createGroupId (mode_token Dataset) data (Some k))
                    (concrete_group_expanded groupsExpanded
                       (createGroupId (mode_token Dataset) data (Some k)))
                    (runs g) aggregate
                    (GroupDataset (group_dataset g)) false)); auto.
      * intros k g. now apply createGroupRenderMetadata_unsupported.
      * rewrite bucketsByDataset_spec in B. injection B as <- <-.
        destruct runData as [|r rs]; [congruence|].
        destruct (datasets r) as [|d ds] eqn:D.
        -- right. simpl. unfold no_datasets at 1. rewrite D. discriminate.
        -- left. intros E.
           assert (Hk : map fst (fst (bucketsByDataset (r :: rs))) = []).
           { rewrite bucketsByDataset_spec. simpl. simpl in E. now rewrite E. }
           rewrite bucketsByDataset_keys in Hk.
           destruct (getUniqueDatasets_identifiers (r :: rs)) as (_ & Hin & _).
           assert (Hi : In (dataset_identifier (dataset d))
                           (map identifier (getUniqueDatasets (r :: rs)))).
           { apply Hin. simpl. apply in_or_app. left.
             unfold identifiers. rewrite D. now left. }
           rewrite Hk in Hi. contradiction.
Qed.



(** *** Group parents *)

(** X17: the display name of a group by tag or parameter value is its
    value, and gives its identifier back.  For a header of the list
    [createRunsGroupedByValue] returns and a group parent that carries the
    value of that header: [createGroupId] on the display name
    [getRunGroupDisplayName] gives is the identifier of the header; the
    display name is empty exactly when [isRemainingRunsGroup] holds; and
    otherwise it is the value the getter gives for some run of the list. *)
Theorem value_group_display_name
    (valueGetter : SingleRunData -> option jsstring)
    (runData : list SingleRunData) (groupsExpanded : props bool)
    (aggregateFunction groupByMode groupByKey : jsstring)
    (out : list RenderMetadata)
    (h : RowGroupRenderMetadata) (group : RunGroupParentInfo) :
  createRunsGroupedByValue StringToNumber valueGetter runData groupsExpanded
    aggregateFunction groupByMode groupByKey = Returns out ->
  In h (headers out) ->
  info_value group = group_value h ->
  groupId h
  = createGroupId groupByMode groupByKey
      (Some (getRunGroupDisplayName (Some group)))
  /\ (isRemainingRunsGroup group = true
      <-> getRunGroupDisplayName (Some group) = [])
  /\ (isRemainingRunsGroup group = false ->
      exists run, In run runData
                  /\ valueGetter run = Some (getRunGroupDisplayName (Some group))).
Proof.
  intros H Hh Hv. apply value_pass_records in H as (_ & H & _).
  apply header_summary_In in Hh. rewrite H in Hh. clear H.
  unfold isRemainingRunsGroup, getRunGroupDisplayName. rewrite Hv.
  apply in_app_or in Hh as [Hh|Hh].
  - apply in_map_iff in Hh as ([k g] & [= <- <- _] & He). simpl.
    assert (Hk : In k (map fst (own_entries
                   (collected (grouping_value valueGetter) (fun run => run)
                      (filter (has_value valueGetter) runData))))).
    { apply in_map_iff. now exists (k, g). }
    pose proof (value_keys_not_empty valueGetter runData k Hk) as Hne.
    split; [reflexivity|]. split; [split; congruence|]. intros _.
    apply in_map_iff in Hk as ([k' g'] & <- & Hk). simpl in *.
    apply (proj1 (own_entries_In _ _)) in Hk. apply (in_map fst) in Hk.
    rewrite collected_keys in Hk. simpl in Hk.
    apply first_seen_In, in_map_iff in Hk as (run & Ek & Hrun).
    apply filter_In in Hrun as [Hrun Hhas]. exists run. split; auto.
    unfold grouping_value, has_value, truthy in *.
    destruct (valueGetter run); [congruence|discriminate].
  - unfold remaining_summary in Hh.
    destruct (filter _ runData); [contradiction|].
    destruct Hh as [[= <- <- _]|[]]. simpl.
    split; [reflexivity|]. split; [tauto|discriminate].
Qed.

(** X18: the remaining-runs group is known by its identifier.  For a header
    of the list [getGroupedRowRenderMetadata] returns and a group parent that
    carries the value of that header, [isRemainingRunsGroup] holds exactly
    when the identifier of the header is the one [createGroupId] builds
    without a value, from the mode and the grouping data alone. *)
Theorem remaining_runs_group_identifier (groupsExpanded : props bool)
    (runData : list SingleRunData) (groupByConfig : GroupByConfig)
    (rows : list RenderMetadata)
    (h : RowGroupRenderMetadata) (group : RunGroupParentInfo) :
  getGroupedRowRenderMetadata StringToNumber groupsExpanded runData groupByConfig
  = Returns (Some rows) ->
  In h (headers rows) ->
  info_value group = group_value h ->
  (isRemainingRunsGroup group = true
   <-> groupId h
       = createGroupId (mode groupByConfig) (groupByData groupByConfig) None).
Proof.
  intros H Hh Hv. unfold isRemainingRunsGroup. rewrite Hv.
  apply header_summary_In in Hh.
  apply getGroupedRowRenderMetadata_Returns in H as [[vg H]|[Hm H]].
  - apply value_pass_records in H as (_ & H & _).
    rewrite H in Hh. clear H. apply in_app_or in Hh as [Hh|Hh].
    + apply in_map_iff in Hh as ([k g] & [= <- <- _] & He). cbn [fst snd].
      split; [discriminate|]. intros E. exfalso. revert E.
      apply (createGroupId_concrete_not_remaining (mode groupByConfig)
               (groupByData groupByConfig) k).
      apply (value_keys_not_empty vg runData).
      apply in_map_iff. now exists (k, g).
    + unfold remaining_summary in Hh.
      destruct (filter _ runData); [contradiction|].
      destruct Hh as [[= <- <- _]|[]]. tauto.
  - rewrite Hm. apply dataset_pass_records in H as (H & _).
    rewrite H in Hh. clear H. apply in_app_or in Hh as [Hh|Hh].
    + apply in_map_iff in Hh as ([k g] & [= <- <- _] & He). cbn [fst snd].
      split; [discriminate|]. intros E. exfalso. revert E.
      apply (createGroupId_concrete_not_remaining (mode_token Dataset)
               (groupByData groupByConfig) k).
      apply (dataset_keys_not_empty runData).
      apply in_map_iff. now exists (k, g).
    + unfold remaining_summary in Hh.
      destruct (filter _ runData); [contradiction|].
      destruct Hh as [[= <- <- _]|[]]. tauto.
Qed.

(** X19: the display name of a dataset group is the name of its dataset.
    For a header of the list [createRunsGroupedByDataset] returns that is
    not the one of the remaining-runs group, and a group parent that carries
    the value of that header, [getRunGroupDisplayName] gives the name of one
    of the datasets of [getUniqueDatasets], and the identifier of the header
    is the one [createGroupId] builds from the identifier [name.digest] of
    that dataset. *)
Theorem dataset_group_display_name
    (runData : list SingleRunData) (groupsExpanded : props bool)
    (aggregateFunction groupByKey : jsstring)
    (out : list RenderMetadata)
    (h : RowGroupRenderMetadata) (group : RunGroupParentInfo) :
  createRunsGroupedByDataset StringToNumber runData groupsExpanded
    aggregateFunction groupByKey = Returns out ->
  In h (headers out) ->
  info_value group = group_value h ->
  isRemainingRunsGroup group = false ->
  exists x,
    In x (getUniqueDatasets runData)
    /\ getRunGroupDisplayName (Some group) = name (the_dataset x)
    /\ groupId h
       = createGroupId (mode_token Dataset) groupByKey (Some (identifier x)).
Proof.
  intros H Hh Hv. apply dataset_pass_records in H as (H & _).
  apply header_summary_In in Hh. rewrite H in Hh. clear H.
  unfold isRemainingRunsGroup, getRunGroupDisplayName. rewrite Hv.
  apply in_app_or in Hh as [Hh|Hh].
  - apply in_map_iff in Hh as ([k g] & [= <- <- _] & He). cbn [fst snd].
    intros _.
    assert (Hx : In (k, group_dataset g)
                    (map (fun x => (identifier x, the_dataset x))
                         (getUniqueDatasets runData))).
    { rewrite <- bucketsByDataset_datasets.
      apply in_map_iff. now exists (k, g). }
    apply in_map_iff in Hx as (x & [= <- <-] & Hx).
    exists x. auto.
  - unfold remaining_summary in Hh.
    destruct (filter _ runData); [contradiction|].
    destruct Hh as [[= <- <- _]|[]]. discriminate.
Qed.

End Passes.

(* ================================================================= *)
(** ** The worked passes *)

Lemma value_groups_in_enumeration_order_witness :
  map group_value (headers example_tag_rows)
  = map GroupValue
        (key_order
           (first_seen (map (grouping_value env_tag)
                            (filter (has_value env_tag) example_runs))))
    ++ (if forallb (has_value env_tag) example_runs then []
        else [RUN_GROUP_REMAINING_RUNS_SYMBOL]).
Proof.
  apply (value_groups_in_enumeration_order StringToNumber_unused env_tag
           example_runs [] (aggregate_token Min) (mode_token Tag) (str "env")).
  vm_compute. reflexivity.
Defined.

Lemma value_groups_count_each_run_once_witness :
  Permutation (concat (map runUuids (headers example_tag_rows)))
              (map uuid example_runs).
Proof.
  apply (value_groups_count_each_run_once StringToNumber_unused env_tag
           example_runs [] (aggregate_token Min) (mode_token Tag) (str "env")).
  vm_compute. reflexivity.
Defined.

Lemma dataset_groups_in_first_seen_order_witness :
  map group_value (headers example_dataset_rows)
  = map (fun x => GroupDataset (the_dataset x)) (getUniqueDatasets example_runs)
    ++ (if existsb no_datasets example_runs
        then [RUN_GROUP_REMAINING_RUNS_SYMBOL] else []).
Proof.
  apply (dataset_groups_in_first_seen_order StringToNumber_unused example_runs
           [] (aggregate_token Max) (str "dataset")).
  vm_compute. reflexivity.
Defined.

Lemma group_identifiers_are_distinct_witness :
  NoDup (map groupId (headers example_dataset_rows)).
Proof.
  apply (group_identifiers_are_distinct StringToNumber_unused [] example_runs
           group_by_dataset).
  vm_compute. reflexivity.
Defined.

(** The run [a] is shown under both of its datasets, in two rows of
    different identifiers. *)
Lemma row_identifiers_are_distinct_witness :
  NoDup (map rowUuid (run_rows example_dataset_rows)).
Proof.
  apply (row_identifiers_are_distinct StringToNumber_unused [] example_runs
           group_by_dataset).
  - repeat constructor; simpl; intuition discriminate.
  - intros run [<-|[<-|[]]]; simpl; intuition discriminate.
  - vm_compute. reflexivity.
Defined.


Lemma unsupported_function_throws_unless_no_runs_witness :
  let result :=
    getGroupedRowRenderMetadata StringToNumber_unused [] example_runs
      {| mode := mode_token Dataset;
         aggregateFunction := str "median";
         groupByData := str "dataset" |} in
  (example_runs = [] -> result = Returns (Some []))
  /\ (example_runs <> [] ->
      result = Throws (unsupported (str "median"))
      \/ (Dataset <> Dataset /\ result = Throws TypeError)).
Proof.
  apply (unsupported_function_throws_unless_no_runs StringToNumber_unused []
           example_runs Dataset (str "median") (str "dataset")).
  intros f. destruct f; discriminate.
Defined.


Lemma value_group_display_name_witness :
  let group := {| info_value := GroupValue (str "prod") |} in
  groupId example_header
  = createGroupId (mode_token Tag) (str "env")
      (Some (getRunGroupDisplayName (Some group)))
  /\ (isRemainingRunsGroup group = true
      <-> getRunGroupDisplayName (Some group) = [])
  /\ (isRemainingRunsGroup group = false ->
      exists run, In run example_runs
                  /\ env_tag run = Some (getRunGroupDisplayName (Some group))).
Proof.
  apply (value_group_display_name StringToNumber_unused env_tag example_runs
           [] (aggregate_token Min) (mode_token Tag) (str "env")
           example_tag_rows example_header).
  - vm_compute. reflexivity.
  - left. reflexivity.
  - reflexivity.
Defined.

Lemma remaining_runs_group_identifier_witness :
  let group := {| info_value := GroupValue (str "prod") |} in
  isRemainingRunsGroup group = true
  <-> groupId example_header
      = createGroupId (mode group_by_env) (groupByData group_by_env) None.
Proof.
  apply (remaining_runs_group_identifier StringToNumber_unused [] example_runs
           group_by_env example_tag_rows example_header).
  - vm_compute. reflexivity.
  - left. reflexivity.
  - reflexivity.
Defined.

Lemma dataset_group_display_name_witness :
  let h := {| groupId := str "dataset.dataset.train.d1";
              expanderOpen := true;
              runUuids := [str "a"];
              aggregatedMetricEntities := [(str "loss", 1%float)];
              aggregatedParamEntities := [];
              group_value :=
                GroupDataset {| name := str "train"; digest := str "d1" |} |} in
  let group :=
    {| info_value :=
         GroupDataset {| name := str "train"; digest := str "d1" |} |} in
  exists x,
    In x (getUniqueDatasets example_runs)
    /\ getRunGroupDisplayName (Some group) = name (the_dataset x)
    /\ groupId h
       = createGroupId (mode_token Dataset) (str "dataset")
           (Some (identifier x)).
Proof.
  apply (dataset_group_display_name StringToNumber_unused example_runs []
           (aggregate_token Max) (str "dataset") example_dataset_rows).
  - vm_compute. reflexivity.
  - left. reflexivity.
  - reflexivity.
  - reflexivity.
Defined.

(* ================================================================= *)
(** ** Unique datasets *)

Lemma all_identified (runData : list SingleRunData) :
  flat_map (fun r => map (fun d => {| the_dataset := dataset d;
                                      identifier := dataset_identifier (dataset d) |})
                         (datasets r)) runData
  = map identified (flat_map datasets runData).
Proof.
  induction runData as [|r rs IH]; simpl; auto.
  now rewrite map_app, IH.
Qed.

Lemma all_identifiers (runData : list SingleRunData) :
  map identifier (map identified (flat_map datasets runData))
  = flat_map identifiers runData.
Proof.
  induction runData as [|r rs IH]; simpl; auto.
  rewrite !map_app, IH. f_equal. unfold identifiers. now rewrite map_map.
Qed.

(** [uniqBy] lists the identifiers in the order of first occurrence. *)
Lemma uniqBy_identifier_first_seen (l : list identified_dataset)
    (seen acc : list jsstring) :
  (forall k, In k seen <-> In k acc) ->
  fold_left (fun seen k => if includes seen k then seen else seen ++ [k])
            (map identifier l) acc
  = acc ++ map identifier (uniqBy_identifier seen l).
Proof.
  revert seen acc; induction l as [|x l IH]; intros seen acc H; simpl.
  - now rewrite app_nil_r.
  - assert (E : includes acc (identifier x) = includes seen (identifier x)).
    { destruct (includes seen (identifier x)) eqn:I.
      - apply includes_In. apply H. now apply includes_In.
      - apply includes_not_In. rewrite <- H. now apply includes_not_In. }
    rewrite E. destruct (includes seen (identifier x)).
    + now apply IH.
    + rewrite (IH (identifier x :: seen)).
      * simpl. now rewrite <- app_assoc.
      * intros k. simpl. rewrite in_app_iff, H. simpl. tauto.
Qed.

(** An element [uniqBy] keeps is the first of its identifier. *)
Lemma uniqBy_identifier_first (l : list identified_dataset)
    (seen : list jsstring) (x : identified_dataset) :
  In x (uniqBy_identifier seen l) ->
  find (fun y => string_eqb (identifier y) (identifier x)) l = Some x.
Proof.
  revert seen; induction l as [|y l IH]; intros seen; simpl; [tauto|].
  destruct (includes seen (identifier y)) eqn:I.
  - intros Hx.
    assert (Hne : identifier y <> identifier x).
    { intros E. apply includes_In in I.
      destruct (uniqBy_identifier_spec l seen) as (_ & Hin & _).
      assert (Hk : In (identifier x) (map identifier (uniqBy_identifier seen l)))
        by now apply in_map.
      apply Hin in Hk. rewrite <- E in Hk. tauto. }
    apply string_eqb_neq in Hne. rewrite Hne. eauto.
  - intros [->|Hx]; [now rewrite string_eqb_refl|].
    assert (Hne : identifier y <> identifier x).
    { intros E.
      destruct (uniqBy_identifier_spec l (identifier y :: seen)) as (_ & Hin & _).
      assert (Hk : In (identifier x)
                      (map identifier
                         (uniqBy_identifier (identifier y :: seen) l)))
        by now apply in_map.
      apply Hin in Hk. simpl in Hk. tauto. }
    apply string_eqb_neq in Hne. rewrite Hne. eauto.
Qed.

Lemma find_map {A B} (g : A -> B) (p : B -> bool) (l : list A) :
  find p (map g l) = option_map g (find (fun a => p (g a)) l).
Proof.
  induction l as [|a l IH]; simpl; auto.
  now destruct (p (g a)).
Qed.

(** X20: [getUniqueDatasets] keeps the first dataset of each identifier.
    Its identifiers are the identifiers [name.digest] of the dataset
    references of the runs, each once, in the order in which they are first
    met; and each of its elements is the first reference of the run list
    that has its identifier. *)
Theorem getUniqueDatasets_first_of_each_identifier
    (runData : list SingleRunData) :
  map identifier (getUniqueDatasets runData)
  = first_seen (flat_map identifiers runData)
  /\ forall x, In x (getUniqueDatasets runData) ->
       option_map identified
         (find (fun d => string_eqb (dataset_identifier (dataset d))
                                    (identifier x))
               (flat_map datasets runData))
       = Some x.
Proof.
  unfold getUniqueDatasets. rewrite all_identified. split.
  - unfold first_seen. rewrite <- all_identifiers.
    now rewrite (uniqBy_identifier_first_seen _ [] []).
  - intros x Hx. apply uniqBy_identifier_first in Hx.
    now rewrite find_map in Hx.
Qed.

(** X21: when no digest holds a full stop, a dataset group is the group of
    one dataset.  If the digests of the datasets of the run list hold no
    full stop, then for every dataset reference of a run of the list, the
    bucket of [createRunsGroupedByDataset] under the identifier of that
    reference carries exactly this dataset, name and digest, as the value of
    its group. *)
Theorem dataset_group_holds_its_dataset (runData : list SingleRunData)
    (run : SingleRunData) (d : RunDatasetWithTags) :
  (forall r d', In r runData -> In d' (datasets r) ->
     ~ In full_stop (digest (dataset d'))) ->
  In run runData -> In d (datasets run) ->
  exists g,
    get_own (dataset_identifier (dataset d)) (fst (bucketsByDataset runData))
    = Some g
    /\ group_dataset g = dataset d.
Proof.
  intros Hdigest Hrun Hd.
  rewrite bucketsByDataset_spec. simpl.
  set (k := dataset_identifier (dataset d)).
  assert (Hk : In k (identifiers run)).
  { unfold identifiers. apply in_map_iff. exists d. split; auto. }
  destruct (initial_groups_get runData k) as [H0 H1].
  destruct H1 as (g0 & G0).
  { apply in_flat_map. exists run. split; auto. }
  pose proof (buckets_loop runData (initial_groups runData) k
                (fun g0 G => proj1 (H0 g0 G))) as H.
  rewrite G0 in H. destruct H as (g & G & Hds & _).
  exists g. split; [exact G|].
  rewrite Hds.
  destruct (getUniqueDatasets_identifiers runData) as (_ & _ & Hsub).
  pose proof (get_own_In _ _ _ G0) as Hin. unfold initial_groups in Hin.
  apply in_map_iff in Hin as (x & [= Hx <-] & Hin). simpl.
  destruct (Hsub x Hin) as (r & d' & Hr & Hd' & ->). simpl in *.
  apply dataset_identifier_injective; eauto.
Qed.

Lemma dataset_group_holds_its_dataset_witness :
  let d := {| dataset := {| name := str "train"; digest := str "d1" |} |} in
  exists g,
    get_own (dataset_identifier (dataset d)) (fst (bucketsByDataset example_runs))
    = Some g
    /\ group_dataset g = dataset d.
Proof.
  apply (dataset_group_holds_its_dataset example_runs run_with_datasets
           {| dataset := {| name := str "train"; digest := str "d1" |} |}).
  - intros r d' Hr Hd' Hdot. destruct Hr as [<-|[<-|[]]]; simpl in Hd'.
    + destruct Hd' as [<-|[<-|[<-|[]]]]; simpl in Hdot; intuition discriminate.
    + contradiction.
  - left. reflexivity.
  - left. reflexivity.
Defined.

(** With a full stop in a digest, two datasets can share an identifier, and
    then share a group. *)
Example dataset_identifier_collision :
  dataset_identifier {| name := str "a.b"; digest := str "c" |}
  = dataset_identifier {| name := str "a"; digest := str "b.c" |}.
Proof. reflexivity. Qed.

(* ================================================================= *)
(** ** The time series, point by point *)

Lemma filter_filter_implied {A} (p q : A -> bool) (l : list A) :
  (forall x, In x l -> p x = true -> q x = true) ->
  filter p (filter q l) = filter p l.
Proof.
  induction l as [|x l IH]; intros H; simpl; auto.
  destruct (q x) eqn:Q; simpl.
  - destruct (p x); rewrite IH; auto; intros y Hy; apply H; now right.
  - destruct (p x) eqn:P.
    + rewrite (H x) in Q; [discriminate|now left|exact P].
    + apply IH. intros y Hy. apply H. now right.
Qed.

(** X22: each point of a synthetic series is computed from the entries of
    its own step.  The three series [createAggregatedMetricHistory] returns
    have one point per requested step number, in the order of the step
    numbers, under the metric key given; the value of the point of a step is
    the minimum, the maximum or the mean of the values, zero and NaN apart,
    of the history entries whose step is that step ([-0] and [+0] being one
    step), and its timestamp, the same in the three series, is the rounded
    mean of the timestamps of these entries, zero and NaN apart. *)
Theorem synthetic_series_pointwise (stepNumbers : list number)
    (metricKey : jsstring) (history : list MetricEntity) :
  createAggregatedMetricHistory stepNumbers metricKey history
  = {| synthetic_min :=
         map (synthetic_point Math_min metricKey history) stepNumbers;
       synthetic_max :=
         map (synthetic_point Math_max metricKey history) stepNumbers;
       synthetic_average :=
         map (synthetic_point average metricKey history) stepNumbers |}.
Proof. apply createAggregatedMetricHistory_points. Qed.

(** X23: history entries at steps that are not requested take no part.
    Dropping from the history every entry whose step is none of the
    requested step numbers leaves the result of
    [createAggregatedMetricHistory] as it is. *)
Theorem createAggregatedMetricHistory_ignores_other_steps
    (stepNumbers : list number) (metricKey : jsstring)
    (history : list MetricEntity) :
  createAggregatedMetricHistory stepNumbers metricKey
    (filter (fun e => existsb (fun s => same_number_key s (step e)) stepNumbers)
            history)
  = createAggregatedMetricHistory stepNumbers metricKey history.
Proof.
  rewrite !createAggregatedMetricHistory_points.
  assert (E : forall s, In s stepNumbers ->
            entries_at s
              (filter (fun e => existsb (fun s => same_number_key s (step e))
                                        stepNumbers) history)
            = entries_at s history).
  { intros s Hs. unfold entries_at. apply filter_filter_implied.
    intros e _ He. apply existsb_exists. now exists s. }
  f_equal; apply map_ext_in; intros s Hs;
    unfold synthetic_point, contributing; now rewrite (E s Hs).
Qed.
